(** * tenure-go: an LRU cache over Go's container/list and a map

    The cache (package [tenure]) keeps its entries in a [container/list]
    doubly linked list, most recently used first, and indexes the list
    elements by key in a Go map.  Elements are heap objects shared between
    the list and the map, so the development models the element store and
    the pointers explicitly, translates [container/list] and the cache
    statement by statement, and then relates the pointer structure to the
    sequence of key/value pairs it represents ([Repr]).

    Conventions of the model:
    - a Go [int] is a [Z] in the 64-bit range, arithmetic wraps ([wrap]);
    - a computation is a state transformer that may panic ([M]);
    - an [interface{}] is [option A]: nil, or a value of a type [A] with
      decidable equality that can be hashed (no NaN, no slice as a key);
    - the eviction callback is recorded, not run: [calls] lists the
      arguments of its invocations;
    - [range] over a map takes the order of the visit as an argument;
    - the mutex is not modelled: one operation runs at a time. *)

From Stdlib Require Import ZArith Lia String.
From stdpp Require Import gmap list.

Local Open Scope Z_scope.

(** ** Go's [int] (64 bit, two's complement) *)

Definition min_int : Z := - 2 ^ 63.
Definition max_int : Z := 2 ^ 63 - 1.

(** Arithmetic on [int] wraps around. *)
Definition wrap (z : Z) : Z := (z + 2 ^ 63) mod 2 ^ 64 - 2 ^ 63.

(** ** A state monad with failure

    [None] is a Go run-time panic (nil dereference, failed type assertion,
    index out of range). *)

Definition M (S X : Type) : Type := S -> option (X * S).

Definition ret {S X} (x : X) : M S X := fun s => Some (x, s).

Definition bind {S X Y} (m : M S X) (k : X -> M S Y) : M S Y :=
  fun s => match m s with
           | Some (x, s') => k x s'
           | None => None
           end.

Definition panic {S X} : M S X := fun _ => None.

Definition gets {S X} (f : S -> X) : M S X := fun s => Some (f s, s).

Definition modify {S} (f : S -> S) : M S unit := fun s => Some (tt, f s).

(** Run a computation on a component of the state. *)
Definition zoom {S T X} (get : S -> T) (set : T -> S -> S) (m : M T X) : M S X :=
  fun s => match m (get s) with
           | Some (x, t) => Some (x, set t s)
           | None => None
           end.

Declare Scope go_scope.
Delimit Scope go_scope with go.
Notation "x <- m ;; k" := (bind m (fun x => k))
  (at level 20, m at level 99, k at level 200, right associativity) : go_scope.
Notation "m ;; k" := (bind m (fun _ => k))
  (at level 100, k at level 200, right associativity) : go_scope.

(** ** container/list

    One list per cache, so an element's [list] field is either that list or
    nil; [inlist] is [e.list == l].  [Root] is the address of the sentinel
    [l.root], whose [Value] is nil and whose [list] field is never set. *)

Inductive ptr := Nil | Root | Elem (a : positive).

#[global] Instance ptr_eq_dec : EqDecision ptr.
Proof. solve_decision. Defined.

Module GoList.
Section GoList.
Context {T : Type}.

Record Element := mkElement {
  next : ptr;
  prev : ptr;
  inlist : bool;
  Value : T
}.

(** [elems] is the store of the elements allocated by this list and [brk]
    the next unused address; Go never frees an element that is still
    referenced, and nothing here depends on garbage being collected. *)
Record List := mkList {
  root_next : ptr;
  root_prev : ptr;
  len : Z;
  elems : gmap positive Element;
  brk : positive
}.

Definition set_elems (f : gmap positive Element -> gmap positive Element) (l : List) : List :=
  mkList (root_next l) (root_prev l) (len l) (f (elems l)) (brk l).

(** *** Field reads and writes through a pointer *)

Definition get_next (p : ptr) : M List ptr := fun l =>
  match p with
  | Nil => None
  | Root => Some (root_next l, l)
  | Elem a => e ← elems l !! a; Some (next e, l)
  end.

Definition get_prev (p : ptr) : M List ptr := fun l =>
  match p with
  | Nil => None
  | Root => Some (root_prev l, l)
  | Elem a => e ← elems l !! a; Some (prev e, l)
  end.

(** [e.list == l]; the sentinel's [list] field is nil. *)
Definition get_inlist (p : ptr) : M List bool := fun l =>
  match p with
  | Nil => None
  | Root => Some (false, l)
  | Elem a => e ← elems l !! a; Some (inlist e, l)
  end.

(** [e.Value], an interface value: nil ([None]) in the sentinel. *)
Definition read_Value (p : ptr) : M List (option T) := fun l =>
  match p with
  | Nil => None
  | Root => Some (None, l)
  | Elem a => e ← elems l !! a; Some (Some (Value e), l)
  end.

(** [e.Value] asserted to a pair pointer: the sentinel's [Value] is the nil
    interface, on which the type assertion panics. *)
Definition get_Value (p : ptr) : M List T := fun l =>
  match p with
  | Nil => None
  | Root => None
  | Elem a => e ← elems l !! a; Some (Value e, l)
  end.

Definition set_next (p q : ptr) : M List unit := fun l =>
  match p with
  | Nil => None
  | Root => Some (tt, mkList q (root_prev l) (len l) (elems l) (brk l))
  | Elem a =>
      e ← elems l !! a;
      Some (tt, set_elems (insert a (mkElement q (prev e) (inlist e) (Value e))) l)
  end.

Definition set_prev (p q : ptr) : M List unit := fun l =>
  match p with
  | Nil => None
  | Root => Some (tt, mkList (root_next l) q (len l) (elems l) (brk l))
  | Elem a =>
      e ← elems l !! a;
      Some (tt, set_elems (insert a (mkElement (next e) q (inlist e) (Value e))) l)
  end.

Definition set_inlist (p : ptr) (b : bool) : M List unit := fun l =>
  match p with
  | Nil => None
  | Root => Some (tt, l)
  | Elem a =>
      e ← elems l !! a;
      Some (tt, set_elems (insert a (mkElement (next e) (prev e) b (Value e))) l)
  end.

Definition set_Value (p : ptr) (v : T) : M List unit := fun l =>
  match p with
  | Nil => None
  | Root => None
  | Elem a =>
      e ← elems l !! a;
      Some (tt, set_elems (insert a (mkElement (next e) (prev e) (inlist e) v)) l)
  end.

Definition set_len (n : Z) : M List unit :=
  modify (fun l => mkList (root_next l) (root_prev l) n (elems l) (brk l)).

(** [&Element{Value: v}]: a fresh element with nil links. *)
Definition alloc (v : T) : M List ptr := fun l =>
  Some (Elem (brk l),
        mkList (root_next l) (root_prev l) (len l)
               (<[brk l := mkElement Nil Nil false v]> (elems l))
               (Pos.succ (brk l))).

(** *** The library's functions *)

(** [func (l *List) Init() *List] *)
Definition Init : M List unit :=
  (set_next Root Root ;;
   set_prev Root Root ;;
   set_len 0)%go.

(** [func New() *List] *)
Definition New : List :=
  mkList Root Root 0 ∅ 1%positive.

(** [func (l *List) Len() int] *)
Definition Len : M List Z := gets len.

(** [func (l *List) Back() *Element] *)
Definition Back : M List ptr :=
  (n <- gets len ;;
   if decide (n = 0) then ret Nil else get_prev Root)%go.

(** [func (e *Element) Prev() *Element] *)
Definition Prev (e : ptr) : M List ptr :=
  (p <- get_prev e ;;
   b <- get_inlist e ;;
   if b && negb (bool_decide (p = Root)) then ret p else ret Nil)%go.

(** [func (l *List) lazyInit()] *)
Definition lazyInit : M List unit :=
  (n <- get_next Root ;;
   if decide (n = Nil) then Init else ret tt)%go.

(** [func (l *List) insert(e, at *Element) *Element] *)
Definition insert (e at_ : ptr) : M List ptr :=
  (set_prev e at_ ;;
   n <- get_next at_ ;; set_next e n ;;
   p <- get_prev e ;; set_next p e ;;
   n <- get_next e ;; set_prev n e ;;
   set_inlist e true ;;
   n <- gets len ;; set_len (wrap (n + 1)) ;;
   ret e)%go.

(** [func (l *List) insertValue(v any, at *Element) *Element] *)
Definition insertValue (v : T) (at_ : ptr) : M List ptr :=
  (e <- alloc v ;; insert e at_)%go.

(** [func (l *List) remove(e *Element)] *)
Definition remove (e : ptr) : M List unit :=
  (p <- get_prev e ;; n <- get_next e ;; set_next p n ;;
   n <- get_next e ;; p <- get_prev e ;; set_prev n p ;;
   set_next e Nil ;;
   set_prev e Nil ;;
   set_inlist e false ;;
   n <- gets len ;; set_len (wrap (n - 1)))%go.

(** [func (l *List) move(e, at *Element)] *)
Definition move (e at_ : ptr) : M List unit :=
  if decide (e = at_) then ret tt else
  (p <- get_prev e ;; n <- get_next e ;; set_next p n ;;
   n <- get_next e ;; p <- get_prev e ;; set_prev n p ;;
   set_prev e at_ ;;
   n <- get_next at_ ;; set_next e n ;;
   p <- get_prev e ;; set_next p e ;;
   n <- get_next e ;; set_prev n e ;;
   ret tt)%go.

(** [func (l *List) Remove(e *Element) any]: it returns [e.Value] as it is,
    the nil interface ([None]) for the sentinel. *)
Definition Remove (e : ptr) : M List (option T) :=
  (b <- get_inlist e ;;
   (if b then remove e else ret tt) ;;
   read_Value e)%go.

(** [func (l *List) PushFront(v any) *Element] *)
Definition PushFront (v : T) : M List ptr :=
  (lazyInit ;; insertValue v Root)%go.

(** [func (l *List) MoveToFront(e *Element)] *)
Definition MoveToFront (e : ptr) : M List unit :=
  (b <- get_inlist e ;;
   f <- get_next Root ;;
   if negb b || bool_decide (f = e) then ret tt else move e Root)%go.

End GoList.
Arguments Element : clear implicits.
Arguments List : clear implicits.
End GoList.

(** ** The cache *)

Section tenure.
Context {A : Type} `{Countable A}.

(** [interface{}]: the nil interface ([None]) or a dynamic value of a
    comparable, hashable type. *)
Definition any : Type := option A.

(** [type pair struct { key, value interface{} }] *)
Record pair := mkPair {
  key : any;
  value : any
}.

Inductive error := errors_New (msg : string).

(** [type LRUCache struct].  The callback is an opaque Go function that must
    not call back into the cache (the lock is held while it runs):
    [onItemEvicted] says whether one is registered (non-nil), and [calls]
    records the arguments of every invocation, oldest first.  The lock is not
    modelled: operations run one at a time. *)
Record LRUCache := mkLRUCache {
  capacity : Z;
  links : GoList.List pair;
  cache : gmap any ptr;
  onItemEvicted : bool;
  calls : list pair
}.

Definition set_links (l : GoList.List pair) (c : LRUCache) : LRUCache :=
  mkLRUCache (capacity c) l (cache c) (onItemEvicted c) (calls c).

Definition set_cache (f : gmap any ptr -> gmap any ptr) (c : LRUCache) : LRUCache :=
  mkLRUCache (capacity c) (links c) (f (cache c)) (onItemEvicted c) (calls c).

Definition set_capacity (n : Z) (c : LRUCache) : LRUCache :=
  mkLRUCache n (links c) (cache c) (onItemEvicted c) (calls c).

Definition invoke (kv : pair) (c : LRUCache) : LRUCache :=
  mkLRUCache (capacity c) (links c) (cache c) (onItemEvicted c) (calls c ++ [kv]).

(** A call on [lc.links]. *)
Definition on_links {X} (m : M (GoList.List pair) X) : M LRUCache X :=
  zoom links set_links m.

(** [func New(bufCap int, onItemEvicted Callback) (cache *LRUCache, err error)] *)
Definition New (bufCap : Z) (onItemEvicted : bool) : LRUCache + error :=
  if decide (bufCap <= 0) then
    inr (errors_New "an LRU Cache must be initialized with a whole number greater than zero")
  else
    inl (mkLRUCache bufCap GoList.New ∅ onItemEvicted []).

(** [func (lc *LRUCache) purgeLRUItem(e *list.Element)] *)
Definition purgeLRUItem (e : ptr) : M LRUCache unit :=
  (on_links (GoList.Remove e) ;;
   kv <- on_links (GoList.get_Value e) ;;
   modify (set_cache (delete (key kv))))%go.

(** [func (lc *LRUCache) tryEvict(e *list.Element)] *)
Definition tryEvict (e : ptr) : M LRUCache unit :=
  (cb <- gets onItemEvicted ;;
   if cb then
     kv <- on_links (GoList.get_Value e) ;;
     modify (invoke kv)
   else ret tt)%go.

(** [func (lc *LRUCache) Get(key interface{}) (value interface{}, ok bool)].
    [Put] only ever stores a non-nil pair pointer in an element, so the
    [== nil] test after the type assertion never succeeds. *)
Definition Get (k : any) : M LRUCache (any * bool) :=
  (o <- gets (fun c => cache c !! k) ;;
   match o with
   | Some kv =>
       on_links (GoList.MoveToFront kv) ;;
       p <- on_links (GoList.get_Value kv) ;;
       ret (value p, true)
   | None => ret (None, false)
   end)%go.

(** [func (lc *LRUCache) Put(key, value interface{}) (wasEvicted bool)] *)
Definition Put (k v : any) : M LRUCache bool :=
  (o <- gets (fun c => cache c !! k) ;;
   match o with
   | Some kv =>
       on_links (GoList.MoveToFront kv) ;;
       p <- on_links (GoList.get_Value kv) ;;
       on_links (GoList.set_Value kv (mkPair (key p) v)) ;;
       ret false
   | None =>
       e <- on_links (GoList.PushFront (mkPair k v)) ;;
       modify (set_cache <[k := e]>) ;;
       n <- on_links GoList.Len ;;
       cap <- gets capacity ;;
       if decide (n > cap) then
         kv <- on_links GoList.Back ;;
         if decide (kv = Nil) then ret false
         else (purgeLRUItem kv ;; tryEvict kv ;; ret true)
       else ret false
   end)%go.

(** [func (lc *LRUCache) Del(key interface{}) (wasDeleted bool)] *)
Definition Del (k : any) : M LRUCache bool :=
  (o <- gets (fun c => cache c !! k) ;;
   match o with
   | Some kv => purgeLRUItem kv ;; ret true
   | None => ret false
   end)%go.

(** The loop of [Keys]: [keys[i] = k.Value.(pair).key; i++] from the back
    of the list, following [Prev].  Writing past the end of [keys] panics,
    so the loop body runs at most [length keys] times. *)
Fixpoint Keys_loop (fuel i : nat) (k : ptr) (keys : list any) : M LRUCache (list any) :=
  if decide (k = Nil) then ret keys else
  match fuel with
  | O => panic
  | S fuel' =>
      (kv <- on_links (GoList.get_Value k) ;;
       if decide (i < length keys)%nat then
         k' <- on_links (GoList.Prev k) ;;
         Keys_loop fuel' (S i) k' (<[i := key kv]> keys)
       else panic)%go
  end.

(** [func (lc *LRUCache) Keys() []interface{}]; [make] panics on a negative
    length. *)
Definition Keys : M LRUCache (list any) :=
  (n <- on_links GoList.Len ;;
   if decide (n < 0) then panic else
   let keys := replicate (Z.to_nat n) (None : any) in
   k <- on_links GoList.Back ;;
   Keys_loop (length keys) 0 k keys)%go.

(** [func (lc *LRUCache) Peek(key interface{}) (value interface{})] *)
Definition Peek (k : any) : M LRUCache any :=
  (o <- gets (fun c => cache c !! k) ;;
   match o with
   | Some kv => p <- on_links (GoList.get_Value kv) ;; ret (value p)
   | None => ret None
   end)%go.

(** [func (lc *LRUCache) Has(key interface{}) (ok bool)] *)
Definition Has (k : any) : M LRUCache bool :=
  (o <- gets (fun c => cache c !! k) ;;
   ret (bool_decide (is_Some o)))%go.

(** The loop of [Drop], [for _, v := range lc.cache].  Go leaves the
    iteration order of a map unspecified: [order] is the order in which this
    run visits the keys.  A key deleted before the loop reaches it is not
    produced. *)
Fixpoint Drop_loop (order : list any) : M LRUCache unit :=
  match order with
  | [] => ret tt
  | k :: order' =>
      (o <- gets (fun c => cache c !! k) ;;
       match o with
       | Some v =>
           cb <- gets onItemEvicted ;;
           if cb then (purgeLRUItem v ;; tryEvict v) else ret tt
       | None => ret tt
       end ;;
       Drop_loop order')%go
  end.

(** [func (lc *LRUCache) Drop()] *)
Definition Drop (order : list any) : M LRUCache unit :=
  (Drop_loop order ;; on_links GoList.Init)%go.

(** [func (lc *LRUCache) Purge()]: the earlier name of [Drop], same body. *)
Definition Purge (order : list any) : M LRUCache unit :=
  (Drop_loop order ;; on_links GoList.Init)%go.

(** [func (lc *LRUCache) Size() int] *)
Definition Size : M LRUCache Z := on_links GoList.Len.

(** [func (lc *LRUCache) Capacity() int] *)
Definition Capacity : M LRUCache Z := gets capacity.

(** The loop of [AdjustCapacity], [for i := 0; i < diff; i++]. *)
Fixpoint AdjustCapacity_loop (n : nat) : M LRUCache unit :=
  match n with
  | O => ret tt
  | S n' =>
      (kv <- on_links GoList.Back ;;
       (if decide (kv = Nil) then ret tt
        else (purgeLRUItem kv ;; tryEvict kv)) ;;
       AdjustCapacity_loop n')%go
  end.

(** [func (lc *LRUCache) AdjustCapacity(bufCap int) (numEvicted int)] *)
Definition AdjustCapacity (bufCap : Z) : M LRUCache Z :=
  (n <- on_links GoList.Len ;;
   let diff := wrap (n - bufCap) in
   let diff := if decide (diff < 0) then 0 else diff in
   AdjustCapacity_loop (Z.to_nat diff) ;;
   modify (set_capacity bufCap) ;;
   ret diff)%go.

(** [func (lc *LRUCache) LeastRecentlyUsed() (key interface{}, value interface{})] *)
Definition LeastRecentlyUsed : M LRUCache (any * any) :=
  (kv <- on_links GoList.Back ;;
   if decide (kv = Nil) then ret (None, None)
   else (n <- on_links (GoList.get_Value kv) ;; ret (key n, value n)))%go.

End tenure.
Arguments any : clear implicits.
Arguments pair : clear implicits.
Arguments LRUCache A {_ _}.

(** ** What a list and a cache represent *)

Section represents.
Context {T : Type}.
Implicit Types (L : list (positive * T)) (l : GoList.List T).

(** The pointer to the first element of a segment, [d] when it is empty. *)
Definition hd_ptr L (d : ptr) : ptr :=
  match L with
  | [] => d
  | (a, _) :: _ => Elem a
  end.

(** The pointer to the last element of a segment that follows [pp]. *)
Fixpoint last_ptr (pp : ptr) L : ptr :=
  match L with
  | [] => pp
  | (a, _) :: L' => last_ptr (Elem a) L'
  end.

(** [dseg m pp L qn]: in the store [m] the elements at the addresses of [L]
    are doubly linked in this order, carry the values of [L] and belong to
    the list; the first one points back to [pp], the last one on to [qn]. *)
Fixpoint dseg (m : gmap positive (GoList.Element T)) (pp : ptr) L (qn : ptr) : Prop :=
  match L with
  | [] => True
  | (a, v) :: L' =>
      m !! a = Some (GoList.mkElement (hd_ptr L' qn) pp true v) ∧ dseg m (Elem a) L' qn
  end.

(** A segment reached from the sentinel's [next], and one that ends at the
    sentinel's [prev]. *)
Definition fseg l L (qn : ptr) : Prop :=
  GoList.root_next l = hd_ptr L qn ∧ dseg (GoList.elems l) Root L qn.

Definition bseg l (pp : ptr) L : Prop :=
  GoList.root_prev l = last_ptr pp L ∧ dseg (GoList.elems l) pp L Root.

(** Every allocated address is below the allocation pointer. *)
Definition allocated_below l : Prop :=
  ∀ a, is_Some (GoList.elems l !! a) → (a < GoList.brk l)%positive.

(** [is_list l L]: the elements of [l], from the front to the back, are
    those of [L], linked in a ring through the sentinel, and [l.len] is their
    number as an [int]. *)
Definition is_list l L : Prop :=
  NoDup L.*1 ∧
  fseg l L Root ∧
  GoList.root_prev l = last_ptr Root L ∧
  GoList.len l = wrap (Z.of_nat (length L)) ∧
  allocated_below l.

(** What stays of a list across a field update. *)
Definition same_but l l' (touched : list positive) : Prop :=
  GoList.len l' = GoList.len l ∧ GoList.brk l' = GoList.brk l ∧
  (∀ b, b ∉ touched -> GoList.elems l' !! b = GoList.elems l !! b) ∧
  (∀ b, is_Some (GoList.elems l' !! b) <-> is_Some (GoList.elems l !! b)).

End represents.

Section cache_represents.
Context {A : Type} `{Countable A}.
Implicit Types (c : LRUCache A) (L : list (positive * pair A)) (E : list (pair A)).
Implicit Types (k v : any A) (kv : pair A).

(** [wf c L]: the list of [c] is [L] and the key index maps exactly the keys
    of [L], each to the element that stores it. *)
Definition wf c L : Prop :=
  is_list (links c) L ∧
  (∀ k p, cache c !! k = Some p → ∃ a v, p = Elem a ∧ (a, mkPair k v) ∈ L) ∧
  (∀ a kv, (a, kv) ∈ L → cache c !! key kv = Some (Elem a)).

(** [Repr c E]: the cache [c] holds the entries [E], most recently used
    first, and satisfies the data-model invariants: the ordering and the key
    index hold the same keys, each once. *)
Definition Repr c E : Prop := ∃ L, wf c L ∧ L.*2 = E.

(** The entries of [E] other than the one for key [k]. *)
Definition without k E : list (pair A) :=
  filter (fun kv => key kv ≠ k) E.

Definition keys_of E : list (any A) := key <$> E.

(** The result of a computation, and the state it leaves. *)
Definition result {X} (m : M (LRUCache A) X) c : option X := fst <$> m c.
Definition after {X} (m : M (LRUCache A) X) c : option (LRUCache A) := snd <$> m c.

(** A sequence of [Put] calls. *)
Fixpoint run_puts (kvs : list (any A * any A)) : M (LRUCache A) unit :=
  match kvs with
  | [] => ret tt
  | (k, v) :: kvs' => (Put k v ;; run_puts kvs')%go
  end.

(** A sequence of [Has] and [Peek] calls. *)
Inductive probe := ProbeHas (k : any A) | ProbePeek (k : any A).

Fixpoint run_probes (ps : list probe) : M (LRUCache A) unit :=
  match ps with
  | [] => ret tt
  | ProbeHas k :: ps' => (Has k ;; run_probes ps')%go
  | ProbePeek k :: ps' => (Peek k ;; run_probes ps')%go
  end.

(** What the callback is invoked with when the entry [kv] is evicted. *)
Definition evicted c kv : list (pair A) :=
  if onItemEvicted c then [kv] else [].

(** [Size() <= Capacity()], as the two accessors return them. *)
Definition within_capacity c : Prop :=
  ∃ s cap, Size c = Some (s, c) ∧ Capacity c = Some (cap, c) ∧ s <= cap.

(** The invariant of a sequence of [Put] calls on a cache of capacity
    [bufCap].  A capacity of [max_int] cannot be exceeded by an [int]. *)
Definition puts_inv (bufCap : Z) c : Prop :=
  ∃ L, wf c L ∧ capacity c = bufCap ∧
       (bufCap < max_int -> Z.of_nat (length L) <= bufCap).

(** The public operations, as calls. *)
Inductive op :=
| OpGet (k : any A)
| OpPut (k v : any A)
| OpDel (k : any A)
| OpKeys
| OpPeek (k : any A)
| OpHas (k : any A)
| OpDrop (order : list (any A))
| OpSize
| OpCapacity
| OpAdjustCapacity (bufCap : Z)
| OpLeastRecentlyUsed.

Definition run_op (o : op) : M (LRUCache A) unit :=
  match o with
  | OpGet k => (Get k ;; ret tt)%go
  | OpPut k v => (Put k v ;; ret tt)%go
  | OpDel k => (Del k ;; ret tt)%go
  | OpKeys => (Keys ;; ret tt)%go
  | OpPeek k => (Peek k ;; ret tt)%go
  | OpHas k => (Has k ;; ret tt)%go
  | OpDrop order => Drop order
  | OpSize => (Size ;; ret tt)%go
  | OpCapacity => (Capacity ;; ret tt)%go
  | OpAdjustCapacity bufCap => (AdjustCapacity bufCap ;; ret tt)%go
  | OpLeastRecentlyUsed => (LeastRecentlyUsed ;; ret tt)%go
  end.

(** The calls that the results below cover: a [Drop] only with a callback
    registered (its loop then visits every key of the index), and a new
    capacity below [max_int]. *)
Definition admissible c (o : op) : Prop :=
  match o with
  | OpDrop order =>
      onItemEvicted c = true ∧ ∀ k, is_Some (cache c !! k) -> k ∈ order
  | OpAdjustCapacity bufCap => bufCap < max_int
  | _ => True
  end.

(** The caches built by [New] and admissible calls. *)
Inductive reachable : LRUCache A -> Prop :=
| reachable_New bufCap cb c :
    New bufCap cb = inl c -> bufCap < max_int -> reachable c
| reachable_step c o c' :
    reachable c -> admissible c o -> run_op o c = Some (tt, c') -> reachable c'.

(** A well-formed cache whose size and capacity are below [max_int]. *)
Definition bounded c : Prop :=
  ∃ E, Repr c E ∧ Z.of_nat (length E) < max_int ∧ capacity c < max_int.

End cache_represents.

(** ** Caches with integer keys and values, for the scenarios *)

Definition int (z : Z) : any Z := Some z.

Definition fresh_cache (bufCap : Z) (cb : bool) : LRUCache Z :=
  mkLRUCache bufCap GoList.New ∅ cb [].

Definition state_after {X} (m : M (LRUCache Z) X) (c : LRUCache Z) : LRUCache Z :=
  default c (after m c).

Definition recency_scenario : M (LRUCache Z) unit :=
  (Put (int 1) (int 1) ;; Put (int 2) (int 2) ;; Get (int 1) ;;
   Put (int 3) (int 3) ;; Get (int 1) ;;
   Put (int 4) (int 4) ;; Get (int 1) ;;
   Put (int 5) (int 5) ;; ret tt)%go.

Definition one_entry : LRUCache Z :=
  state_after (Put (int 1) (int 1)) (fresh_cache 3 true).

Definition nil_entry : LRUCache Z :=
  state_after (Put None None) (fresh_cache 3 true).

Definition dropped_without_callback : LRUCache Z :=
  state_after (Put (int 1) (int 1) ;; Drop [int 1])%go (fresh_cache 3 false).

(** ** What a call leaves unchanged *)

(** A computation that only reads: when it returns, the state is the one
    it started from. *)
Definition readonly {S X} (m : M S X) : Prop :=
  ∀ s x s', m s = Some (x, s') -> s' = s.

Section call_frames.
Context {A : Type} `{Countable A}.
Implicit Types (c : LRUCache A).

(** [AdjustCapacity] is the only call that assigns [lc.capacity]; [Put],
    [Drop] and [AdjustCapacity] are the calls that reach [tryEvict]. *)
Definition sets_capacity (o : @op A) : bool :=
  match o with OpAdjustCapacity _ => true | _ => false end.

Definition may_evict (o : @op A) : bool :=
  match o with OpPut _ _ | OpDrop _ | OpAdjustCapacity _ => true | _ => false end.

(** The calls that only read. *)
Definition only_reads (o : @op A) : bool :=
  match o with
  | OpKeys | OpSize | OpCapacity | OpLeastRecentlyUsed => true
  | _ => false
  end.

(** What a call leaves of the capacity, the callback and its record: the
    callback stays, its record only grows, and not at all when no callback
    is registered. *)
Definition frame (keep_capacity keep_calls : bool) c c' : Prop :=
  onItemEvicted c' = onItemEvicted c ∧
  (keep_capacity = true -> capacity c' = capacity c) ∧
  ∃ more, calls c' = calls c ++ more ∧
          (onItemEvicted c = false -> more = []) ∧
          (keep_calls = true -> more = []).

Definition respects (b1 b2 : bool) {X} (m : M (LRUCache A) X) : Prop :=
  ∀ c x c', m c = Some (x, c') -> frame b1 b2 c c'.

(** The entry that [Put(k, v)] stores. *)
Definition entry_of (p : any A * any A) : pair A := mkPair p.1 p.2.

End call_frames.

(** A cache at its capacity 1, and an empty cache whose capacity was set
    to 0. *)
Definition full_one : LRUCache Z :=
  state_after (Put (int 1) (int 1)) (fresh_cache 1 true).

Definition zero_capacity : LRUCache Z :=
  state_after (AdjustCapacity 0) (fresh_cache 3 true).

(** * Proofs *)

(** ** Go's [int] *)

Lemma wrap_small z : min_int <= z <= max_int -> wrap z = z.
Proof.
  unfold wrap, min_int, max_int. intros Hz.
  rewrite Z.mod_small; lia.
Qed.

Lemma wrap_range z : min_int <= wrap z <= max_int.
Proof.
  unfold wrap, min_int, max_int.
  pose proof (Z.mod_pos_bound (z + 2 ^ 63) (2 ^ 64)). lia.
Qed.

Lemma wrap_wrap_add a b : wrap (wrap a + b) = wrap (a + b).
Proof.
  unfold wrap. f_equal.
  replace ((a + 2 ^ 63) mod 2 ^ 64 - 2 ^ 63 + b + 2 ^ 63)
    with ((a + 2 ^ 63) mod 2 ^ 64 + b) by lia.
  rewrite Zplus_mod_idemp_l. f_equal. lia.
Qed.

(** ** The monad *)

Lemma bind_Some {S X Y} (m : M S X) (k : X -> M S Y) s x s' :
  m s = Some (x, s') -> bind m k s = k x s'.
Proof. intros E. unfold bind. now rewrite E. Qed.

Lemma bind_inv {S X Y} (m : M S X) (k : X -> M S Y) s r :
  bind m k s = Some r -> ∃ x s', m s = Some (x, s') ∧ k x s' = Some r.
Proof.
  unfold bind. destruct (m s) as [[x s']|]; [|discriminate]. eauto.
Qed.

Lemma gets_eq {S X} (f : S -> X) s : gets f s = Some (f s, s).
Proof. reflexivity. Qed.

Lemma modify_eq {S} (f : S -> S) s : modify f s = Some (tt, f s).
Proof. reflexivity. Qed.

(** Membership in lists built with [::] and [++]. *)
Ltac in_list :=
  rewrite ?fmap_app, ?fmap_cons, ?elem_of_app, ?elem_of_cons, ?elem_of_nil in *;
  simpl in *; intuition (subst; auto).

(** Steps of a computation whose result is known. *)
Ltac mstep H := rewrite (bind_Some _ _ _ _ _ H).
Ltac mgets := rewrite (bind_Some _ _ _ _ _ (gets_eq _ _)).
Ltac mmodify := rewrite (bind_Some _ _ _ _ _ (modify_eq _ _)).

(** ** Doubly linked segments *)

Section list_facts.
Context {T : Type}.
Implicit Types (L : list (positive * T)) (l : GoList.List T).
Implicit Types (m : gmap positive (GoList.Element T)).

Lemma hd_ptr_app L1 L2 d : hd_ptr (L1 ++ L2) d = hd_ptr L1 (hd_ptr L2 d).
Proof. destruct L1 as [|[a v] L1]; reflexivity. Qed.

Lemma last_ptr_app pp L1 L2 : last_ptr pp (L1 ++ L2) = last_ptr (last_ptr pp L1) L2.
Proof.
  revert pp. induction L1 as [|[a v] L1 IH]; intros pp; simpl; [reflexivity|apply IH].
Qed.

Lemma hd_ptr_not_Nil L d : d ≠ Nil -> hd_ptr L d ≠ Nil.
Proof. destruct L as [|[a v] L]; simpl; [auto|discriminate]. Qed.

Lemma last_ptr_not_Nil L pp : pp ≠ Nil -> last_ptr pp L ≠ Nil.
Proof.
  revert pp. induction L as [|[a v] L IH]; intros pp Hpp; simpl; [auto|].
  apply IH. discriminate.
Qed.

Lemma last_ptr_elem L pp :
  L ≠ [] -> ∃ a, last_ptr pp L = Elem a ∧ a ∈ L.*1.
Proof.
  revert pp. induction L as [|[a v] L IH]; intros pp HL; [congruence|].
  simpl. destruct L as [|x L'].
  - exists a. split; [reflexivity|]. simpl. in_list.
  - destruct (IH (Elem a)) as (b & Hb & Hin); [discriminate|].
    exists b. split; [exact Hb|]. rewrite fmap_cons. apply elem_of_cons. right. exact Hin.
Qed.

(** Segments only depend on the elements they go through. *)
Lemma dseg_frame m m' pp L qn :
  (∀ a, a ∈ L.*1 -> m' !! a = m !! a) ->
  dseg m pp L qn -> dseg m' pp L qn.
Proof.
  revert pp. induction L as [|[a v] L IH]; intros pp Hsame; simpl; [auto|].
  intros [Ha Hrest]. split.
  - rewrite Hsame; [exact Ha|]. simpl. in_list.
  - apply IH; [|exact Hrest]. intros b Hb. apply Hsame. simpl. in_list.
Qed.

Lemma dseg_app m pp L1 L2 qn :
  dseg m pp (L1 ++ L2) qn <->
  dseg m pp L1 (hd_ptr L2 qn) ∧ dseg m (last_ptr pp L1) L2 qn.
Proof.
  revert pp. induction L1 as [|[a v] L1 IH]; intros pp; simpl.
  - tauto.
  - rewrite hd_ptr_app, IH. tauto.
Qed.

(** Redirecting the [next] of the last element of a segment. *)
Lemma dseg_set_next_last m pp L b v q q' :
  b ∉ L.*1 ->
  dseg m pp (L ++ [(b, v)]) q ->
  m !! b = Some (GoList.mkElement q (last_ptr pp L) true v) ∧
  dseg (<[b := GoList.mkElement q' (last_ptr pp L) true v]> m) pp (L ++ [(b, v)]) q'.
Proof.
  intros Hb Hseg. apply dseg_app in Hseg as [HL [Hlast _]]. simpl in Hlast.
  split; [exact Hlast|].
  apply dseg_app. split.
  - simpl. eapply dseg_frame; [|exact HL].
    intros a Ha. apply lookup_insert_ne. intros ->. contradiction.
  - simpl. split; [|exact I]. apply lookup_insert_eq.
Qed.

(** Redirecting the [prev] of the first element of a segment. *)
Lemma dseg_set_prev_first m pp pp' L b v qn :
  b ∉ L.*1 ->
  dseg m pp ((b, v) :: L) qn ->
  dseg (<[b := GoList.mkElement (hd_ptr L qn) pp' true v]> m) pp' ((b, v) :: L) qn.
Proof.
  intros Hb [Hfirst Hrest]. simpl. split; [apply lookup_insert_eq|].
  eapply dseg_frame; [|exact Hrest].
  intros a Ha. apply lookup_insert_ne. intros ->. contradiction.
Qed.

Lemma set_next_last l L q q' :
  NoDup L.*1 -> fseg l L q ->
  ∃ l', GoList.set_next (last_ptr Root L) q' l = Some (tt, l') ∧
        fseg l' L q' ∧ GoList.root_prev l' = GoList.root_prev l ∧
        same_but l l' L.*1.
Proof.
  intros Hnd [Hroot Hseg].
  destruct L as [|[b v] L0 _] using rev_ind.
  - simpl. eexists. split; [reflexivity|]. repeat split; auto.
  - rewrite fmap_app in Hnd. apply NoDup_app in Hnd as (_ & Hnin & _).
    assert (Hb : b ∉ L0.*1). { intros Hin. apply (Hnin b Hin). simpl. in_list. }
    destruct (dseg_set_next_last _ _ _ _ _ _ q' Hb Hseg) as [Hlk Hseg'].
    rewrite last_ptr_app. simpl. unfold GoList.set_next. rewrite Hlk. simpl.
    eexists. split; [reflexivity|].
    split; [|split; [reflexivity|]].
    + split; [|exact Hseg']. simpl. rewrite Hroot, !hd_ptr_app.
      destruct L0 as [|[a w] L0]; reflexivity.
    + repeat split; simpl.
      * intros c Hc. apply lookup_insert_ne. intros ->. apply Hc.
        rewrite fmap_app. simpl. in_list.
      * destruct (decide (b = b0)) as [->|Hne].
        -- rewrite Hlk. eauto.
        -- rewrite lookup_insert_ne by auto. auto.
      * destruct (decide (b = b0)) as [->|Hne].
        -- rewrite lookup_insert_eq. eauto.
        -- rewrite lookup_insert_ne by auto. auto.
Qed.

Lemma set_prev_first l L p p' :
  NoDup L.*1 -> bseg l p L ->
  ∃ l', GoList.set_prev (hd_ptr L Root) p' l = Some (tt, l') ∧
        bseg l' p' L ∧ GoList.root_next l' = GoList.root_next l ∧
        same_but l l' L.*1.
Proof.
  intros Hnd [Hroot Hseg].
  destruct L as [|[b v] L].
  - simpl. eexists. split; [reflexivity|]. repeat split; auto.
  - simpl in Hnd. apply NoDup_cons in Hnd as [Hb _].
    pose proof (dseg_set_prev_first _ _ p' _ _ _ _ Hb Hseg) as Hseg'.
    destruct Hseg as [Hlk _].
    simpl. unfold GoList.set_prev. rewrite Hlk. simpl.
    eexists. split; [reflexivity|].
    split; [|split; [reflexivity|]].
    + split; [exact Hroot|exact Hseg'].
    + repeat split; simpl.
      * intros c Hc. apply lookup_insert_ne. intros ->. apply Hc. in_list.
      * destruct (decide (b = b0)) as [->|Hne].
        -- rewrite Hlk. eauto.
        -- rewrite lookup_insert_ne by auto. auto.
      * destruct (decide (b = b0)) as [->|Hne].
        -- rewrite lookup_insert_eq. eauto.
        -- rewrite lookup_insert_ne by auto. auto.
Qed.

(** *** Reading and writing the fields of an allocated element *)

Lemma get_next_Elem l a e :
  GoList.elems l !! a = Some e -> GoList.get_next (Elem a) l = Some (GoList.next e, l).
Proof. intros E. unfold GoList.get_next. now rewrite E. Qed.

Lemma get_prev_Elem l a e :
  GoList.elems l !! a = Some e -> GoList.get_prev (Elem a) l = Some (GoList.prev e, l).
Proof. intros E. unfold GoList.get_prev. now rewrite E. Qed.

Lemma get_inlist_Elem l a e :
  GoList.elems l !! a = Some e -> GoList.get_inlist (Elem a) l = Some (GoList.inlist e, l).
Proof. intros E. unfold GoList.get_inlist. now rewrite E. Qed.

Lemma get_Value_Elem l a e :
  GoList.elems l !! a = Some e -> GoList.get_Value (Elem a) l = Some (GoList.Value e, l).
Proof. intros E. unfold GoList.get_Value. now rewrite E. Qed.

Lemma set_next_Elem l a e q :
  GoList.elems l !! a = Some e ->
  GoList.set_next (Elem a) q l =
    Some (tt, GoList.set_elems
                (insert a (GoList.mkElement q (GoList.prev e) (GoList.inlist e) (GoList.Value e))) l).
Proof. intros E. unfold GoList.set_next. now rewrite E. Qed.

Lemma set_prev_Elem l a e q :
  GoList.elems l !! a = Some e ->
  GoList.set_prev (Elem a) q l =
    Some (tt, GoList.set_elems
                (insert a (GoList.mkElement (GoList.next e) q (GoList.inlist e) (GoList.Value e))) l).
Proof. intros E. unfold GoList.set_prev. now rewrite E. Qed.

Lemma set_inlist_Elem l a e b :
  GoList.elems l !! a = Some e ->
  GoList.set_inlist (Elem a) b l =
    Some (tt, GoList.set_elems
                (insert a (GoList.mkElement (GoList.next e) (GoList.prev e) b (GoList.Value e))) l).
Proof. intros E. unfold GoList.set_inlist. now rewrite E. Qed.

Lemma set_Value_Elem l a e v :
  GoList.elems l !! a = Some e ->
  GoList.set_Value (Elem a) v l =
    Some (tt, GoList.set_elems
                (insert a (GoList.mkElement (GoList.next e) (GoList.prev e) (GoList.inlist e) v)) l).
Proof. intros E. unfold GoList.set_Value. now rewrite E. Qed.

Lemma same_but_refl l S : same_but l l S.
Proof. repeat split; auto. Qed.

Lemma same_but_trans l1 l2 l3 S1 S2 S :
  (∀ b, b ∉ S -> (b ∉ S1) ∧ (b ∉ S2)) ->
  same_but l1 l2 S1 -> same_but l2 l3 S2 -> same_but l1 l3 S.
Proof.
  intros HS (Hl1 & Hb1 & He1 & Hd1) (Hl2 & Hb2 & He2 & Hd2).
  repeat split.
  - congruence.
  - congruence.
  - intros b Hb. destruct (HS b Hb). rewrite He2, He1; auto.
  - intros Hs. apply Hd1, Hd2, Hs.
  - intros Hs. apply Hd2, Hd1, Hs.
Qed.

Lemma same_but_insert l a e e' S :
  GoList.elems l !! a = Some e -> a ∈ S ->
  same_but l (GoList.set_elems (insert a e') l) S.
Proof.
  intros Hlk Ha. repeat split; simpl.
  - intros b Hb. apply lookup_insert_ne. intros ->. contradiction.
  - destruct (decide (a = b)) as [->|Hne]; [rewrite Hlk; eauto|].
    rewrite lookup_insert_ne by auto. auto.
  - destruct (decide (a = b)) as [->|Hne]; [rewrite lookup_insert_eq; eauto|].
    rewrite lookup_insert_ne by auto. auto.
Qed.

Lemma fseg_frame l l' L qn :
  GoList.root_next l' = GoList.root_next l ->
  (∀ b, b ∈ L.*1 -> GoList.elems l' !! b = GoList.elems l !! b) ->
  fseg l L qn -> fseg l' L qn.
Proof.
  intros Hr Hsame [Hroot Hseg]. split; [congruence|]. eapply dseg_frame; eauto.
Qed.

Lemma bseg_frame l l' L pp :
  GoList.root_prev l' = GoList.root_prev l ->
  (∀ b, b ∈ L.*1 -> GoList.elems l' !! b = GoList.elems l !! b) ->
  bseg l pp L -> bseg l' pp L.
Proof.
  intros Hr Hsame [Hroot Hseg]. split; [congruence|]. eapply dseg_frame; eauto.
Qed.

(** A list split at one of its elements. *)
Lemma is_list_split l L1 a v L2 :
  is_list l (L1 ++ (a, v) :: L2) ->
  fseg l L1 (Elem a) ∧
  GoList.elems l !! a =
    Some (GoList.mkElement (hd_ptr L2 Root) (last_ptr Root L1) true v) ∧
  bseg l (Elem a) L2 ∧
  (a ∉ L1.*1) ∧ (a ∉ L2.*1) ∧ NoDup L1.*1 ∧ NoDup L2.*1 ∧
  (∀ b, b ∈ L1.*1 -> b ∉ L2.*1).
Proof.
  intros (Hnd & [Hroot Hseg] & Hprev & _ & _).
  apply dseg_app in Hseg as [H1 [Ha H2]].
  rewrite hd_ptr_app in Hroot. rewrite last_ptr_app in Hprev.
  rewrite fmap_app, fmap_cons in Hnd. simpl in Hnd.
  apply NoDup_app in Hnd as (Hnd1 & Hdisj & Hnd2).
  apply NoDup_cons in Hnd2 as [Ha2 Hnd2].
  repeat split; auto.
  - intros Hin. apply (Hdisj a Hin). in_list.
  - intros b Hb Hb2. apply (Hdisj b Hb). in_list.
Qed.

(** The first two statements of [remove] and of [move]: the neighbours of
    [e] are linked to each other; [e] keeps its fields. *)
Lemma unlink l L1 a v L2 {Y} (k : M (GoList.List T) Y) :
  is_list l (L1 ++ (a, v) :: L2) ->
  ∃ l', (p <- GoList.get_prev (Elem a) ;; n <- GoList.get_next (Elem a) ;;
         GoList.set_next p n ;;
         n <- GoList.get_next (Elem a) ;; p <- GoList.get_prev (Elem a) ;;
         GoList.set_prev n p ;; k)%go l = k l' ∧
        fseg l' (L1 ++ L2) Root ∧
        GoList.root_prev l' = last_ptr Root (L1 ++ L2) ∧
        GoList.elems l' !! a =
          Some (GoList.mkElement (hd_ptr L2 Root) (last_ptr Root L1) true v) ∧
        same_but l l' (L1 ++ L2).*1.
Proof.
  intros Hl.
  destruct (is_list_split _ _ _ _ _ Hl) as (Hf & Ha & Hb & Ha1 & Ha2 & Hnd1 & Hnd2 & Hdisj).
  destruct (set_next_last l L1 (Elem a) (hd_ptr L2 Root) Hnd1 Hf)
    as (l1 & Hstep1 & Hf1 & Hrp1 & Hsame1).
  assert (Ha_l1 : GoList.elems l1 !! a = GoList.elems l !! a).
  { destruct Hsame1 as (_ & _ & He & _). apply He. exact Ha1. }
  assert (Hb1 : bseg l1 (Elem a) L2).
  { eapply bseg_frame; [exact Hrp1| |exact Hb].
    intros b Hin. destruct Hsame1 as (_ & _ & He & _). apply He.
    intros Hin1. exact (Hdisj b Hin1 Hin). }
  destruct (set_prev_first l1 L2 (Elem a) (last_ptr Root L1) Hnd2 Hb1)
    as (l2 & Hstep2 & Hb2 & Hrn2 & Hsame2).
  assert (Ha_l2 : GoList.elems l2 !! a = GoList.elems l1 !! a).
  { destruct Hsame2 as (_ & _ & He & _). apply He. exact Ha2. }
  exists l2. split; [|split; [|split; [|split]]].
  - rewrite (bind_Some _ _ _ _ _ (get_prev_Elem _ _ _ Ha)).
    rewrite (bind_Some _ _ _ _ _ (get_next_Elem _ _ _ Ha)). simpl.
    rewrite (bind_Some _ _ _ _ _ Hstep1).
    rewrite Ha in Ha_l1.
    rewrite (bind_Some _ _ _ _ _ (get_next_Elem _ _ _ Ha_l1)).
    rewrite (bind_Some _ _ _ _ _ (get_prev_Elem _ _ _ Ha_l1)). simpl.
    rewrite (bind_Some _ _ _ _ _ Hstep2). reflexivity.
  - assert (Hf2 : fseg l2 L1 (hd_ptr L2 Root)).
    { eapply fseg_frame; [exact Hrn2| |exact Hf1].
      intros b Hin. destruct Hsame2 as (_ & _ & He & _). apply He.
      intros Hin2. exact (Hdisj b Hin Hin2). }
    destruct Hf2 as [Hr2 Hs2]. destruct Hb2 as [_ Hs2'].
    split; [rewrite hd_ptr_app; exact Hr2|].
    apply dseg_app. split; assumption.
  - destruct Hb2 as [Hr _]. rewrite last_ptr_app. exact Hr.
  - rewrite Ha_l2, Ha_l1. exact Ha.
  - eapply same_but_trans; [|exact Hsame1|exact Hsame2].
    intros b Hb'. rewrite fmap_app in Hb'. in_list.
Qed.

(** The pointer statements of [insert] and of [move] at the sentinel: [e]
    becomes the first element. *)
Lemma link_front l L a e {Y} (k : M (GoList.List T) Y) :
  NoDup L.*1 -> a ∉ L.*1 ->
  fseg l L Root -> GoList.root_prev l = last_ptr Root L ->
  GoList.elems l !! a = Some e ->
  ∃ l', (GoList.set_prev (Elem a) Root ;;
         n <- GoList.get_next Root ;; GoList.set_next (Elem a) n ;;
         p <- GoList.get_prev (Elem a) ;; GoList.set_next p (Elem a) ;;
         n <- GoList.get_next (Elem a) ;; GoList.set_prev n (Elem a) ;; k)%go l = k l' ∧
        GoList.root_next l' = Elem a ∧
        GoList.elems l' !! a =
          Some (GoList.mkElement (hd_ptr L Root) Root (GoList.inlist e) (GoList.Value e)) ∧
        bseg l' (Elem a) L ∧
        same_but l l' (a :: L.*1).
Proof.
  intros Hnd Ha [Hroot Hseg] Hprev Hlk.
  set (e1 := GoList.mkElement (GoList.next e) Root (GoList.inlist e) (GoList.Value e)).
  set (l1 := GoList.set_elems (insert a e1) l).
  set (e2 := GoList.mkElement (hd_ptr L Root) Root (GoList.inlist e) (GoList.Value e)).
  set (l2 := GoList.set_elems (insert a e2) l1).
  set (l3 := GoList.mkList (Elem a) (GoList.root_prev l2) (GoList.len l2)
                           (GoList.elems l2) (GoList.brk l2)).
  assert (Hlk1 : GoList.elems l1 !! a = Some e1) by apply lookup_insert_eq.
  assert (Hlk2 : GoList.elems l2 !! a = Some e2) by apply lookup_insert_eq.
  assert (Hb3 : bseg l3 Root L).
  { split; [exact Hprev|]. simpl. eapply dseg_frame; [|exact Hseg].
    intros b Hb. rewrite !lookup_insert_ne; [reflexivity| |]; intros ->; contradiction. }
  destruct (set_prev_first l3 L Root (Elem a) Hnd Hb3) as (l4 & Hstep4 & Hb4 & Hrn4 & Hsame4).
  exists l4. split; [|split; [|split; [|split]]].
  - rewrite (bind_Some _ _ _ _ _ (set_prev_Elem _ _ _ Root Hlk)). fold e1 l1.
    assert (Hn : GoList.get_next Root l1 = Some (hd_ptr L Root, l1)).
    { unfold GoList.get_next. simpl. now rewrite Hroot. }
    rewrite (bind_Some _ _ _ _ _ Hn).
    rewrite (bind_Some _ _ _ _ _ (set_next_Elem _ _ _ (hd_ptr L Root) Hlk1)). fold e2 l2.
    rewrite (bind_Some _ _ _ _ _ (get_prev_Elem _ _ _ Hlk2)). simpl.
    assert (Hs : GoList.set_next Root (Elem a) l2 = Some (tt, l3)) by reflexivity.
    rewrite (bind_Some _ _ _ _ _ Hs).
    assert (Hlk3 : GoList.elems l3 !! a = Some e2) by exact Hlk2.
    rewrite (bind_Some _ _ _ _ _ (get_next_Elem _ _ _ Hlk3)). simpl.
    rewrite (bind_Some _ _ _ _ _ Hstep4). reflexivity.
  - rewrite Hrn4. reflexivity.
  - destruct Hsame4 as (_ & _ & He & _). rewrite He by exact Ha. exact Hlk2.
  - exact Hb4.
  - eapply (same_but_trans l l3 l4 [a] L.*1).
    + intros b Hb. in_list.
    + eapply (same_but_trans l l1 l3 [a] [a]).
      * intros b Hb. auto.
      * apply (same_but_insert l a e e1); [exact Hlk|in_list].
      * apply (same_but_insert l1 a e1 e2 [a] Hlk1). in_list.
    + exact Hsame4.
Qed.

Lemma dseg_allocated m pp L qn a :
  dseg m pp L qn -> a ∈ L.*1 -> is_Some (m !! a).
Proof.
  revert pp. induction L as [|[b v] L IH]; intros pp Hseg Hin; simpl in *.
  - apply elem_of_nil in Hin. contradiction.
  - destruct Hseg as [Hb Hrest]. apply elem_of_cons in Hin as [->|Hin]; eauto.
Qed.

Lemma last_ptr_nonempty L pp pp' : L ≠ [] -> last_ptr pp L = last_ptr pp' L.
Proof. destruct L as [|[a v] L]; [congruence|reflexivity]. Qed.

Lemma is_list_len l L :
  is_list l L -> Z.of_nat (length L) <= max_int -> GoList.len l = Z.of_nat (length L).
Proof.
  intros (_ & _ & _ & Hlen & _) Hle. rewrite Hlen. apply wrap_small.
  unfold min_int, max_int in *. lia.
Qed.

(** *** The library's functions on a well-formed list *)

Lemma New_is_list : is_list (GoList.New (T:=T)) [].
Proof.
  repeat split; simpl; auto.
  - constructor.
  - intros a [e He]. simpl in He. rewrite lookup_empty in He. discriminate.
Qed.

Lemma Len_spec l : GoList.Len l = Some (GoList.len l, l).
Proof. reflexivity. Qed.

Lemma Back_spec l L :
  is_list l L -> Z.of_nat (length L) <= max_int ->
  GoList.Back l = Some (last_ptr Nil L, l).
Proof.
  intros Hl Hle. pose proof (is_list_len _ _ Hl Hle) as Hlen.
  destruct Hl as (_ & _ & Hprev & _ & _).
  unfold GoList.Back, bind, gets. rewrite Hlen.
  destruct L as [|x L].
  - reflexivity.
  - rewrite decide_False by (simpl; lia).
    unfold GoList.get_prev. rewrite Hprev.
    now rewrite (last_ptr_nonempty (x :: L) Root Nil).
Qed.

Lemma Init_spec l :
  allocated_below l ->
  ∃ l', GoList.Init l = Some (tt, l') ∧ is_list l' [] ∧
        GoList.elems l' = GoList.elems l.
Proof.
  intros Hb. eexists. split; [reflexivity|]. split; [|reflexivity].
  repeat split; simpl; auto. constructor.
Qed.

Lemma MoveToFront_spec l L1 a v L2 :
  is_list l (L1 ++ (a, v) :: L2) ->
  ∃ l', GoList.MoveToFront (Elem a) l = Some (tt, l') ∧
        is_list l' ((a, v) :: L1 ++ L2).
Proof.
  intros Hl.
  destruct (is_list_split _ _ _ _ _ Hl) as (Hf & Ha & Hb & Ha1 & Ha2 & Hnd1 & Hnd2 & Hdisj).
  pose proof Hl as (Hnd & [Hroot _] & Hprev & Hlen & Halloc).
  unfold GoList.MoveToFront.
  rewrite (bind_Some _ _ _ _ _ (get_inlist_Elem _ _ _ Ha)). simpl.
  assert (Hn : GoList.get_next Root l = Some (hd_ptr (L1 ++ (a, v) :: L2) Root, l)).
  { unfold GoList.get_next. now rewrite Hroot. }
  rewrite (bind_Some _ _ _ _ _ Hn).
  destruct L1 as [|[b w] L1].
  - simpl. rewrite bool_decide_true by reflexivity. eexists. split; [reflexivity|exact Hl].
  - simpl. rewrite bool_decide_false.
    2:{ intros [= ->]. apply Ha1. simpl. in_list. }
    unfold GoList.move. rewrite decide_False by discriminate.
    destruct (unlink l ((b, w) :: L1) a v L2
      (GoList.set_prev (Elem a) Root ;;
       n <- GoList.get_next Root ;; GoList.set_next (Elem a) n ;;
       p <- GoList.get_prev (Elem a) ;; GoList.set_next p (Elem a) ;;
       n <- GoList.get_next (Elem a) ;; GoList.set_prev n (Elem a) ;; ret tt)%go Hl)
      as (l1 & Hrun1 & Hf1 & Hp1 & Ha_1 & Hsame1).
    rewrite Hrun1.
    assert (Hnd' : NoDup (((b, w) :: L1) ++ L2).*1).
    { rewrite fmap_app. apply NoDup_app. repeat split; auto. }
    assert (Ha' : a ∉ (((b, w) :: L1) ++ L2).*1).
    { rewrite fmap_app. intros Hin. apply elem_of_app in Hin as [Hin|Hin]; auto. }
    destruct (link_front l1 _ a _ (ret tt) Hnd' Ha' Hf1 Hp1 Ha_1)
      as (l2 & Hrun2 & Hr2 & Ha_2 & Hb2 & Hsame2).
    rewrite Hrun2. exists l2. split; [reflexivity|].
    destruct Hb2 as [Hrp2 Hseg2].
    destruct Hsame1 as (Hlen1 & Hbrk1 & _ & Hdom1).
    destruct Hsame2 as (Hlen2 & Hbrk2 & _ & Hdom2).
    split; [|split; [|split; [|split]]].
    + rewrite fmap_cons. simpl. apply NoDup_cons. split; assumption.
    + split; [exact Hr2|]. split; [exact Ha_2|exact Hseg2].
    + exact Hrp2.
    + rewrite Hlen2, Hlen1, Hlen. f_equal. simpl. rewrite !length_app. simpl. lia.
    + intros c Hc. rewrite Hbrk2, Hbrk1. apply Halloc. apply Hdom1, Hdom2, Hc.
Qed.

Lemma wrap_length_pred (n : nat) : wrap (wrap (Z.of_nat (S n)) - 1) = wrap (Z.of_nat n).
Proof.
  replace (wrap (Z.of_nat (S n)) - 1) with (wrap (Z.of_nat (S n)) + -1) by lia.
  rewrite wrap_wrap_add. f_equal. lia.
Qed.

Lemma wrap_length_succ (n : nat) : wrap (wrap (Z.of_nat n) + 1) = wrap (Z.of_nat (S n)).
Proof. rewrite wrap_wrap_add. f_equal. lia. Qed.

Lemma remove_spec l L1 a v L2 :
  is_list l (L1 ++ (a, v) :: L2) ->
  ∃ l', GoList.remove (Elem a) l = Some (tt, l') ∧
        is_list l' (L1 ++ L2) ∧
        GoList.elems l' !! a = Some (GoList.mkElement Nil Nil false v).
Proof.
  intros Hl.
  destruct (is_list_split _ _ _ _ _ Hl) as (_ & _ & _ & Ha1 & Ha2 & Hnd1 & Hnd2 & Hdisj).
  pose proof Hl as (_ & _ & _ & Hlen & Halloc).
  unfold GoList.remove.
  destruct (unlink l L1 a v L2
    (GoList.set_next (Elem a) Nil ;;
     GoList.set_prev (Elem a) Nil ;;
     GoList.set_inlist (Elem a) false ;;
     n <- gets GoList.len ;; GoList.set_len (wrap (n - 1)))%go Hl)
    as (l1 & Hrun1 & Hf1 & Hp1 & Ha_1 & Hsame1).
  rewrite Hrun1. clear Hrun1.
  rewrite (bind_Some _ _ _ _ _ (set_next_Elem _ _ _ Nil Ha_1)). simpl.
  set (l2 := GoList.set_elems _ l1).
  assert (Ha_2 : GoList.elems l2 !! a = Some (GoList.mkElement Nil (last_ptr Root L1) true v))
    by apply lookup_insert_eq.
  rewrite (bind_Some _ _ _ _ _ (set_prev_Elem _ _ _ Nil Ha_2)). simpl.
  set (l3 := GoList.set_elems _ l2).
  assert (Ha_3 : GoList.elems l3 !! a = Some (GoList.mkElement Nil Nil true v))
    by apply lookup_insert_eq.
  rewrite (bind_Some _ _ _ _ _ (set_inlist_Elem _ _ _ false Ha_3)). simpl.
  set (l4 := GoList.set_elems _ l3).
  unfold bind, gets, GoList.set_len, modify. simpl.
  eexists. split; [reflexivity|].
  destruct Hsame1 as (Hlen1 & Hbrk1 & _ & Hdom1).
  assert (Hother : ∀ b, b ≠ a -> GoList.elems l4 !! b = GoList.elems l1 !! b).
  { intros b Hb. simpl. rewrite !lookup_insert_ne by auto. reflexivity. }
  assert (Hna : a ∉ (L1 ++ L2).*1).
  { rewrite fmap_app. intros Hin. apply elem_of_app in Hin as [Hin|Hin]; auto. }
  split; [|apply lookup_insert_eq].
  split; [|split; [|split; [|split]]].
  - rewrite fmap_app. apply NoDup_app. repeat split; auto.
  - destruct Hf1 as [Hr1 Hs1]. split; [exact Hr1|]. simpl.
    eapply dseg_frame; [|exact Hs1]. intros b Hb. apply Hother. intros ->. contradiction.
  - exact Hp1.
  - simpl. rewrite Hlen1, Hlen. rewrite !length_app. simpl.
    replace (length L1 + S (length L2))%nat with (S (length L1 + length L2)) by lia.
    apply wrap_length_pred.
  - intros b Hb. simpl. rewrite Hbrk1. apply Halloc, Hdom1.
    destruct (decide (b = a)) as [->|Hne]; [rewrite Ha_1; eauto|].
    rewrite <- Hother by exact Hne. exact Hb.
Qed.

Lemma Remove_spec l L1 a v L2 :
  is_list l (L1 ++ (a, v) :: L2) ->
  ∃ l', GoList.Remove (Elem a) l = Some (Some v, l') ∧
        is_list l' (L1 ++ L2) ∧
        GoList.elems l' !! a = Some (GoList.mkElement Nil Nil false v).
Proof.
  intros Hl.
  destruct (is_list_split _ _ _ _ _ Hl) as (_ & Ha & _).
  destruct (remove_spec _ _ _ _ _ Hl) as (l' & Hrun & Hl' & Ha').
  exists l'. split; [|split; assumption].
  unfold GoList.Remove.
  rewrite (bind_Some _ _ _ _ _ (get_inlist_Elem _ _ _ Ha)). simpl.
  rewrite (bind_Some _ _ _ _ _ Hrun).
  unfold GoList.read_Value. now rewrite Ha'.
Qed.

Lemma PushFront_spec l L v :
  is_list l L ->
  ∃ l', GoList.PushFront v l = Some (Elem (GoList.brk l), l') ∧
        is_list l' ((GoList.brk l, v) :: L) ∧
        GoList.brk l ∉ L.*1.
Proof.
  intros (Hnd & [Hroot Hseg] & Hprev & Hlen & Halloc).
  set (a := GoList.brk l).
  assert (Ha : a ∉ L.*1).
  { intros Hin. pose proof (Halloc a (dseg_allocated _ _ _ _ _ Hseg Hin)). lia. }
  assert (Hn : GoList.get_next Root l = Some (hd_ptr L Root, l)).
  { unfold GoList.get_next. now rewrite Hroot. }
  assert (Hlazy : GoList.lazyInit l = Some (tt, l)).
  { unfold GoList.lazyInit. rewrite (bind_Some _ _ _ _ _ Hn).
    rewrite decide_False by (apply hd_ptr_not_Nil; discriminate). reflexivity. }
  unfold GoList.PushFront. rewrite (bind_Some _ _ _ _ _ Hlazy).
  unfold GoList.insertValue.
  set (l0 := GoList.mkList (GoList.root_next l) (GoList.root_prev l) (GoList.len l)
               (<[a := GoList.mkElement Nil Nil false v]> (GoList.elems l))
               (Pos.succ a)).
  assert (Hal : GoList.alloc v l = Some (Elem a, l0)) by reflexivity.
  rewrite (bind_Some _ _ _ _ _ Hal). unfold GoList.insert.
  assert (Hf0 : fseg l0 L Root).
  { split; [exact Hroot|]. simpl. eapply dseg_frame; [|exact Hseg].
    intros b Hb. apply lookup_insert_ne. intros ->. contradiction. }
  assert (Ha0 : GoList.elems l0 !! a = Some (GoList.mkElement Nil Nil false v))
    by apply lookup_insert_eq.
  destruct (link_front l0 L a _
    (GoList.set_inlist (Elem a) true ;;
     n <- gets GoList.len ;; GoList.set_len (wrap (n + 1)) ;;
     ret (Elem a))%go Hnd Ha Hf0 Hprev Ha0)
    as (l1 & Hrun1 & Hr1 & Ha_1 & [Hrp1 Hs1] & Hsame1).
  rewrite Hrun1. clear Hrun1. simpl in Ha_1.
  rewrite (bind_Some _ _ _ _ _ (set_inlist_Elem _ _ _ true Ha_1)). simpl.
  unfold bind, gets, GoList.set_len, modify, ret. simpl.
  destruct Hsame1 as (Hlen1 & Hbrk1 & _ & Hdom1).
  eexists. split; [reflexivity|]. split; [|exact Ha].
  split; [|split; [|split; [|split]]].
  - rewrite fmap_cons. apply NoDup_cons. split; assumption.
  - split; [exact Hr1|]. simpl. split; [apply lookup_insert_eq|].
    eapply dseg_frame; [|exact Hs1].
    intros b Hb. apply lookup_insert_ne. intros ->. contradiction.
  - exact Hrp1.
  - simpl. rewrite Hlen1. simpl. rewrite Hlen. apply wrap_length_succ.
  - intros b Hb. simpl in *. rewrite Hbrk1. simpl.
    destruct (decide (b = a)) as [->|Hne]; [lia|].
    rewrite lookup_insert_ne in Hb by auto. apply Hdom1 in Hb. simpl in Hb.
    rewrite lookup_insert_ne in Hb by auto. apply Halloc in Hb. fold a in Hb. lia.
Qed.

(** Overwriting the value that an element of the list carries. *)
Lemma set_Value_spec l L1 a v v' L2 :
  is_list l (L1 ++ (a, v) :: L2) ->
  ∃ l', GoList.set_Value (Elem a) v' l = Some (tt, l') ∧
        is_list l' (L1 ++ (a, v') :: L2).
Proof.
  intros Hl.
  destruct (is_list_split _ _ _ _ _ Hl) as ([Hr1 Hs1] & Ha & [Hr2 Hs2] & Ha1 & Ha2 & _).
  pose proof Hl as (Hnd & _ & Hprev & Hlen & Halloc).
  rewrite (set_Value_Elem _ _ _ v' Ha). simpl.
  eexists. split; [reflexivity|].
  split; [|split; [|split; [|split]]].
  - rewrite fmap_app in *. exact Hnd.
  - split; simpl.
    + rewrite hd_ptr_app. exact Hr1.
    + apply dseg_app. split; [|split].
      * eapply dseg_frame; [|exact Hs1].
        intros b Hb. apply lookup_insert_ne. intros ->. contradiction.
      * apply lookup_insert_eq.
      * eapply dseg_frame; [|exact Hs2].
        intros b Hb. apply lookup_insert_ne. intros ->. contradiction.
  - simpl. rewrite last_ptr_app in *. exact Hprev.
  - simpl. rewrite Hlen. rewrite !length_app. reflexivity.
  - intros b Hb. simpl in *. apply Halloc.
    destruct (decide (b = a)) as [->|Hne]; [rewrite Ha; eauto|].
    rewrite lookup_insert_ne in Hb by auto. exact Hb.
Qed.

Lemma get_Value_spec l L a v :
  is_list l L -> (a, v) ∈ L -> GoList.get_Value (Elem a) l = Some (v, l).
Proof.
  intros Hl Hin. apply list_elem_of_split in Hin as (L1 & L2 & ->).
  destruct (is_list_split _ _ _ _ _ Hl) as (_ & Ha & _).
  apply (get_Value_Elem _ _ _ Ha).
Qed.

End list_facts.

(** ** The cache on well-formed states *)

Section cache_facts.
Context {A : Type} `{Countable A}.
Implicit Types (c : LRUCache A) (L : list (positive * pair A)) (E : list (pair A)).
Implicit Types (k v : any A) (kv : pair A).

Lemma on_links_Some {X} (m : M (GoList.List (pair A)) X) c x l' :
  m (links c) = Some (x, l') -> on_links m c = Some (x, set_links l' c).
Proof. intros E. unfold on_links, zoom. now rewrite E. Qed.

Lemma set_links_same c : set_links (links c) c = c.
Proof. destruct c; reflexivity. Qed.

Lemma on_links_read {X} (m : M (GoList.List (pair A)) X) c x :
  m (links c) = Some (x, links c) -> on_links m c = Some (x, c).
Proof. intros E. rewrite (on_links_Some _ _ _ _ E). now rewrite set_links_same. Qed.

(** *** Consequences of well-formedness *)

Lemma NoDup_fst_agree L a (x y : pair A) :
  NoDup L.*1 -> (a, x) ∈ L -> (a, y) ∈ L -> x = y.
Proof.
  induction L as [|[b z] L IH]; intros Hnd Hx Hy.
  - apply elem_of_nil in Hx. contradiction.
  - rewrite fmap_cons in Hnd. apply NoDup_cons in Hnd as [Hb Hnd].
    apply elem_of_cons in Hx as [Hx|Hx]; apply elem_of_cons in Hy as [Hy|Hy].
    + congruence.
    + exfalso. apply Hb. injection Hx as -> _.
      apply (list_elem_of_fmap_2 fst) in Hy. exact Hy.
    + exfalso. apply Hb. injection Hy as -> _.
      apply (list_elem_of_fmap_2 fst) in Hx. exact Hx.
    + auto.
Qed.

Lemma wf_key_unique c L a kv a' kv' :
  wf c L -> (a, kv) ∈ L -> (a', kv') ∈ L -> key kv = key kv' -> a = a' ∧ kv = kv'.
Proof.
  intros ((Hnd & _) & _ & Hback) Hin Hin' Hk.
  pose proof (Hback _ _ Hin) as E1. pose proof (Hback _ _ Hin') as E2.
  rewrite Hk in E1. rewrite E1 in E2. injection E2 as <-.
  split; [reflexivity|]. eapply NoDup_fst_agree; eauto.
Qed.

Lemma wf_lookup c L k p :
  wf c L -> cache c !! k = Some p ->
  ∃ L1 a v L2, p = Elem a ∧ L = L1 ++ (a, mkPair k v) :: L2.
Proof.
  intros (_ & Hfwd & _) Hk. destruct (Hfwd _ _ Hk) as (a & v & -> & Hin).
  apply list_elem_of_split in Hin as (L1 & L2 & ->). eauto 6.
Qed.

Lemma wf_hit c L a kv : wf c L -> (a, kv) ∈ L -> cache c !! key kv = Some (Elem a).
Proof. intros (_ & _ & Hback). apply Hback. Qed.

Lemma wf_miss c L k : wf c L -> (cache c !! k = None <-> k ∉ keys_of L.*2).
Proof.
  intros Hwf. split.
  - intros Hk Hin. unfold keys_of in Hin.
    apply list_elem_of_fmap in Hin as (kv & -> & Hin).
    apply list_elem_of_fmap in Hin as ([a kv'] & -> & Hin). simpl in Hk.
    rewrite (wf_hit _ _ _ _ Hwf Hin) in Hk. discriminate.
  - intros Hk. destruct (cache c !! k) as [p|] eqn:E; [|reflexivity].
    exfalso. apply Hk. destruct Hwf as (_ & Hfwd & _).
    destruct (Hfwd _ _ E) as (a & v & _ & Hin).
    unfold keys_of. apply list_elem_of_fmap. exists (mkPair k v). split; [reflexivity|].
    apply list_elem_of_fmap. exists (a, mkPair k v). split; [reflexivity|exact Hin].
Qed.

Lemma wf_split_notin c L1 a kv L2 :
  wf c (L1 ++ (a, kv) :: L2) ->
  ∀ a' kv', (a', kv') ∈ L1 ++ L2 -> key kv' ≠ key kv.
Proof.
  intros Hwf a' kv' Hin Hk.
  destruct (is_list_split _ _ _ _ _ (proj1 Hwf)) as (_ & _ & _ & Ha1 & Ha2 & _).
  assert (Hin' : (a', kv') ∈ L1 ++ (a, kv) :: L2).
  { apply elem_of_app in Hin as [Hin|Hin]; apply elem_of_app; [left|right]; auto.
    apply elem_of_cons. right. exact Hin. }
  assert (Hin0 : (a, kv) ∈ L1 ++ (a, kv) :: L2).
  { apply elem_of_app. right. apply elem_of_cons. left. reflexivity. }
  destruct (wf_key_unique _ _ _ _ _ _ Hwf Hin' Hin0 Hk) as [-> ->].
  apply elem_of_app in Hin as [Hin|Hin]; apply (list_elem_of_fmap_2 fst) in Hin; auto.
Qed.

(** The other entries, as a filter on the keys. *)
Lemma without_split c L1 a kv L2 :
  wf c (L1 ++ (a, kv) :: L2) ->
  without (key kv) (L1 ++ (a, kv) :: L2).*2 = (L1 ++ L2).*2.
Proof.
  intros Hwf. pose proof (wf_split_notin _ _ _ _ _ Hwf) as Hne.
  assert (Hid : ∀ L, (∀ a' kv', (a', kv') ∈ L -> key kv' ≠ key kv) ->
                     without (key kv) L.*2 = L.*2).
  { clear. induction L as [|[b x] L IH]; intros Hall; [reflexivity|].
    rewrite fmap_cons. unfold without in *. rewrite filter_cons_True.
    - f_equal. apply IH. intros a' kv' Hin. apply (Hall a'). apply elem_of_cons. auto.
    - simpl. apply (Hall b). apply elem_of_cons. auto. }
  rewrite !fmap_app, fmap_cons. unfold without. rewrite filter_app, filter_cons_False.
  2:{ simpl. intros Hc. apply Hc. reflexivity. }
  fold (without (key kv) L1.*2). fold (without (key kv) L2.*2).
  rewrite !Hid; [reflexivity| |].
  - intros a' kv' Hin. apply (Hne a'). apply elem_of_app. auto.
  - intros a' kv' Hin. apply (Hne a'). apply elem_of_app. auto.
Qed.

(** The cache that [New] builds. *)
Lemma New_wf bufCap cb : wf (mkLRUCache bufCap GoList.New ∅ cb [] : LRUCache A) [].
Proof.
  split; [apply New_is_list|]. simpl. split.
  - intros k p Hk. rewrite lookup_empty in Hk. discriminate.
  - intros a kv Hin. apply elem_of_nil in Hin. contradiction.
Qed.

(** *** The two helpers *)

Lemma purgeLRUItem_spec c L1 a kv L2 :
  wf c (L1 ++ (a, kv) :: L2) ->
  ∃ l', purgeLRUItem (Elem a) c =
          Some (tt, set_cache (delete (key kv)) (set_links l' c)) ∧
        wf (set_cache (delete (key kv)) (set_links l' c)) (L1 ++ L2) ∧
        GoList.get_Value (Elem a) l' = Some (kv, l').
Proof.
  intros Hwf. pose proof Hwf as (Hl & Hfwd & Hback).
  destruct (Remove_spec _ _ _ _ _ Hl) as (l' & Hrun & Hl' & Ha').
  exists l'. split; [|split].
  - unfold purgeLRUItem.
    mstep (on_links_Some _ _ _ _ Hrun).
    assert (Hv : on_links (GoList.get_Value (Elem a)) (set_links l' c)
                 = Some (kv, set_links l' c)).
    { apply on_links_read. simpl. apply (get_Value_Elem _ _ _ Ha'). }
    mstep Hv. reflexivity.
  - split; [exact Hl'|]. simpl. split.
    + intros k p Hk. apply lookup_delete_Some in Hk as [Hne Hk].
      destruct (Hfwd _ _ Hk) as (a' & v' & -> & Hin). exists a', v'. split; [reflexivity|].
      apply elem_of_app in Hin as [Hin|Hin]; apply elem_of_app; [left; exact Hin|].
      apply elem_of_cons in Hin as [Hin|Hin]; [|right; exact Hin].
      exfalso. apply Hne. injection Hin as _ <-. reflexivity.
    + intros a' kv' Hin. rewrite lookup_delete_ne.
      * apply Hback. apply elem_of_app in Hin as [Hin|Hin]; apply elem_of_app; [left|right]; auto.
        apply elem_of_cons. right. exact Hin.
      * intros Hk. exact (wf_split_notin _ _ _ _ _ Hwf _ _ Hin (eq_sym Hk)).
  - apply (get_Value_Elem _ _ _ Ha').
Qed.

Lemma tryEvict_spec c a kv :
  GoList.get_Value (Elem a) (links c) = Some (kv, links c) ->
  tryEvict (Elem a) c = Some (tt, if onItemEvicted c then invoke kv c else c).
Proof.
  intros Hv. unfold tryEvict. mgets.
  destruct (onItemEvicted c); [|reflexivity].
  mstep (on_links_read _ _ _ Hv). reflexivity.
Qed.

(** Purging then evicting an entry of the list, as [Put], [AdjustCapacity]
    and [Drop] do. *)
Lemma purge_evict_spec c L1 a kv L2 :
  wf c (L1 ++ (a, kv) :: L2) ->
  ∃ c', (purgeLRUItem (Elem a) ;; tryEvict (Elem a))%go c = Some (tt, c') ∧
        wf c' (L1 ++ L2) ∧
        capacity c' = capacity c ∧ onItemEvicted c' = onItemEvicted c ∧
        calls c' = calls c ++ evicted c kv ∧
        cache c' = delete (key kv) (cache c).
Proof.
  intros Hwf. destruct (purgeLRUItem_spec _ _ _ _ _ Hwf) as (l' & Hrun & Hwf' & Hv).
  mstep Hrun. rewrite (tryEvict_spec _ a kv) by exact Hv. simpl.
  unfold evicted. destruct (onItemEvicted c) eqn:Ecb.
  - eexists. split; [reflexivity|]. split; [exact Hwf'|]. repeat split. exact Ecb.
  - eexists. split; [reflexivity|]. split; [exact Hwf'|]. repeat split.
    + exact Ecb.
    + simpl. now rewrite app_nil_r.
Qed.

End cache_facts.

Section cache_ops.
Context {A : Type} `{Countable A}.
Implicit Types (c : LRUCache A) (L : list (positive * pair A)) (E : list (pair A)).
Implicit Types (k v : any A) (kv : pair A).

(** The key index only depends on which element stores which key. *)
Lemma wf_relink c L l' L' :
  wf c L -> is_list l' L' ->
  (∀ a k, (∃ v, (a, mkPair k v) ∈ L') <-> (∃ v, (a, mkPair k v) ∈ L)) ->
  wf (set_links l' c) L'.
Proof.
  intros (_ & Hfwd & Hback) Hl' Hsame. split; [exact Hl'|]. simpl. split.
  - intros k p Hk. destruct (Hfwd _ _ Hk) as (a & v & -> & Hin).
    destruct (proj2 (Hsame a k)) as [v' Hin']; [eauto|]. eauto.
  - intros a [k v] Hin. simpl.
    destruct (proj1 (Hsame a k)) as [v' Hin']; [eauto|].
    apply (Hback _ _ Hin').
Qed.

Lemma moved_same_keys L1 a kv v' L2 :
  ∀ b k, (∃ v, (b, mkPair k v) ∈ (a, mkPair (key kv) v') :: L1 ++ L2) <->
         (∃ v, (b, mkPair k v) ∈ L1 ++ (a, kv) :: L2).
Proof.
  intros b k. destruct kv as [k0 v0]. simpl. split; intros [v Hin].
  - apply elem_of_cons in Hin as [Hin|Hin].
    + injection Hin as -> -> _. exists v0. apply elem_of_app. right. apply elem_of_cons. auto.
    + exists v. apply elem_of_app in Hin as [Hin|Hin]; apply elem_of_app; [left|right]; auto.
      apply elem_of_cons. auto.
  - apply elem_of_app in Hin as [Hin|Hin].
    + exists v. apply elem_of_cons. right. apply elem_of_app. auto.
    + apply elem_of_cons in Hin as [Hin|Hin].
      * injection Hin as -> -> _. exists v'. apply elem_of_cons. auto.
      * exists v. apply elem_of_cons. right. apply elem_of_app. auto.
Qed.

(** *** [Get] *)

Lemma Get_hit c L1 a kv L2 :
  wf c (L1 ++ (a, kv) :: L2) ->
  ∃ l', Get (key kv) c = Some ((value kv, true), set_links l' c) ∧
        wf (set_links l' c) ((a, kv) :: L1 ++ L2).
Proof.
  intros Hwf. pose proof Hwf as (Hl & _).
  destruct (MoveToFront_spec _ _ _ _ _ Hl) as (l' & Hrun & Hl').
  exists l'. split.
  - unfold Get. mgets.
    rewrite (wf_hit _ _ a kv Hwf) by (apply elem_of_app; right; apply elem_of_cons; auto).
    mstep (on_links_Some _ _ _ _ Hrun).
    assert (Hv : on_links (GoList.get_Value (Elem a)) (set_links l' c)
                 = Some (kv, set_links l' c)).
    { apply on_links_read. simpl. apply (get_Value_spec _ _ _ _ Hl'). apply elem_of_cons. auto. }
    mstep Hv. reflexivity.
  - apply (wf_relink _ _ _ _ Hwf Hl').
    destruct kv as [k0 v0]. apply (moved_same_keys L1 a (mkPair k0 v0) v0 L2).
Qed.

Lemma Get_miss c k : cache c !! k = None -> Get k c = Some ((None, false), c).
Proof. intros Hk. unfold Get. mgets. now rewrite Hk. Qed.

(** *** [Put] *)

Lemma Put_hit c L1 a kv L2 v :
  wf c (L1 ++ (a, kv) :: L2) ->
  ∃ l', Put (key kv) v c = Some (false, set_links l' c) ∧
        wf (set_links l' c) ((a, mkPair (key kv) v) :: L1 ++ L2).
Proof.
  intros Hwf. pose proof Hwf as (Hl & _).
  destruct (MoveToFront_spec _ _ _ _ _ Hl) as (l1 & Hrun1 & Hl1).
  destruct (set_Value_spec l1 [] a kv (mkPair (key kv) v) (L1 ++ L2) Hl1) as (l2 & Hrun2 & Hl2).
  exists l2. split.
  - unfold Put. mgets.
    rewrite (wf_hit _ _ a kv Hwf) by (apply elem_of_app; right; apply elem_of_cons; auto).
    mstep (on_links_Some _ _ _ _ Hrun1).
    assert (Hv : on_links (GoList.get_Value (Elem a)) (set_links l1 c)
                 = Some (kv, set_links l1 c)).
    { apply on_links_read. simpl. apply (get_Value_spec _ _ _ _ Hl1). apply elem_of_cons. auto. }
    mstep Hv.
    assert (Hs : on_links (GoList.set_Value (Elem a) (mkPair (key kv) v)) (set_links l1 c)
                 = Some (tt, set_links l2 c)).
    { exact (on_links_Some _ (set_links l1 c) _ _ Hrun2). }
    mstep Hs. reflexivity.
  - apply (wf_relink _ _ _ _ Hwf Hl2). apply moved_same_keys.
Qed.

(** The first two statements of [Put] on a new key. *)
Lemma Put_push c L k v {Y} (K : M (LRUCache A) Y) :
  wf c L -> cache c !! k = None ->
  ∃ l', (e <- on_links (GoList.PushFront (mkPair k v)) ;;
         modify (set_cache <[k := e]>) ;; K)%go c
        = K (set_cache <[k := Elem (GoList.brk (links c))]> (set_links l' c)) ∧
        wf (set_cache <[k := Elem (GoList.brk (links c))]> (set_links l' c))
           ((GoList.brk (links c), mkPair k v) :: L).
Proof.
  intros (Hl & Hfwd & Hback) Hk.
  destruct (PushFront_spec _ _ (mkPair k v) Hl) as (l' & Hrun & Hl' & Hfresh).
  exists l'. split.
  - mstep (on_links_Some _ _ _ _ Hrun). mmodify. reflexivity.
  - split; [exact Hl'|]. simpl. split.
    + intros k' p Hk'. destruct (decide (k = k')) as [<-|Hne].
      * rewrite lookup_insert_eq in Hk'. injection Hk' as <-.
        eexists _, v. split; [reflexivity|]. apply elem_of_cons. auto.
      * rewrite lookup_insert_ne in Hk' by exact Hne.
        destruct (Hfwd _ _ Hk') as (a & v' & -> & Hin).
        exists a, v'. split; [reflexivity|]. apply elem_of_cons. auto.
    + intros a kv Hin. apply elem_of_cons in Hin as [Hin|Hin].
      * injection Hin as -> ->. simpl. apply lookup_insert_eq.
      * rewrite lookup_insert_ne; [apply (Hback _ _ Hin)|].
        intros ->. rewrite (Hback _ _ Hin) in Hk. discriminate.
Qed.

Lemma Put_miss_fits c L k v :
  wf c L -> cache c !! k = None ->
  wrap (Z.of_nat (S (length L))) <= capacity c ->
  ∃ c', Put k v c = Some (false, c') ∧
        wf c' ((GoList.brk (links c), mkPair k v) :: L) ∧
        capacity c' = capacity c ∧ onItemEvicted c' = onItemEvicted c ∧
        calls c' = calls c.
Proof.
  intros Hwf Hk Hfit. unfold Put. mgets. rewrite Hk.
  destruct (Put_push c L k v
    (n <- on_links GoList.Len ;;
     cap <- gets capacity ;;
     if decide (n > cap) then
       kv <- on_links GoList.Back ;;
       if decide (kv = Nil) then ret false
       else (purgeLRUItem kv ;; tryEvict kv ;; ret true)
     else ret false)%go Hwf Hk) as (l' & Hrun & Hwf').
  rewrite Hrun. clear Hrun.
  set (c1 := set_cache _ _) in *.
  assert (Hlen : on_links GoList.Len c1 = Some (wrap (Z.of_nat (S (length L))), c1)).
  { apply on_links_read. destruct Hwf' as ((_ & _ & _ & Hlen & _) & _).
    unfold GoList.Len. rewrite gets_eq. f_equal. f_equal. exact Hlen. }
  mstep Hlen. mgets. simpl. rewrite decide_False by lia.
  exists c1. split; [reflexivity|]. split; [exact Hwf'|]. repeat split.
Qed.

Lemma Put_miss_evicts c L k v :
  wf c L -> cache c !! k = None ->
  Z.of_nat (S (length L)) <= max_int ->
  Z.of_nat (S (length L)) > capacity c ->
  ∃ c' L' b x,
    (GoList.brk (links c), mkPair k v) :: L = L' ++ [(b, x)] ∧
    Put k v c = Some (true, c') ∧
    wf c' L' ∧
    capacity c' = capacity c ∧ onItemEvicted c' = onItemEvicted c ∧
    calls c' = calls c ++ evicted c x.
Proof.
  intros Hwf Hk Hint Hover. unfold Put. mgets. rewrite Hk.
  destruct (Put_push c L k v
    (n <- on_links GoList.Len ;;
     cap <- gets capacity ;;
     if decide (n > cap) then
       kv <- on_links GoList.Back ;;
       if decide (kv = Nil) then ret false
       else (purgeLRUItem kv ;; tryEvict kv ;; ret true)
     else ret false)%go Hwf Hk) as (l' & Hrun & Hwf').
  rewrite Hrun. clear Hrun.
  set (a0 := GoList.brk (links c)) in *.
  set (c1 := set_cache _ _) in *.
  assert (Hl1 : is_list (links c1) ((a0, mkPair k v) :: L)) by apply Hwf'.
  assert (Hlen : on_links GoList.Len c1 = Some (Z.of_nat (S (length L)), c1)).
  { apply on_links_read. unfold GoList.Len. rewrite gets_eq.
    rewrite (is_list_len _ _ Hl1) by exact Hint. reflexivity. }
  mstep Hlen. mgets. change (capacity c1) with (capacity c).
  rewrite decide_True by lia.
  destruct (exists_last (l:=(a0, mkPair k v) :: L)) as (L' & [b x] & Hsnoc); [discriminate|].
  assert (Hback : on_links GoList.Back c1 = Some (Elem b, c1)).
  { apply on_links_read. rewrite (Back_spec _ _ Hl1) by exact Hint.
    rewrite Hsnoc, last_ptr_app. reflexivity. }
  mstep Hback. rewrite decide_False by discriminate.
  assert (Hwf1 : wf c1 (L' ++ (b, x) :: [])) by (rewrite <- Hsnoc; exact Hwf').
  destruct (purge_evict_spec _ _ _ _ _ Hwf1) as (c' & Hrun & Hwf2 & Hcap & Hcb & Hcalls & _).
  rewrite app_nil_r in Hwf2.
  exists c', L', b, x. split; [exact Hsnoc|]. split.
  - unfold bind in *. destruct (purgeLRUItem (Elem b) c1) as [[[] c2]|]; [|discriminate].
    rewrite Hrun. reflexivity.
  - split; [exact Hwf2|]. repeat split; assumption.
Qed.

(** *** [Del], [Peek], [Has], [LeastRecentlyUsed] *)

Lemma Del_hit c L1 a kv L2 :
  wf c (L1 ++ (a, kv) :: L2) ->
  ∃ c', Del (key kv) c = Some (true, c') ∧
        wf c' (L1 ++ L2) ∧
        capacity c' = capacity c ∧ onItemEvicted c' = onItemEvicted c ∧
        calls c' = calls c ∧ cache c' = delete (key kv) (cache c).
Proof.
  intros Hwf. destruct (purgeLRUItem_spec _ _ _ _ _ Hwf) as (l' & Hrun & Hwf' & _).
  eexists. split.
  - unfold Del. mgets.
    rewrite (wf_hit _ _ a kv Hwf) by (apply elem_of_app; right; apply elem_of_cons; auto).
    mstep Hrun. reflexivity.
  - split; [exact Hwf'|]. repeat split.
Qed.

Lemma Del_miss c k : cache c !! k = None -> Del k c = Some (false, c).
Proof. intros Hk. unfold Del. mgets. now rewrite Hk. Qed.

Lemma Peek_hit c L a kv :
  wf c L -> (a, kv) ∈ L -> Peek (key kv) c = Some (value kv, c).
Proof.
  intros Hwf Hin. unfold Peek. mgets. rewrite (wf_hit _ _ _ _ Hwf Hin).
  mstep (on_links_read _ _ _ (get_Value_spec _ _ _ _ (proj1 Hwf) Hin)). reflexivity.
Qed.

Lemma Peek_miss c k : cache c !! k = None -> Peek k c = Some (None, c).
Proof. intros Hk. unfold Peek. mgets. now rewrite Hk. Qed.

Lemma Has_spec c k : Has k c = Some (bool_decide (is_Some (cache c !! k)), c).
Proof. reflexivity. Qed.

Lemma Has_false_absent c k : Has k c = Some (false, c) -> cache c !! k = None.
Proof.
  rewrite Has_spec. intros Heq. injection Heq as Hb.
  apply bool_decide_eq_false in Hb. destruct (cache c !! k); [|reflexivity].
  exfalso. apply Hb. eauto.
Qed.

Lemma absent_Has_false c k : cache c !! k = None -> Has k c = Some (false, c).
Proof. intros Hk. rewrite Has_spec, Hk. reflexivity. Qed.

Lemma LeastRecentlyUsed_empty c :
  wf c [] -> LeastRecentlyUsed c = Some ((None, None), c).
Proof.
  intros (Hl & _). unfold LeastRecentlyUsed.
  assert (Hb : on_links GoList.Back c = Some (Nil, c)).
  { apply on_links_read. rewrite (Back_spec _ _ Hl); [reflexivity|]. simpl. unfold max_int. lia. }
  mstep Hb. reflexivity.
Qed.

Lemma LeastRecentlyUsed_last c L a kv :
  wf c (L ++ [(a, kv)]) -> Z.of_nat (length (L ++ [(a, kv)])) <= max_int ->
  LeastRecentlyUsed c = Some ((key kv, value kv), c).
Proof.
  intros (Hl & _) Hint. unfold LeastRecentlyUsed.
  assert (Hb : on_links GoList.Back c = Some (Elem a, c)).
  { apply on_links_read. rewrite (Back_spec _ _ Hl) by exact Hint.
    rewrite last_ptr_app. reflexivity. }
  mstep Hb. rewrite decide_False by discriminate.
  assert (Hv : on_links (GoList.get_Value (Elem a)) c = Some (kv, c)).
  { apply on_links_read. apply (get_Value_spec _ _ _ _ Hl).
    apply elem_of_app. right. apply elem_of_cons. auto. }
  mstep Hv. reflexivity.
Qed.

End cache_ops.

Section cache_loops.
Context {A : Type} `{Countable A}.
Implicit Types (c : LRUCache A) (L : list (positive * pair A)) (E : list (pair A)).
Implicit Types (k v : any A) (kv : pair A).

(** *** [AdjustCapacity] *)

(** One round of the loop. *)
Lemma evict_back_empty c {Y} (K : M (LRUCache A) Y) :
  wf c [] ->
  (kv <- on_links GoList.Back ;;
   (if decide (kv = Nil) then ret tt else (purgeLRUItem kv ;; tryEvict kv)) ;; K)%go c = K c.
Proof.
  intros (Hl & _).
  assert (Hb : on_links GoList.Back c = Some (Nil, c)).
  { apply on_links_read. rewrite (Back_spec _ _ Hl); [reflexivity|]. simpl. unfold max_int. lia. }
  mstep Hb. reflexivity.
Qed.

Lemma evict_back_last c L a kv {Y} (K : M (LRUCache A) Y) :
  wf c (L ++ [(a, kv)]) -> Z.of_nat (length (L ++ [(a, kv)])) <= max_int ->
  ∃ c', (kv <- on_links GoList.Back ;;
         (if decide (kv = Nil) then ret tt else (purgeLRUItem kv ;; tryEvict kv)) ;; K)%go c
        = K c' ∧
        wf c' L ∧
        capacity c' = capacity c ∧ onItemEvicted c' = onItemEvicted c ∧
        calls c' = calls c ++ evicted c kv.
Proof.
  intros Hwf Hint. pose proof Hwf as (Hl & _).
  assert (Hb : on_links GoList.Back c = Some (Elem a, c)).
  { apply on_links_read. rewrite (Back_spec _ _ Hl) by exact Hint.
    rewrite last_ptr_app. reflexivity. }
  destruct (purge_evict_spec _ _ _ _ _ Hwf) as (c' & Hrun & Hwf' & Hcap & Hcb & Hcalls & _).
  rewrite app_nil_r in Hwf'.
  exists c'. split; [|split; [exact Hwf'|repeat split; assumption]].
  mstep Hb. rewrite decide_False by discriminate. mstep Hrun. reflexivity.
Qed.

Lemma AdjustCapacity_loop_spec n c L :
  wf c L -> Z.of_nat (length L) <= max_int ->
  ∃ c', AdjustCapacity_loop n c = Some (tt, c') ∧
        wf c' (take (length L - n) L) ∧
        capacity c' = capacity c ∧ onItemEvicted c' = onItemEvicted c ∧
        calls c' = calls c ++
          (if onItemEvicted c then reverse (drop (length L - n) L).*2 else []).
Proof.
  revert c L. induction n as [|n IH]; intros c L Hwf Hint.
  - exists c. split; [reflexivity|]. rewrite Nat.sub_0_r, take_ge, drop_ge by lia.
    split; [exact Hwf|]. repeat split. destruct (onItemEvicted c); now rewrite app_nil_r.
  - simpl AdjustCapacity_loop.
    destruct L as [|[a kv] L0 _] using rev_ind.
    + rewrite (evict_back_empty c _ Hwf).
      destruct (IH c [] Hwf Hint) as (c' & Hrun & Hwf' & Hrest).
      exists c'. split; [exact Hrun|]. split; [exact Hwf'|exact Hrest].
    + destruct (evict_back_last c L0 a kv (AdjustCapacity_loop n) Hwf Hint)
        as (c1 & Hrun1 & Hwf1 & Hcap1 & Hcb1 & Hcalls1).
      rewrite Hrun1. rewrite length_app in *. simpl length in *.
      destruct (IH c1 L0 Hwf1 ltac:(lia)) as (c' & Hrun & Hwf' & Hcap & Hcb & Hcalls).
      exists c'. split; [exact Hrun|].
      replace (length L0 + 1 - S n)%nat with (length L0 - n)%nat by lia.
      rewrite take_app_le, drop_app_le by lia.
      split; [exact Hwf'|]. split; [congruence|]. split; [congruence|].
      rewrite Hcalls, Hcalls1, Hcb1. unfold evicted.
      destruct (onItemEvicted c).
      * rewrite fmap_app, reverse_app. simpl. rewrite <- app_assoc. reflexivity.
      * rewrite !app_nil_r. reflexivity.
Qed.

Lemma AdjustCapacity_spec c L bufCap :
  wf c L -> Z.of_nat (length L) <= max_int ->
  0 <= bufCap <= max_int ->
  let n := Z.to_nat (Z.max (Z.of_nat (length L) - bufCap) 0) in
  ∃ c', AdjustCapacity bufCap c = Some (Z.max (Z.of_nat (length L) - bufCap) 0, c') ∧
        wf c' (take (length L - n) L) ∧
        capacity c' = bufCap ∧ onItemEvicted c' = onItemEvicted c ∧
        calls c' = calls c ++
          (if onItemEvicted c then reverse (drop (length L - n) L).*2 else []).
Proof.
  intros Hwf Hint Hcap n.
  destruct (AdjustCapacity_loop_spec n c L Hwf Hint) as (c' & Hrun & Hwf' & Hcap' & Hcb & Hcalls).
  exists (set_capacity bufCap c'). split; [|split; [exact Hwf'|repeat split; assumption]].
  unfold AdjustCapacity.
  assert (Hlen : on_links GoList.Len c = Some (Z.of_nat (length L), c)).
  { apply on_links_read. unfold GoList.Len. rewrite gets_eq.
    rewrite (is_list_len _ _ (proj1 Hwf) Hint). reflexivity. }
  mstep Hlen. cbv zeta.
  rewrite wrap_small by (unfold min_int, max_int in *; lia).
  assert (Hd : (if decide (Z.of_nat (length L) - bufCap < 0) then 0
                else Z.of_nat (length L) - bufCap)
               = Z.max (Z.of_nat (length L) - bufCap) 0).
  { destruct (decide _); lia. }
  rewrite Hd. fold n. mstep Hrun. mmodify. reflexivity.
Qed.

(** *** [Drop] *)

Lemma Drop_loop_no_callback order c :
  onItemEvicted c = false -> Drop_loop order c = Some (tt, c).
Proof.
  intros Hcb. induction order as [|k order IH]; [reflexivity|].
  simpl. mgets. destruct (cache c !! k).
  - unfold bind at 1. unfold bind at 1. rewrite gets_eq, Hcb. exact IH.
  - exact IH.
Qed.

Lemma Drop_loop_callback order c L :
  wf c L -> onItemEvicted c = true ->
  (∀ a kv, (a, kv) ∈ L -> key kv ∈ order) ->
  ∃ c' P, Drop_loop order c = Some (tt, c') ∧
          wf c' [] ∧ P ≡ₚ L.*2 ∧
          capacity c' = capacity c ∧ onItemEvicted c' = onItemEvicted c ∧
          calls c' = calls c ++ P.
Proof.
  revert c L. induction order as [|k order IH]; intros c L Hwf Hcb Hcover.
  - destruct L as [|[a kv] L].
    + exists c, []. split; [reflexivity|]. split; [exact Hwf|]. repeat split; auto.
      now rewrite app_nil_r.
    + exfalso. eapply elem_of_nil, (Hcover a kv). apply elem_of_cons. auto.
  - simpl. mgets. destruct (cache c !! k) as [p|] eqn:Hk.
    + destruct (wf_lookup _ _ _ _ Hwf Hk) as (L1 & a & v & L2 & -> & ->).
      destruct (purge_evict_spec _ _ _ _ _ Hwf)
        as (c1 & Hrun1 & Hwf1 & Hcap1 & Hcb1 & Hcalls1 & _).
      assert (Hstep : (cb <- gets onItemEvicted ;;
                       if cb then (purgeLRUItem (Elem a) ;; tryEvict (Elem a)) else ret tt)%go c
                      = Some (tt, c1)).
      { mgets. rewrite Hcb. exact Hrun1. }
      mstep Hstep.
      destruct (IH c1 (L1 ++ L2) Hwf1 ltac:(congruence))
        as (c' & P & Hrun & Hwf' & HP & Hcap & Hcb' & Hcalls).
      { intros a' kv' Hin.
        assert (Hin' : (a', kv') ∈ L1 ++ (a, mkPair k v) :: L2).
        { apply elem_of_app in Hin as [Hin|Hin]; apply elem_of_app; [left|right]; auto.
          apply elem_of_cons. auto. }
        pose proof (Hcover _ _ Hin') as Hord. apply elem_of_cons in Hord as [Hord|Hord]; [|exact Hord].
        exfalso. exact (wf_split_notin _ _ _ _ _ Hwf _ _ Hin Hord). }
      exists c', (mkPair k v :: P). split; [exact Hrun|]. split; [exact Hwf'|].
      split; [|split; [congruence|split; [congruence|]]].
      * rewrite fmap_app, fmap_cons. simpl. rewrite <- Permutation_middle.
        constructor. rewrite HP, fmap_app. reflexivity.
      * rewrite Hcalls, Hcalls1. unfold evicted. rewrite Hcb. rewrite <- app_assoc. reflexivity.
    + assert (Hstep : (ret tt : M (LRUCache A) unit) c = Some (tt, c)) by reflexivity.
      mstep Hstep. apply (IH c L Hwf Hcb).
      intros a kv Hin. pose proof (Hcover _ _ Hin) as Hord.
      apply elem_of_cons in Hord as [Hord|Hord]; [|exact Hord].
      rewrite <- Hord, (wf_hit _ _ _ _ Hwf Hin) in Hk. discriminate.
Qed.

Lemma wf_nil_cache c : wf c [] -> cache c = ∅.
Proof.
  intros (_ & Hfwd & _). apply map_eq. intros k. rewrite lookup_empty.
  destruct (cache c !! k) as [p|] eqn:Hk; [|reflexivity].
  destruct (Hfwd _ _ Hk) as (a & v & _ & Hin). apply elem_of_nil in Hin. contradiction.
Qed.

Lemma Drop_callback order c L :
  wf c L -> onItemEvicted c = true ->
  (∀ a kv, (a, kv) ∈ L -> key kv ∈ order) ->
  ∃ c' P, Drop order c = Some (tt, c') ∧
          wf c' [] ∧ P ≡ₚ L.*2 ∧
          capacity c' = capacity c ∧ onItemEvicted c' = onItemEvicted c ∧
          calls c' = calls c ++ P.
Proof.
  intros Hwf Hcb Hcover.
  destruct (Drop_loop_callback order c L Hwf Hcb Hcover)
    as (c1 & P & Hrun & Hwf1 & HP & Hcap & Hcb1 & Hcalls).
  destruct (Init_spec (links c1)) as (l' & Hinit & Hl' & _); [apply Hwf1|].
  exists (set_links l' c1), P. split.
  - unfold Drop. mstep Hrun. apply (on_links_Some _ _ _ _ Hinit).
  - split; [|repeat split; assumption].
    apply (wf_relink _ _ _ _ Hwf1 Hl'). tauto.
Qed.

(** *** [Keys] and [Size] on an empty cache *)

Lemma Keys_empty c : wf c [] -> Keys c = Some ([], c).
Proof.
  intros (Hl & _). unfold Keys.
  assert (Hlen : on_links GoList.Len c = Some (0, c)).
  { apply on_links_read. unfold GoList.Len. rewrite gets_eq.
    rewrite (is_list_len _ _ Hl); [reflexivity|]. simpl. unfold max_int. lia. }
  mstep Hlen. rewrite decide_False by lia. cbv zeta.
  assert (Hb : on_links GoList.Back c = Some (Nil, c)).
  { apply on_links_read. rewrite (Back_spec _ _ Hl); [reflexivity|]. simpl. unfold max_int. lia. }
  mstep Hb. reflexivity.
Qed.

Lemma Size_spec c L : wf c L -> Size c = Some (wrap (Z.of_nat (length L)), c).
Proof.
  intros ((_ & _ & _ & Hlen & _) & _). unfold Size.
  apply on_links_read. unfold GoList.Len. rewrite gets_eq, Hlen. reflexivity.
Qed.

End cache_loops.

(** *** [Keys] *)

Section keys.
Context {A : Type} `{Countable A}.
Implicit Types (c : LRUCache A) (L : list (positive * pair A)) (E : list (pair A)).
Implicit Types (k v : any A) (kv : pair A).

Lemma Prev_spec (l : GoList.List (pair A)) L1 a kv L2 :
  is_list l (L1 ++ (a, kv) :: L2) ->
  GoList.Prev (Elem a) l = Some (last_ptr Nil L1, l).
Proof.
  intros Hl. destruct (is_list_split _ _ _ _ _ Hl) as (_ & Ha & _).
  unfold GoList.Prev.
  rewrite (bind_Some _ _ _ _ _ (get_prev_Elem _ _ _ Ha)).
  rewrite (bind_Some _ _ _ _ _ (get_inlist_Elem _ _ _ Ha)). simpl.
  destruct L1 as [|x L1 _] using rev_ind.
  - reflexivity.
  - destruct x as [b w]. rewrite !last_ptr_app. reflexivity.
Qed.

(** The loop of [Keys], started at the last element of [L1] with the keys of
    [L2] already written. *)
Lemma Keys_loop_spec c L1 L2 fuel :
  wf c (L1 ++ L2) -> (length L1 <= fuel)%nat ->
  Keys_loop fuel (length L2) (last_ptr Nil L1)
            (reverse (keys_of L2.*2) ++ replicate (length L1) None) c
  = Some (reverse (keys_of (L1 ++ L2).*2), c).
Proof.
  revert L2 fuel. induction L1 as [|[a kv] L1 IH] using rev_ind; intros L2 fuel Hwf Hfuel.
  - simpl. rewrite app_nil_r. destruct fuel; reflexivity.
  - rewrite last_ptr_app. simpl last_ptr.
    rewrite length_app in Hfuel. simpl in Hfuel.
    destruct fuel as [|fuel]; [lia|].
    rewrite <- app_assoc in Hwf. simpl in Hwf.
    simpl Keys_loop.
    assert (Hv : on_links (GoList.get_Value (Elem a)) c = Some (kv, c)).
    { apply on_links_read. apply (get_Value_spec _ _ _ _ (proj1 Hwf)).
      apply elem_of_app. right. apply elem_of_cons. auto. }
    mstep Hv.
    assert (Hlen : length (reverse (keys_of L2.*2)) = length L2).
    { unfold keys_of. now rewrite length_reverse, !length_fmap. }
    rewrite decide_True.
    2:{ rewrite length_app, Hlen, length_replicate, length_app. simpl. lia. }
    mstep (on_links_read _ _ _ (Prev_spec _ _ _ _ _ (proj1 Hwf))).
    rewrite length_app. simpl length.
    replace (length L1 + 1)%nat with (S (length L1)) by lia.
    rewrite replicate_S.
    replace (length L2) with (length (reverse (keys_of L2.*2)) + 0)%nat at 2 by lia.
    rewrite insert_app_r. simpl.
    specialize (IH ((a, kv) :: L2) fuel Hwf ltac:(lia)).
    rewrite <- app_assoc. simpl.
    rewrite fmap_cons in IH. unfold keys_of in *. rewrite fmap_cons, reverse_cons in IH.
    rewrite <- app_assoc in IH. simpl in IH. exact IH.
Qed.

Lemma Keys_spec c L :
  wf c L -> Z.of_nat (length L) <= max_int ->
  Keys c = Some (reverse (keys_of L.*2), c).
Proof.
  intros Hwf Hint. unfold Keys.
  assert (Hlen : on_links GoList.Len c = Some (Z.of_nat (length L), c)).
  { apply on_links_read. unfold GoList.Len. rewrite gets_eq.
    rewrite (is_list_len _ _ (proj1 Hwf) Hint). reflexivity. }
  mstep Hlen. rewrite decide_False by lia. cbv zeta.
  mstep (on_links_read _ _ _ (Back_spec _ _ (proj1 Hwf) Hint)).
  rewrite length_replicate, Nat2Z.id.
  pose proof (Keys_loop_spec c L [] (length L)) as Hloop.
  rewrite app_nil_r in Hloop. apply Hloop; [exact Hwf|lia].
Qed.

(** What the public read operations show of a represented cache. *)
Lemma Repr_observed c E :
  Repr c E -> Z.of_nat (length E) <= max_int ->
  Size c = Some (Z.of_nat (length E), c) ∧
  Keys c = Some (reverse (keys_of E), c) ∧
  (∀ k, Has k c = Some (bool_decide (k ∈ keys_of E), c)) ∧
  (∀ kv, kv ∈ E -> Peek (key kv) c = Some (value kv, c)) ∧
  NoDup (keys_of E).
Proof.
  intros (L & Hwf & <-) Hint. rewrite length_fmap in Hint.
  split; [|split; [|split; [|split]]].
  - rewrite (Size_spec _ _ Hwf), length_fmap, wrap_small; [reflexivity|].
    unfold min_int, max_int in *. lia.
  - apply (Keys_spec _ _ Hwf Hint).
  - intros k. rewrite Has_spec. do 2 f_equal. apply bool_decide_ext.
    rewrite <- not_eq_None_Some. rewrite (wf_miss _ _ k Hwf).
    split; [apply dec_stable|auto].
  - intros kv Hin. apply list_elem_of_fmap in Hin as ([a kv'] & -> & Hin).
    apply (Peek_hit _ _ _ _ Hwf Hin).
  - unfold keys_of. rewrite <- list_fmap_compose.
    apply NoDup_fmap_2_strong; [|apply (NoDup_fmap_1 fst), Hwf].
    intros [a kv] [a' kv'] Hin Hin' Hk. simpl in Hk.
    destruct (wf_key_unique _ _ _ _ _ _ Hwf Hin Hin' Hk) as [-> ->]. reflexivity.
Qed.

End keys.

(** *** Every operation *)

Section cache_operations.
Context {A : Type} `{Countable A}.
Implicit Types (c : LRUCache A) (L : list (positive * pair A)) (E : list (pair A)).
Implicit Types (k v : any A) (kv : pair A).

Lemma Purge_is_Drop order : Purge (A:=A) order = Drop order.
Proof. reflexivity. Qed.

(** With a callback registered, [Drop] (and [Purge]) empties the cache and
    invokes the callback once per entry. *)
Lemma Drop_with_callback_clears c E order :
  Repr c E -> onItemEvicted c = true ->
  (∀ k, k ∈ keys_of E -> k ∈ order) ->
  ∃ c' P, Drop order c = Some (tt, c') ∧
          Repr c' [] ∧
          Size c' = Some (0, c') ∧ Keys c' = Some ([], c') ∧
          (∀ k, Has k c' = Some (false, c')) ∧
          P ≡ₚ E ∧ calls c' = calls c ++ P.
Proof.
  intros (L & Hwf & <-) Hcb Hcover.
  destruct (Drop_callback order c L Hwf Hcb) as (c' & P & Hrun & Hwf' & HP & _ & _ & Hcalls).
  { intros a kv Hin. apply Hcover. unfold keys_of.
    apply list_elem_of_fmap. exists kv. split; [reflexivity|].
    apply list_elem_of_fmap. exists (a, kv). split; [reflexivity|exact Hin]. }
  exists c', P. split; [exact Hrun|]. split; [exists []; split; [exact Hwf'|reflexivity]|].
  split; [apply (Size_spec _ _ Hwf')|]. split; [apply (Keys_empty _ Hwf')|].
  split; [|split; assumption].
  intros k. rewrite Has_spec, (wf_nil_cache _ Hwf'), lookup_empty.
  rewrite bool_decide_false; [reflexivity|]. intros [x Hx]. discriminate.
Qed.

Lemma bounded_intro c L :
  wf c L -> Z.of_nat (length L) < max_int -> capacity c < max_int -> bounded c.
Proof.
  intros Hwf Hlen Hcap. exists L.*2. split; [exists L; split; [exact Hwf|reflexivity]|].
  rewrite length_fmap. split; assumption.
Qed.

(** Every admissible call returns and keeps the cache well formed. *)
Lemma operation_preserves_bounded c (o : op) :
  bounded c -> admissible c o ->
  ∃ c', run_op o c = Some (tt, c') ∧ bounded c'.
Proof.
  intros (E & HR & Hint & Hcap) Hok. pose proof HR as (L & Hwf & HE).
  assert (HintL : Z.of_nat (length L) < max_int)
    by (rewrite <- HE, length_fmap in Hint; exact Hint).
  assert (Hsame : bounded c) by (apply (bounded_intro c L); assumption).
  destruct o as [k|k v|k|  |k|k|order|  |  |bufCap|  ]; simpl.
  - destruct (cache c !! k) as [p|] eqn:Hk.
    + destruct (wf_lookup _ _ _ _ Hwf Hk) as (L1 & a & v & L2 & _ & ->).
      destruct (Get_hit c L1 a (mkPair k v) L2 Hwf) as (l' & Hrun & Hwf').
      simpl in Hrun. mstep Hrun. eexists. split; [reflexivity|].
      apply (bounded_intro _ _ Hwf'); [|exact Hcap].
      rewrite length_app in HintL. simpl in *. rewrite length_app. lia.
    + mstep (Get_miss c k Hk). eauto.
  - destruct (cache c !! k) as [p|] eqn:Hk.
    + destruct (wf_lookup _ _ _ _ Hwf Hk) as (L1 & a & v0 & L2 & _ & ->).
      destruct (Put_hit c L1 a (mkPair k v0) L2 v Hwf) as (l' & Hrun & Hwf').
      simpl in Hrun. mstep Hrun. eexists. split; [reflexivity|].
      apply (bounded_intro _ _ Hwf'); [|exact Hcap].
      rewrite length_app in HintL. simpl in *. rewrite length_app. lia.
    + destruct (decide (wrap (Z.of_nat (S (length L))) <= capacity c)) as [Hfit|Hover].
      * destruct (Put_miss_fits c L k v Hwf Hk Hfit) as (c' & Hrun & Hwf' & Hcap' & _).
        mstep Hrun. eexists. split; [reflexivity|].
        rewrite wrap_small in Hfit by (unfold min_int, max_int in *; lia).
        apply (bounded_intro _ _ Hwf'); [simpl length; lia|lia].
      * rewrite wrap_small in Hover by (unfold min_int, max_int in *; lia).
        destruct (Put_miss_evicts c L k v Hwf Hk ltac:(lia) ltac:(lia))
          as (c' & L' & b & x & Hsnoc & Hrun & Hwf' & Hcap' & _).
        mstep Hrun. eexists. split; [reflexivity|].
        apply (f_equal length) in Hsnoc. rewrite length_app in Hsnoc. simpl in Hsnoc.
        apply (bounded_intro _ _ Hwf'); lia.
  - destruct (cache c !! k) as [p|] eqn:Hk.
    + destruct (wf_lookup _ _ _ _ Hwf Hk) as (L1 & a & v0 & L2 & _ & ->).
      destruct (Del_hit c L1 a (mkPair k v0) L2 Hwf) as (c' & Hrun & Hwf' & Hcap' & _).
      simpl in Hrun. mstep Hrun. eexists. split; [reflexivity|].
      rewrite length_app in HintL. simpl in HintL.
      apply (bounded_intro _ _ Hwf'); [rewrite length_app|]; lia.
    + mstep (Del_miss c k Hk). eauto.
  - mstep (Keys_spec c L Hwf ltac:(lia)). eauto.
  - destruct (cache c !! k) as [p|] eqn:Hk.
    + destruct (wf_lookup _ _ _ _ Hwf Hk) as (L1 & a & v0 & L2 & _ & HL).
      assert (Hin : (a, mkPair k v0) ∈ L) by (rewrite HL; in_list).
      mstep (Peek_hit c L a (mkPair k v0) Hwf Hin). eauto.
    + mstep (Peek_miss c k Hk). eauto.
  - mstep (Has_spec c k). eauto.
  - destruct Hok as [Hcb Hcover].
    destruct (Drop_callback order c L Hwf Hcb) as (c' & P & Hrun & Hwf' & _ & Hcap' & _).
    { intros a kv Hin. apply Hcover. rewrite (wf_hit _ _ _ _ Hwf Hin). eauto. }
    exists c'. split; [exact Hrun|].
    apply (bounded_intro _ _ Hwf'); [simpl; unfold max_int|]; lia.
  - mstep (Size_spec c L Hwf). eauto.
  - unfold Capacity. mgets. eauto.
  - assert (Hadj : ∃ n c' L', AdjustCapacity bufCap c = Some (n, c') ∧ wf c' L' ∧
                     (length L' <= length L)%nat ∧ capacity c' = bufCap).
    { unfold AdjustCapacity.
      assert (Hlen : on_links GoList.Len c = Some (Z.of_nat (length L), c)).
      { apply on_links_read. unfold GoList.Len. rewrite gets_eq.
        rewrite (is_list_len _ _ (proj1 Hwf)) by lia. reflexivity. }
      mstep Hlen. cbv zeta.
      match goal with |- context [AdjustCapacity_loop ?n] =>
        destruct (AdjustCapacity_loop_spec n c L Hwf ltac:(lia)) as (c' & Hrun & Hwf' & _)
      end.
      mstep Hrun. mmodify. eexists _, _, _. split; [reflexivity|].
      split; [exact Hwf'|]. split; [rewrite length_take; lia|reflexivity]. }
    destruct Hadj as (n & c' & L' & Hrun & Hwf' & Hle & Hcap'). mstep Hrun.
    eexists. split; [reflexivity|]. simpl in Hok.
    apply (bounded_intro _ _ Hwf'); lia.
  - destruct L as [|[a kv] L0 _] using rev_ind.
    + mstep (LeastRecentlyUsed_empty c Hwf). eauto.
    + mstep (LeastRecentlyUsed_last c L0 a kv Hwf ltac:(lia)). eauto.
Qed.

(** The ordering and the key index agree in every cache built by [New] and
    admissible calls, and every admissible call on it returns. *)
Lemma reachable_Repr c :
  reachable c ->
  (∃ E, Repr c E) ∧
  ∀ o, admissible c o -> ∃ c', run_op o c = Some (tt, c').
Proof.
  intros Hreach.
  assert (Hb : bounded c).
  { induction Hreach as [bufCap cb c Hnew Hlt|c o c' _ IH Hok Hrun].
    - unfold New in Hnew. destruct (decide (bufCap <= 0)); [discriminate|].
      injection Hnew as <-. apply (bounded_intro _ [] (New_wf bufCap cb)); [|exact Hlt].
      simpl. unfold max_int. lia.
    - destruct (operation_preserves_bounded c o IH Hok) as (c'' & Hrun' & Hb').
      rewrite Hrun in Hrun'. injection Hrun' as <-. exact Hb'. }
  split.
  - destruct Hb as (E & HR & _). eauto.
  - intros o Hok. destruct (operation_preserves_bounded c o Hb Hok) as (c' & Hrun & _). eauto.
Qed.

End cache_operations.

(** * The properties of the specification *)

Section claims.
Context {A : Type} `{Countable A}.
Implicit Types (c : LRUCache A) (L : list (positive * pair A)) (E : list (pair A)).
Implicit Types (k v : any A) (kv : pair A).

(** *** From the entries to the elements that store them *)

Lemma Repr_find c E k :
  Repr c E -> k ∈ keys_of E ->
  ∃ L1 a v L2, wf c (L1 ++ (a, mkPair k v) :: L2) ∧
               E = (L1 ++ (a, mkPair k v) :: L2).*2 ∧
               without k E = (L1 ++ L2).*2.
Proof.
  intros (L & Hwf & <-) Hin.
  destruct (cache c !! k) as [p|] eqn:Hk.
  - destruct (wf_lookup _ _ _ _ Hwf Hk) as (L1 & a & v & L2 & _ & ->).
    exists L1, a, v, L2. split; [exact Hwf|]. split; [reflexivity|].
    apply (without_split c L1 a (mkPair k v) L2 Hwf).
  - apply (wf_miss _ _ _ Hwf) in Hk. contradiction.
Qed.

Lemma Repr_absent c E k : Repr c E -> k ∉ keys_of E -> cache c !! k = None.
Proof. intros (L & Hwf & <-) Hk. apply (wf_miss _ _ _ Hwf). exact Hk. Qed.

Lemma Repr_Size c E : Repr c E -> Size c = Some (wrap (Z.of_nat (length E)), c).
Proof.
  intros (L & Hwf & <-). rewrite length_fmap. apply (Size_spec _ _ Hwf).
Qed.

(** *** The capacity invariant along a sequence of [Put] calls *)

Lemma without_absent E k : k ∉ keys_of E -> without k E = E.
Proof.
  induction E as [|kv E IH]; intros Hk; [reflexivity|].
  unfold without, keys_of in *. rewrite fmap_cons in Hk.
  rewrite filter_cons_True.
  - f_equal. apply IH. intros Hin. apply Hk, elem_of_cons. auto.
  - intros Heq. apply Hk, elem_of_cons. auto.
Qed.

Lemma puts_inv_within bufCap c : puts_inv bufCap c -> within_capacity c.
Proof.
  intros (L & Hwf & Hcap & Hle).
  exists (wrap (Z.of_nat (length L))), (capacity c).
  split; [apply (Size_spec _ _ Hwf)|]. split; [reflexivity|].
  destruct (decide (bufCap < max_int)) as [Hlt|Hge].
  - rewrite wrap_small; [rewrite Hcap; auto|]. unfold min_int, max_int in *. lia.
  - pose proof (wrap_range (Z.of_nat (length L))). lia.
Qed.

Lemma snoc_of_cons {X} (x y : X) (l l' : list X) :
  l ≠ [] -> x :: l = l' ++ [y] -> ∃ l0, l = l0 ++ [y] ∧ l' = x :: l0.
Proof.
  intros Hne Heq. destruct l' as [|x' l'].
  - simpl in Heq. injection Heq as _ ->. congruence.
  - simpl in Heq. injection Heq as <- ->. eauto.
Qed.

Lemma puts_inv_Put bufCap c k v :
  0 < bufCap -> puts_inv bufCap c ->
  ∃ ev c', Put k v c = Some (ev, c') ∧ puts_inv bufCap c' ∧
           (ev = true ->
            ∃ E x, Repr c (E ++ [x]) ∧ (k ∉ keys_of (E ++ [x])) ∧
                   Repr c' (mkPair k v :: E) ∧
                   calls c' = calls c ++ evicted c x) ∧
           (ev = false ->
            ∃ E, Repr c E ∧ Repr c' (mkPair k v :: without k E) ∧
                 calls c' = calls c).
Proof.
  intros Hpos (L & Hwf & Hcap & Hle).
  destruct (cache c !! k) as [p|] eqn:Hk.
  - destruct (wf_lookup _ _ _ _ Hwf Hk) as (L1 & a & v0 & L2 & _ & ->).
    destruct (Put_hit c L1 a (mkPair k v0) L2 v Hwf) as (l' & Hrun & Hwf').
    exists false, (set_links l' c). split; [exact Hrun|].
    split; [|split; [discriminate|]].
    + eexists. split; [exact Hwf'|]. split; [exact Hcap|].
      intros Hlt. specialize (Hle Hlt). rewrite length_app in Hle. simpl in *.
      rewrite length_app. lia.
    + intros _. eexists. split; [eexists; split; [exact Hwf|reflexivity]|].
      split; [|reflexivity].
      pose proof (without_split c L1 a (mkPair k v0) L2 Hwf) as Hwo.
      simpl in Hwo. rewrite Hwo.
      eexists. split; [exact Hwf'|reflexivity].
  - destruct (decide (wrap (Z.of_nat (S (length L))) <= capacity c)) as [Hfit|Hover].
    + destruct (Put_miss_fits c L k v Hwf Hk Hfit) as (c' & Hrun & Hwf' & Hcap' & _ & Hcalls).
      exists false, c'. split; [exact Hrun|].
      split; [|split; [discriminate|]].
      * eexists. split; [exact Hwf'|]. split; [congruence|].
        intros Hlt. specialize (Hle Hlt).
        rewrite wrap_small in Hfit by (unfold min_int, max_int in *; lia).
        simpl length. lia.
      * intros _. eexists. split; [eexists; split; [exact Hwf|reflexivity]|].
        split; [|exact Hcalls].
        rewrite without_absent by (apply (wf_miss _ _ _ Hwf); exact Hk).
        eexists. split; [exact Hwf'|reflexivity].
    + assert (Hlt : bufCap < max_int).
      { pose proof (wrap_range (Z.of_nat (S (length L)))). lia. }
      specialize (Hle Hlt).
      rewrite wrap_small in Hover by (unfold min_int, max_int in *; lia).
      destruct (Put_miss_evicts c L k v Hwf Hk ltac:(lia) ltac:(lia))
        as (c' & L' & b & x & Hsnoc & Hrun & Hwf' & Hcap' & Hcb' & Hcalls).
      assert (HL : L ≠ []) by (destruct L; [simpl in *; lia|discriminate]).
      destruct (snoc_of_cons _ _ _ _ HL Hsnoc) as (L0 & -> & ->).
      exists true, c'. split; [exact Hrun|]. split; [|split; [|discriminate]].
      * eexists. split; [exact Hwf'|]. split; [congruence|].
        intros _. rewrite length_app in Hle. simpl in *. lia.
      * intros _. exists L0.*2, x. split; [|split; [|split]].
        -- exists (L0 ++ [(b, x)]). split; [exact Hwf|]. now rewrite fmap_app.
        -- replace (L0.*2 ++ [x]) with ((L0 ++ [(b, x)]).*2) by now rewrite fmap_app.
           apply (wf_miss _ _ _ Hwf). exact Hk.
        -- exists ((GoList.brk (links c), mkPair k v) :: L0). split; [exact Hwf'|reflexivity].
        -- exact Hcalls.
Qed.

Lemma puts_inv_run bufCap kvs c :
  0 < bufCap -> puts_inv bufCap c ->
  ∃ c', run_puts kvs c = Some (tt, c') ∧ puts_inv bufCap c'.
Proof.
  intros Hpos. revert c. induction kvs as [|[k v] kvs IH]; intros c Hinv.
  - exists c. split; [reflexivity|exact Hinv].
  - destruct (puts_inv_Put bufCap c k v Hpos Hinv) as (ev & c1 & Hrun & Hinv1 & _).
    destruct (IH c1 Hinv1) as (c' & Hrun' & Hinv').
    exists c'. split; [|exact Hinv']. simpl. mstep Hrun. exact Hrun'.
Qed.

(** C1. After every [Put] of every sequence of [Put] calls on a cache that
    [New] made (so with a positive capacity), [Size() <= Capacity()].  A
    [Put] that reports an eviction was for a new key and removed exactly one
    entry, the tail, having put the new entry at the head; a [Put] that
    reports none removed nothing. *)
Theorem Put_keeps_size_within_capacity (bufCap : Z) (cb : bool) (c0 : LRUCache A)
    (kvs : list (any A * any A)) :
  New bufCap cb = inl c0 ->
  ∃ c, run_puts kvs c0 = Some (tt, c) ∧ within_capacity c ∧
       ∀ k v, ∃ ev c', Put k v c = Some (ev, c') ∧ within_capacity c' ∧
         (ev = true ->
          ∃ E x, Repr c (E ++ [x]) ∧ (k ∉ keys_of (E ++ [x])) ∧
                 Repr c' (mkPair k v :: E) ∧
                 calls c' = calls c ++ evicted c x) ∧
         (ev = false ->
          ∃ E, Repr c E ∧ Repr c' (mkPair k v :: without k E) ∧
               calls c' = calls c).
Proof.
  unfold New. intros Hnew. destruct (decide (bufCap <= 0)) as [|Hpos]; [discriminate|].
  injection Hnew as <-.
  assert (Hinv0 : puts_inv bufCap (mkLRUCache bufCap GoList.New ∅ cb [] : LRUCache A)).
  { exists []. split; [apply New_wf|]. split; [reflexivity|]. simpl. lia. }
  destruct (puts_inv_run bufCap kvs _ ltac:(lia) Hinv0) as (c & Hrun & Hinv).
  exists c. split; [exact Hrun|]. split; [exact (puts_inv_within _ _ Hinv)|].
  intros k v.
  destruct (puts_inv_Put bufCap c k v ltac:(lia) Hinv) as (ev & c' & Hput & Hinv' & Hev).
  exists ev, c'. split; [exact Hput|]. split; [exact (puts_inv_within _ _ Hinv')|exact Hev].
Qed.

(** C5. [Put] on a key that is already present overwrites the value, moves
    the entry to the head, returns [false], and changes neither the size,
    nor the capacity, nor the record of callback invocations. *)
Theorem Put_existing_key_updates_in_place c E k v :
  Repr c E -> k ∈ keys_of E ->
  ∃ c', Put k v c = Some (false, c') ∧
        Repr c' (mkPair k v :: without k E) ∧
        Peek k c' = Some (v, c') ∧
        result Size c' = result Size c ∧
        capacity c' = capacity c ∧
        calls c' = calls c.
Proof.
  intros HR Hin.
  destruct (Repr_find c E k HR Hin) as (L1 & a & v0 & L2 & Hwf & HE & Hwo).
  destruct (Put_hit c L1 a (mkPair k v0) L2 v Hwf) as (l' & Hrun & Hwf'). simpl in *.
  exists (set_links l' c). split; [exact Hrun|]. split; [|split; [|split; [|split]]].
  - exists ((a, mkPair k v) :: L1 ++ L2). split; [exact Hwf'|]. rewrite Hwo. reflexivity.
  - apply (Peek_hit _ _ a (mkPair k v) Hwf'). apply elem_of_cons. auto.
  - unfold result. rewrite (Size_spec _ _ Hwf'), (Size_spec _ _ Hwf). simpl.
    rewrite !length_app. simpl. do 3 f_equal. lia.
  - reflexivity.
  - reflexivity.
Qed.

(** C6, amended. For a new capacity that is not negative, [AdjustCapacity]
    evicts exactly [max (S - newCapacity) 0] entries, the least recently used
    ones, from the tail on, invoking the callback (when one is registered)
    once per removal; it sets the capacity and returns that count. *)
Theorem AdjustCapacity_nonnegative c E (newCapacity : Z) :
  Repr c E -> Z.of_nat (length E) <= max_int -> 0 <= newCapacity <= max_int ->
  let S := Z.of_nat (length E) in
  let n := Z.max (S - newCapacity) 0 in
  ∃ c', AdjustCapacity newCapacity c = Some (n, c') ∧
        Repr c' (take (length E - Z.to_nat n) E) ∧
        result Size c' = Some (S - n) ∧
        capacity c' = newCapacity ∧
        calls c' = calls c ++
          (if onItemEvicted c then reverse (drop (length E - Z.to_nat n) E) else []).
Proof.
  intros (L & Hwf & <-) Hint Hcap. cbv zeta. rewrite length_fmap in *.
  destruct (AdjustCapacity_spec c L newCapacity Hwf Hint Hcap)
    as (c' & Hrun & Hwf' & Hcap' & Hcb & Hcalls).
  exists c'. split; [exact Hrun|]. split; [|split; [|split]].
  - eexists. split; [exact Hwf'|]. now rewrite fmap_take.
  - unfold result. rewrite (Size_spec _ _ Hwf'). simpl. f_equal.
    rewrite length_take. rewrite wrap_small; unfold min_int, max_int in *; lia.
  - exact Hcap'.
  - rewrite Hcalls. now rewrite fmap_drop.
Qed.

(** C7. [Has] and [Peek] never change the cache: whatever the state, a
    sequence of such calls that returns leaves it exactly as it was (ordering,
    keys, values, size, capacity, record of callback invocations), and on a
    well-formed cache every such sequence returns; any later operation, an
    evicting [Put] included, therefore behaves as if the calls had not been
    made. *)
Theorem Has_Peek_change_nothing :
  (∀ c (ps : list (@probe A)) c', run_probes ps c = Some (tt, c') -> c' = c) ∧
  (∀ c E (ps : list (@probe A)), Repr c E ->
     run_probes ps c = Some (tt, c) ∧
     ∀ X (m : M (LRUCache A) X), (run_probes ps ;; m)%go c = m c).
Proof.
  assert (Hfix : ∀ (ps : list (@probe A)) c c', run_probes ps c = Some (tt, c') -> c' = c).
  { induction ps as [|[k|k] ps IH]; intros c c' Hrun.
    - injection Hrun as <-. reflexivity.
    - simpl in Hrun. rewrite (bind_Some _ _ _ _ _ (Has_spec c k)) in Hrun. auto.
    - simpl in Hrun. apply bind_inv in Hrun as (x & c1 & Hpeek & Hrun).
      apply IH in Hrun. subst c'.
      unfold Peek in Hpeek. rewrite (bind_Some _ _ _ _ _ (gets_eq _ _)) in Hpeek.
      destruct (cache c !! k) as [p|]; [|injection Hpeek as _ <-; reflexivity].
      apply bind_inv in Hpeek as (kv & c2 & Hv & Hret). injection Hret as _ <-.
      unfold on_links, zoom in Hv.
      destruct (GoList.get_Value p (links c)) as [[kv' l']|] eqn:Hg; [|discriminate].
      injection Hv as _ <-.
      assert (l' = links c) as ->.
      { unfold GoList.get_Value in Hg. destruct p as [| |a]; try discriminate.
        destruct (GoList.elems (links c) !! a); [|discriminate]. simpl in Hg. congruence. }
      apply set_links_same. }
  split; [intros c ps c'; apply Hfix|].
  intros c E ps (L & Hwf & _).
  assert (Hrun : run_probes ps c = Some (tt, c)).
  { induction ps as [|[k|k] ps IH]; [reflexivity| |].
    - simpl. rewrite (bind_Some _ _ _ _ _ (Has_spec c k)). exact IH.
    - simpl. destruct (cache c !! k) as [p|] eqn:Hk.
      + destruct (wf_lookup _ _ _ _ Hwf Hk) as (L1 & a & v & L2 & -> & HL).
        assert (Hin : (a, mkPair k v) ∈ L).
        { rewrite HL. apply elem_of_app. right. apply elem_of_cons. auto. }
        rewrite (bind_Some _ _ _ _ _ (Peek_hit c L a (mkPair k v) Hwf Hin)). exact IH.
      + rewrite (bind_Some _ _ _ _ _ (Peek_miss c k Hk)). exact IH. }
  split; [exact Hrun|]. intros X m. now rewrite (bind_Some _ _ _ _ _ Hrun).
Qed.

(** C8. [Del] on a present key returns [true], removes the key from the
    ordering and from the key index and does not invoke the callback; on an
    absent key it returns [false] and leaves the cache as it was (this half
    in every state, whenever [Has] reports the key absent). *)
Theorem Del_present_and_absent c k :
  (Has k c = Some (false, c) -> Del k c = Some (false, c)) ∧
  ∀ E, Repr c E ->
    (k ∈ keys_of E ->
     ∃ c', Del k c = Some (true, c') ∧
           Repr c' (without k E) ∧
           (k ∉ keys_of (without k E)) ∧
           Has k c' = Some (false, c') ∧
           calls c' = calls c ∧ capacity c' = capacity c) ∧
    (k ∉ keys_of E -> Del k c = Some (false, c)).
Proof.
  split.
  - intros Hhas. apply Del_miss. apply (Has_false_absent _ _ Hhas).
  - intros E HR. split.
    + intros Hin.
      destruct (Repr_find c E k HR Hin) as (L1 & a & v0 & L2 & Hwf & HE & Hwo).
      destruct (Del_hit c L1 a (mkPair k v0) L2 Hwf)
        as (c' & Hrun & Hwf' & Hcap & _ & Hcalls & Hcache).
      simpl in *. exists c'. split; [exact Hrun|].
      assert (Hnone : cache c' !! k = None) by (rewrite Hcache; apply lookup_delete_eq).
      split; [|split; [|split; [|split]]]; auto.
      * exists (L1 ++ L2). split; [exact Hwf'|]. now rewrite Hwo.
      * rewrite Hwo. apply (wf_miss _ _ _ Hwf'). exact Hnone.
      * apply absent_Has_false. exact Hnone.
    + intros Hk. apply Del_miss. apply (Repr_absent _ _ _ HR Hk).
Qed.

(** C9. [New] fails, with its error and no cache, exactly when the capacity
    is not positive; for a positive capacity it returns an empty cache of
    that capacity. *)
Theorem New_validates_capacity (bufCap : Z) (cb : bool) :
  (bufCap <= 0 <-> ∃ e, New (A:=A) bufCap cb = inr e) ∧
  (0 < bufCap ->
   ∃ c, New (A:=A) bufCap cb = inl c ∧ Repr c [] ∧
        Size c = Some (0, c) ∧ Capacity c = Some (bufCap, c) ∧
        onItemEvicted c = cb ∧ calls c = []).
Proof.
  unfold New. split; [split|].
  - intros Hle. rewrite decide_True by exact Hle. eauto.
  - intros [e He]. destruct (decide (bufCap <= 0)); [assumption|discriminate].
  - intros Hpos. rewrite decide_False by lia. eexists. split; [reflexivity|].
    split; [exists []; split; [apply New_wf|reflexivity]|]. repeat split.
Qed.

(** C10. [Peek] returns the bare value, with no flag: the stored value for
    a present key, nil for a key that [Has] reports absent, hence nil both
    for an absent key and for a present key stored with a nil value, the
    same result although [Has] tells them apart; likewise
    [LeastRecentlyUsed] returns the pair at the tail, and [(nil, nil)] both
    on an empty cache and on a cache whose tail is the pair [(nil, nil)]. *)
Theorem Peek_and_LeastRecentlyUsed_nil_ambiguity c k :
  (Has k c = Some (false, c) -> Peek k c = Some (None, c)) ∧
  ∀ E, Repr c E ->
    (k ∉ keys_of E -> Has k c = Some (false, c) ∧ Peek k c = Some (None, c)) ∧
    (∀ v, mkPair k v ∈ E -> Has k c = Some (true, c) ∧ Peek k c = Some (v, c)) ∧
    (mkPair k None ∈ E -> Has k c = Some (true, c) ∧ Peek k c = Some (None, c)) ∧
    (∀ c' E', Repr c' E' -> k ∉ keys_of E -> mkPair k None ∈ E' ->
       result (Peek k) c = result (Peek k) c' ∧
       result (Has k) c ≠ result (Has k) c') ∧
    (E = [] -> LeastRecentlyUsed c = Some ((None, None), c)) ∧
    (∀ x, Z.of_nat (length E) <= max_int -> last E = Some x ->
       LeastRecentlyUsed c = Some ((key x, value x), c)) ∧
    (Z.of_nat (length E) <= max_int -> last E = Some (mkPair None None) ->
     LeastRecentlyUsed c = Some ((None, None), c)).
Proof.
  split.
  - intros Hhas. apply Peek_miss. apply (Has_false_absent _ _ Hhas).
  - intros E HR.
    assert (Hmiss : k ∉ keys_of E -> Has k c = Some (false, c) ∧ Peek k c = Some (None, c)).
    { intros Hk. pose proof (Repr_absent _ _ _ HR Hk) as Hnone.
      split; [apply absent_Has_false|apply Peek_miss]; exact Hnone. }
    assert (Hhit : ∀ c0 E0 v, Repr c0 E0 -> mkPair k v ∈ E0 ->
                     Has k c0 = Some (true, c0) ∧ Peek k c0 = Some (v, c0)).
    { intros c0 E0 v (L & Hwf & <-) Hin.
      apply list_elem_of_fmap in Hin as ([a kv] & Hkv & Hin). simpl in Hkv. subst kv.
      split; [|apply (Peek_hit c0 L a (mkPair k v) Hwf Hin)].
      pose proof (wf_hit _ _ _ _ Hwf Hin) as Hk. simpl in Hk.
      rewrite Has_spec, Hk. reflexivity. }
    assert (Hlast : ∀ x, Z.of_nat (length E) <= max_int -> last E = Some x ->
                      LeastRecentlyUsed c = Some ((key x, value x), c)).
    { destruct HR as (L & Hwf & <-). intros x Hint Hlast. rewrite length_fmap in Hint.
      destruct L as [|[a kv] L0 _] using rev_ind; [discriminate|].
      rewrite fmap_app in Hlast. simpl in Hlast. rewrite last_snoc in Hlast.
      injection Hlast as ->.
      apply (LeastRecentlyUsed_last c L0 a x Hwf Hint). }
    split; [exact Hmiss|]. split; [intros v; apply (Hhit c E v HR)|].
    split; [apply (Hhit c E None HR)|]. split; [|split; [|split]].
    + intros c' E' HR' Hk Hin.
      destruct (Hmiss Hk) as [Hh Hp]. destruct (Hhit c' E' None HR' Hin) as [Hh' Hp'].
      unfold result. rewrite Hh, Hp, Hh', Hp'. simpl. split; [reflexivity|discriminate].
    + destruct HR as (L & Hwf & <-). intros HE. apply fmap_nil_inv in HE. subst L.
      apply (LeastRecentlyUsed_empty _ Hwf).
    + exact Hlast.
    + intros Hint Hl. apply (Hlast (mkPair None None) Hint Hl).
Qed.

End claims.

(** ** Scenarios *)

Lemma one_entry_Repr : Repr one_entry [mkPair (int 1) (int 1)].
Proof.
  destruct (Put_miss_fits (fresh_cache 3 true) [] (int 1) (int 1) (New_wf 3 true) eq_refl)
    as (c' & Hrun & Hwf & _); [by vm_compute|].
  unfold one_entry, state_after, after. rewrite Hrun. simpl.
  eexists. split; [exact Hwf|reflexivity].
Qed.

Lemma nil_entry_Repr : Repr nil_entry [mkPair None None].
Proof.
  destruct (Put_miss_fits (fresh_cache 3 true) [] None None (New_wf 3 true) eq_refl)
    as (c' & Hrun & Hwf & _); [by vm_compute|].
  unfold nil_entry, state_after, after. rewrite Hrun. simpl.
  eexists. split; [exact Hwf|reflexivity].
Qed.

(** C2. On a cache of capacity 3 with a callback, the calls
    [Put(1,1); Put(2,2); Get(1); Put(3,3); Get(1); Put(4,4); Get(1); Put(5,5)]
    invoke the callback exactly twice, for the keys 2 and 3, and leave
    [LeastRecentlyUsed()] returning the pair of value 4: each [Get(1)] moved
    key 1 to the head, so it was never the tail ([Keys] lists tail first). *)
Theorem recency_scenario_evicts_2_and_3 :
  ∃ c, New 3 true = inl (fresh_cache 3 true) ∧
       recency_scenario (fresh_cache 3 true) = Some (tt, c) ∧
       calls c = [mkPair (int 2) (int 2); mkPair (int 3) (int 3)] ∧
       length (calls c) = 2%nat ∧
       result LeastRecentlyUsed c = Some (int 4, int 4) ∧
       result Keys c = Some [int 4; int 1; int 5].
Proof.
  eexists. split; [reflexivity|]. split; [vm_compute; reflexivity|].
  repeat split; vm_compute; reflexivity.
Qed.

(** C3, at the failing input.  Without a callback [Drop] skips
    [purgeLRUItem]: after [New(3, nil); Put(1,1); Drop()] the list is empty
    ([Size() == 0], [Keys()] empty) but the key index still holds key 1, so
    [Has(1)] is true and [Peek(1)] returns 1. *)
Theorem Drop_without_callback_keeps_key_index :
  New 3 false = inl (fresh_cache 3 false) ∧
  (Put (int 1) (int 1) ;; Drop [int 1])%go (fresh_cache 3 false)
    = Some (tt, dropped_without_callback) ∧
  result Size dropped_without_callback = Some 0 ∧
  result Keys dropped_without_callback = Some [] ∧
  result (Has (int 1)) dropped_without_callback = Some true ∧
  result (Peek (int 1)) dropped_without_callback = Some (int 1).
Proof. repeat split; vm_compute; reflexivity. Qed.

(** C4, at the failing input.  After [New(3, nil); Put(1,1); Drop()] the
    ordered list holds no key while the key index holds one: the two sets
    differ, and the state represents no sequence of entries. *)
Theorem Drop_without_callback_breaks_consistency :
  (Put (int 1) (int 1) ;; Drop [int 1])%go (fresh_cache 3 false)
    = Some (tt, dropped_without_callback) ∧
  GoList.root_next (links dropped_without_callback) = Root ∧
  GoList.len (links dropped_without_callback) = 0 ∧
  cache dropped_without_callback !! int 1 = Some (Elem 1) ∧
  size (cache dropped_without_callback) = 1%nat ∧
  ¬ ∃ E, Repr dropped_without_callback E.
Proof.
  split; [vm_compute; reflexivity|]. split; [vm_compute; reflexivity|].
  split; [vm_compute; reflexivity|]. split; [vm_compute; reflexivity|].
  split; [vm_compute; reflexivity|].
  intros (E & L & Hwf & _).
  assert (Hk : cache dropped_without_callback !! int 1 = Some (Elem 1))
    by (vm_compute; reflexivity).
  destruct (wf_lookup _ _ _ _ Hwf Hk) as (L1 & a & v & L2 & _ & ->).
  destruct Hwf as ((_ & [Hroot _] & _) & _).
  assert (Hr : GoList.root_next (links dropped_without_callback) = Root)
    by (vm_compute; reflexivity).
  rewrite Hr, hd_ptr_app in Hroot. destruct L1 as [|[b w] L1]; discriminate.
Qed.

(** C6 fails for a negative capacity: on a cache of size 1,
    [AdjustCapacity(-1)] returns 2, which is [max (1 - -1) 0], but there is
    only one entry to evict: the size goes from 1 to 0 and the callback runs
    once.  So the number of evicted entries is not [max (S - newCapacity) 0],
    and the returned value is not the number of evicted entries. *)
Lemma AdjustCapacity_negative_counterexample :
  Repr one_entry [mkPair (int 1) (int 1)] ∧
  (∃ c', AdjustCapacity (-1) one_entry = Some (2, c') ∧
         result Size one_entry = Some 1 ∧
         result Size c' = Some 0 ∧
         calls c' = calls one_entry ++ [mkPair (int 1) (int 1)]) ∧
  ¬ (∃ S n c' S', result Size one_entry = Some S ∧
                  AdjustCapacity (-1) one_entry = Some (n, c') ∧
                  result Size c' = Some S' ∧
                  S - S' = Z.max (S - -1) 0) ∧
  ¬ (∃ S n c' S', result Size one_entry = Some S ∧
                  AdjustCapacity (-1) one_entry = Some (n, c') ∧
                  result Size c' = Some S' ∧
                  n = S - S').
Proof.
  split; [exact one_entry_Repr|]. split; [|split].
  - eexists. split; [vm_compute; reflexivity|].
    repeat split; vm_compute; reflexivity.
  - intros (S & n & c' & S' & HS & Hrun & HS' & Heq).
    vm_compute in HS. injection HS as <-.
    vm_compute in Hrun. injection Hrun as <- <-.
    vm_compute in HS'. injection HS' as <-. discriminate.
  - intros (S & n & c' & S' & HS & Hrun & HS' & Heq).
    vm_compute in HS. injection HS as <-.
    vm_compute in Hrun. injection Hrun as <- <-.
    vm_compute in HS'. injection HS' as <-. discriminate.
Qed.

(** The stale index entries still point into the reset list.  Deleting them
    rewires the sentinel, and the next eviction dereferences the sentinel's
    nil [Value]: the run panics. *)
Example Drop_without_callback_then_panic :
  (Put (int 1) (int 1) ;; Put (int 2) (int 2) ;; Drop [int 1; int 2] ;;
   Put (int 3) (int 3) ;; Put (int 4) (int 4) ;; Put (int 5) (int 5) ;;
   Del (int 2) ;; Del (int 1) ;; AdjustCapacity 0)%go (fresh_cache 5 false) = None.
Proof. vm_compute. reflexivity. Qed.

(** ** The theorems at concrete caches *)

Lemma Put_keeps_size_within_capacity_witness :
  New 3 true = inl (fresh_cache 3 true) ∧
  ∃ c, run_puts [(int 1, int 1); (int 2, int 2); (int 3, int 3); (int 4, int 4)]
                (fresh_cache 3 true) = Some (tt, c) ∧ within_capacity c.
Proof.
  split; [reflexivity|].
  destruct (Put_keeps_size_within_capacity 3 true (fresh_cache 3 true)
              [(int 1, int 1); (int 2, int 2); (int 3, int 3); (int 4, int 4)] eq_refl)
    as (c & Hrun & Hin & _).
  exists c. split; assumption.
Defined.

Lemma Put_existing_key_updates_in_place_witness :
  Repr one_entry [mkPair (int 1) (int 1)] ∧ int 1 ∈ keys_of [mkPair (int 1) (int 1)] ∧
  ∃ c', Put (int 1) (int 7) one_entry = Some (false, c') ∧
        Repr c' [mkPair (int 1) (int 7)].
Proof.
  assert (Hin : int 1 ∈ keys_of [mkPair (int 1) (int 1)]) by (apply elem_of_cons; auto).
  split; [exact one_entry_Repr|]. split; [exact Hin|].
  destruct (Put_existing_key_updates_in_place one_entry _ (int 1) (int 7) one_entry_Repr Hin)
    as (c' & Hrun & HR & _).
  exists c'. split; [exact Hrun|exact HR].
Defined.

Lemma AdjustCapacity_nonnegative_witness :
  Repr one_entry [mkPair (int 1) (int 1)] ∧ 0 <= 0 <= max_int ∧
  ∃ c', AdjustCapacity 0 one_entry = Some (1, c') ∧ Repr c' [] ∧
        calls c' = calls one_entry ++ [mkPair (int 1) (int 1)].
Proof.
  assert (Hcap : 0 <= 0 <= max_int) by (unfold max_int; lia).
  assert (Hint : Z.of_nat (length [mkPair (int 1) (int 1)]) <= max_int)
    by (simpl; unfold max_int; lia).
  split; [exact one_entry_Repr|]. split; [exact Hcap|].
  destruct (AdjustCapacity_nonnegative one_entry _ 0 one_entry_Repr Hint Hcap)
    as (c' & Hrun & HR & _ & _ & Hcalls).
  exists c'. split; [exact Hrun|]. split; [exact HR|exact Hcalls].
Defined.

Lemma Has_Peek_change_nothing_witness :
  Repr one_entry [mkPair (int 1) (int 1)] ∧
  run_probes [ProbeHas (int 1); ProbePeek (int 1); ProbePeek (int 2)] one_entry
    = Some (tt, one_entry).
Proof.
  split; [exact one_entry_Repr|].
  apply (proj2 Has_Peek_change_nothing one_entry _ _ one_entry_Repr).
Defined.

Lemma Del_present_and_absent_witness :
  Repr one_entry [mkPair (int 1) (int 1)] ∧
  (∃ c', Del (int 1) one_entry = Some (true, c') ∧ Repr c' []) ∧
  Del (int 2) one_entry = Some (false, one_entry).
Proof.
  split; [exact one_entry_Repr|].
  destruct (proj2 (Del_present_and_absent one_entry (int 1)) _ one_entry_Repr) as [Hp _].
  destruct (proj2 (Del_present_and_absent one_entry (int 2)) _ one_entry_Repr) as [_ Ha].
  split.
  - destruct Hp as (c' & Hrun & HR & _); [apply elem_of_cons; auto|].
    exists c'. split; [exact Hrun|]. exact HR.
  - apply Ha. intros Hin. apply elem_of_cons in Hin as [Hin|Hin]; [discriminate|].
    apply elem_of_nil in Hin. contradiction.
Defined.

Lemma New_validates_capacity_witness :
  0 < 3 ∧ ∃ c : LRUCache Z, New 3 true = inl c ∧ Repr c [].
Proof.
  split; [lia|].
  destruct (proj2 (New_validates_capacity (A:=Z) 3 true) ltac:(lia)) as (c & Hnew & HR & _).
  exists c. split; assumption.
Defined.

Lemma Peek_and_LeastRecentlyUsed_nil_ambiguity_witness :
  Repr nil_entry [mkPair None None] ∧
  (Has None nil_entry = Some (true, nil_entry) ∧
   Peek None nil_entry = Some (None, nil_entry)) ∧
  (Has (int 1) nil_entry = Some (false, nil_entry) ∧
   Peek (int 1) nil_entry = Some (None, nil_entry)) ∧
  LeastRecentlyUsed nil_entry = Some ((None, None), nil_entry) ∧
  Repr one_entry [mkPair (int 1) (int 1)] ∧
  Peek (int 1) one_entry = Some (int 1, one_entry) ∧
  LeastRecentlyUsed one_entry = Some ((int 1, int 1), one_entry).
Proof.
  split; [exact nil_entry_Repr|].
  destruct (proj2 (Peek_and_LeastRecentlyUsed_nil_ambiguity nil_entry None) _ nil_entry_Repr)
    as (_ & _ & Hnil & _ & _ & _ & Hlru).
  destruct (proj2 (Peek_and_LeastRecentlyUsed_nil_ambiguity nil_entry (int 1)) _ nil_entry_Repr)
    as (Habsent & _).
  destruct (proj2 (Peek_and_LeastRecentlyUsed_nil_ambiguity one_entry (int 1)) _ one_entry_Repr)
    as (_ & Hhit & _ & _ & _ & Hlast & _).
  split; [apply Hnil; apply elem_of_cons; auto|].
  split.
  - apply Habsent. intros Hin. apply elem_of_cons in Hin as [Hin|Hin]; [discriminate|].
    apply elem_of_nil in Hin. contradiction.
  - split; [apply Hlru; [simpl; unfold max_int; lia|reflexivity]|].
    split; [exact one_entry_Repr|]. split.
    + apply (Hhit (int 1)). apply elem_of_cons. auto.
    + apply (Hlast (mkPair (int 1) (int 1))); [simpl; unfold max_int; lia|reflexivity].
Defined.

(** * Further properties of the package *)

(** ** More on [Get] and [Put] *)

Section more_facts.
Context {A : Type} `{Countable A}.
Implicit Types (c : LRUCache A) (L : list (positive * pair A)) (E : list (pair A)).
Implicit Types (k v : any A) (kv : pair A).

(** [MoveToFront] on the first element returns at once. *)
Lemma MoveToFront_front (l : GoList.List (pair A)) a kv L :
  is_list l ((a, kv) :: L) -> GoList.MoveToFront (Elem a) l = Some (tt, l).
Proof.
  intros Hl. destruct (is_list_split l [] a kv L Hl) as (_ & Ha & _).
  destruct Hl as (_ & [Hroot _] & _). simpl in Hroot.
  unfold GoList.MoveToFront.
  rewrite (bind_Some _ _ _ _ _ (get_inlist_Elem _ _ _ Ha)). simpl.
  assert (Hn : GoList.get_next Root l = Some (Elem a, l)).
  { unfold GoList.get_next. now rewrite Hroot. }
  rewrite (bind_Some _ _ _ _ _ Hn).
  rewrite bool_decide_true by reflexivity. reflexivity.
Qed.

Lemma Get_front c a kv L :
  wf c ((a, kv) :: L) -> Get (key kv) c = Some ((value kv, true), c).
Proof.
  intros Hwf. unfold Get. mgets.
  rewrite (wf_hit _ _ a kv Hwf) by (apply elem_of_cons; auto).
  mstep (on_links_read _ _ _ (MoveToFront_front _ _ _ _ (proj1 Hwf))).
  assert (Hv : on_links (GoList.get_Value (Elem a)) c = Some (kv, c)).
  { apply on_links_read. apply (get_Value_spec _ _ _ _ (proj1 Hwf)). apply elem_of_cons. auto. }
  mstep Hv. reflexivity.
Qed.

(** [Get] on a present key, in terms of the entries. *)
Lemma Get_present c E k :
  Repr c E -> k ∈ keys_of E ->
  ∃ v c', Get k c = Some ((v, true), c') ∧
          Peek k c = Some (v, c) ∧
          Repr c' (mkPair k v :: without k E) ∧
          capacity c' = capacity c ∧ onItemEvicted c' = onItemEvicted c ∧
          calls c' = calls c ∧
          Get k c' = Some ((v, true), c').
Proof.
  intros HR Hin.
  destruct (Repr_find c E k HR Hin) as (L1 & a & v & L2 & Hwf & HE & Hwo).
  destruct (Get_hit c L1 a (mkPair k v) L2 Hwf) as (l' & Hrun & Hwf'). simpl in Hrun.
  exists v, (set_links l' c). split; [exact Hrun|]. split; [|split; [|repeat split]].
  - apply (Peek_hit c _ a (mkPair k v) Hwf). in_list.
  - exists ((a, mkPair k v) :: L1 ++ L2). split; [exact Hwf'|]. now rewrite Hwo.
  - apply (Get_front _ a (mkPair k v) _ Hwf').
Qed.

(** [Put] of a new key, in terms of the entries: the new entry goes to the
    head and, when the list then exceeds the capacity, the last entry goes. *)
Lemma Put_new_fits c E k v :
  Repr c E -> k ∉ keys_of E ->
  Z.of_nat (length E) < max_int -> Z.of_nat (length E) < capacity c ->
  ∃ c', Put k v c = Some (false, c') ∧ Repr c' (mkPair k v :: E) ∧
        capacity c' = capacity c ∧ onItemEvicted c' = onItemEvicted c ∧
        calls c' = calls c.
Proof.
  intros (L & Hwf & <-) Hk Hint Hfit. rewrite length_fmap in *.
  apply (wf_miss _ _ _ Hwf) in Hk.
  destruct (Put_miss_fits c L k v Hwf Hk) as (c' & Hrun & Hwf' & Hrest).
  { rewrite wrap_small by (unfold min_int, max_int in *; lia). lia. }
  exists c'. split; [exact Hrun|]. split; [|exact Hrest].
  eexists. split; [exact Hwf'|reflexivity].
Qed.

Lemma Put_new_evicts c E k v :
  Repr c E -> k ∉ keys_of E ->
  Z.of_nat (length E) < max_int -> capacity c <= Z.of_nat (length E) ->
  ∃ c' E' x, mkPair k v :: E = E' ++ [x] ∧
             Put k v c = Some (true, c') ∧ Repr c' E' ∧
             capacity c' = capacity c ∧ onItemEvicted c' = onItemEvicted c ∧
             calls c' = calls c ++ evicted c x.
Proof.
  intros (L & Hwf & <-) Hk Hint Hover. rewrite length_fmap in *.
  apply (wf_miss _ _ _ Hwf) in Hk.
  destruct (Put_miss_evicts c L k v Hwf Hk ltac:(lia) ltac:(lia))
    as (c' & L' & b & x & Hsnoc & Hrun & Hwf' & Hrest).
  exists c', L'.*2, x. split.
  - change (mkPair k v :: L.*2) with (((GoList.brk (links c), mkPair k v) :: L).*2).
    rewrite Hsnoc, fmap_app. reflexivity.
  - split; [exact Hrun|]. split; [|exact Hrest].
    eexists. split; [exact Hwf'|reflexivity].
Qed.

Lemma Put_present c E k v :
  Repr c E -> k ∈ keys_of E ->
  ∃ c', Put k v c = Some (false, c') ∧ Repr c' (mkPair k v :: without k E) ∧
        capacity c' = capacity c ∧ onItemEvicted c' = onItemEvicted c ∧
        calls c' = calls c.
Proof.
  intros HR Hin.
  destruct (Repr_find c E k HR Hin) as (L1 & a & v0 & L2 & Hwf & HE & Hwo).
  destruct (Put_hit c L1 a (mkPair k v0) L2 v Hwf) as (l' & Hrun & Hwf'). simpl in *.
  exists (set_links l' c). split; [exact Hrun|]. split; [|repeat split].
  exists ((a, mkPair k v) :: L1 ++ L2). split; [exact Hwf'|]. rewrite Hwo. reflexivity.
Qed.

(** With a positive capacity [Put] leaves its entry at the head. *)
Lemma Put_at_head c E k v :
  Repr c E -> 0 < capacity c -> Z.of_nat (length E) < max_int ->
  ∃ ev c' E', Put k v c = Some (ev, c') ∧ Repr c' (mkPair k v :: E') ∧
              capacity c' = capacity c.
Proof.
  intros HR Hpos Hint.
  destruct (decide (k ∈ keys_of E)) as [Hin|Hnin].
  - destruct (Put_present c E k v HR Hin) as (c' & Hrun & HR' & Hcap & _).
    eauto 7.
  - destruct (decide (Z.of_nat (length E) < capacity c)) as [Hfit|Hover].
    + destruct (Put_new_fits c E k v HR Hnin Hint Hfit) as (c' & Hrun & HR' & Hcap & _).
      eauto 7.
    + destruct (Put_new_evicts c E k v HR Hnin Hint ltac:(lia))
        as (c' & E' & x & Hsnoc & Hrun & HR' & Hcap & _).
      assert (HE : E ≠ []) by (destruct E; [simpl in *; lia|discriminate]).
      destruct (snoc_of_cons _ _ _ _ HE Hsnoc) as (E0 & -> & ->).
      eauto 7.
Qed.

End more_facts.

(** ** Frames: capacity, callback and its record *)

Section frames.
Context {A : Type} `{Countable A}.
Implicit Types (c : LRUCache A) (L : list (positive * pair A)) (E : list (pair A)).
Implicit Types (k v : any A) (kv : pair A).

(** *** Computations that only read *)

Lemma readonly_ret {S X} (x : X) : readonly (ret x : M S X).
Proof. intros s y s' Heq. injection Heq as _ <-. reflexivity. Qed.

Lemma readonly_panic {S X} : readonly (panic : M S X).
Proof. intros s y s' Heq. discriminate. Qed.

Lemma readonly_gets {S X} (f : S -> X) : readonly (gets f).
Proof. intros s y s' Heq. injection Heq as _ <-. reflexivity. Qed.

Lemma readonly_bind {S X Y} (m : M S X) (k : X -> M S Y) :
  readonly m -> (∀ x, readonly (k x)) -> readonly (bind m k).
Proof.
  intros Hm Hk s y s' Heq. apply bind_inv in Heq as (x & s1 & Hm1 & Hk1).
  apply Hm in Hm1. subst s1. exact (Hk _ _ _ _ Hk1).
Qed.

Lemma readonly_get_next {T} p : readonly (GoList.get_next (T:=T) p).
Proof.
  intros l x l' Heq. unfold GoList.get_next in Heq. destruct p as [| |a]; simplify_eq; auto.
  destruct (GoList.elems l !! a); simplify_eq/=; auto.
Qed.

Lemma readonly_get_prev {T} p : readonly (GoList.get_prev (T:=T) p).
Proof.
  intros l x l' Heq. unfold GoList.get_prev in Heq. destruct p as [| |a]; simplify_eq; auto.
  destruct (GoList.elems l !! a); simplify_eq/=; auto.
Qed.

Lemma readonly_get_inlist {T} p : readonly (GoList.get_inlist (T:=T) p).
Proof.
  intros l x l' Heq. unfold GoList.get_inlist in Heq. destruct p as [| |a]; simplify_eq; auto.
  destruct (GoList.elems l !! a); simplify_eq/=; auto.
Qed.

Lemma readonly_get_Value {T} p : readonly (GoList.get_Value (T:=T) p).
Proof.
  intros l x l' Heq. unfold GoList.get_Value in Heq. destruct p as [| |a]; simplify_eq; auto.
  destruct (GoList.elems l !! a); simplify_eq/=; auto.
Qed.

Lemma readonly_Len {T} : readonly (GoList.Len (T:=T)).
Proof. apply readonly_gets. Qed.

Lemma readonly_Back {T} : readonly (GoList.Back (T:=T)).
Proof.
  apply readonly_bind; [apply readonly_gets|]. intros n.
  destruct (decide (n = 0)); [apply readonly_ret|apply readonly_get_prev].
Qed.

Lemma readonly_Prev {T} p : readonly (GoList.Prev (T:=T) p).
Proof.
  apply readonly_bind; [apply readonly_get_prev|]. intros q.
  apply readonly_bind; [apply readonly_get_inlist|]. intros b.
  destruct (b && negb (bool_decide (q = Root))); apply readonly_ret.
Qed.

Lemma readonly_on_links {X} (m : M (GoList.List (pair A)) X) :
  readonly m -> readonly (on_links m).
Proof.
  intros Hm c x c' Heq. unfold on_links, zoom in Heq.
  destruct (m (links c)) as [[y l']|] eqn:Hrun; [|discriminate].
  injection Heq as _ <-. apply Hm in Hrun. subst l'. apply set_links_same.
Qed.

Lemma readonly_Keys_loop fuel i p (keys : list (any A)) :
  readonly (Keys_loop fuel i p keys).
Proof.
  revert i p keys. induction fuel as [|fuel IH]; intros i p keys; simpl.
  - destruct (decide (p = Nil)); [apply readonly_ret|apply readonly_panic].
  - destruct (decide (p = Nil)); [apply readonly_ret|].
    apply readonly_bind; [apply readonly_on_links, readonly_get_Value|]. intros kv.
    destruct (decide (i < length keys)%nat); [|apply readonly_panic].
    apply readonly_bind; [apply readonly_on_links, readonly_Prev|]. intros q. apply IH.
Qed.

Lemma readonly_Keys : readonly (Keys (A:=A)).
Proof.
  apply readonly_bind; [apply readonly_on_links, readonly_Len|]. intros n.
  destruct (decide (n < 0)); [apply readonly_panic|].
  apply readonly_bind; [apply readonly_on_links, readonly_Back|]. intros p.
  apply readonly_Keys_loop.
Qed.

Lemma readonly_Size : readonly (Size (A:=A)).
Proof. apply readonly_on_links, readonly_Len. Qed.

Lemma readonly_Capacity : readonly (Capacity (A:=A)).
Proof. apply readonly_gets. Qed.

Lemma readonly_LeastRecentlyUsed : readonly (LeastRecentlyUsed (A:=A)).
Proof.
  apply readonly_bind; [apply readonly_on_links, readonly_Back|]. intros p.
  destruct (decide (p = Nil)); [apply readonly_ret|].
  apply readonly_bind; [apply readonly_on_links, readonly_get_Value|]. intros kv.
  apply readonly_ret.
Qed.

Lemma readonly_Peek k : readonly (Peek k).
Proof.
  apply readonly_bind; [apply readonly_gets|]. intros [p|]; [|apply readonly_ret].
  apply readonly_bind; [apply readonly_on_links, readonly_get_Value|]. intros kv.
  apply readonly_ret.
Qed.

Lemma readonly_Has k : readonly (Has k).
Proof.
  apply readonly_bind; [apply readonly_gets|]. intros o. apply readonly_ret.
Qed.

(** *** The capacity, the callback and its record *)

Lemma frame_refl b1 b2 c : frame b1 b2 c c.
Proof.
  split; [reflexivity|]. split; [reflexivity|].
  exists []. rewrite app_nil_r. auto.
Qed.

Lemma frame_trans b1 b2 c1 c2 c3 :
  frame b1 b2 c1 c2 -> frame b1 b2 c2 c3 -> frame b1 b2 c1 c3.
Proof.
  intros (Hcb1 & Hcap1 & m1 & Hc1 & Hn1 & Hk1) (Hcb2 & Hcap2 & m2 & Hc2 & Hn2 & Hk2).
  split; [congruence|]. split; [intros Hb; rewrite Hcap2, Hcap1; auto|].
  exists (m1 ++ m2). split; [rewrite Hc2, Hc1, app_assoc; reflexivity|]. split.
  - intros Hcb. rewrite Hn1, Hn2; [reflexivity|congruence|exact Hcb].
  - intros Hb. rewrite Hk1, Hk2; auto.
Qed.

Lemma frame_weaken b1 b2 c c' : frame true true c c' -> frame b1 b2 c c'.
Proof.
  intros (Hcb & Hcap & m & Hc & Hn & Hk).
  split; [exact Hcb|]. split; [auto|]. exists m. auto.
Qed.

Lemma respects_weaken b1 b2 {X} (m : M (LRUCache A) X) :
  respects true true m -> respects b1 b2 m.
Proof. intros Hm c x c' Heq. apply frame_weaken. exact (Hm _ _ _ Heq). Qed.

Lemma respects_bind b1 b2 {X Y} (m : M (LRUCache A) X) (k : X -> M (LRUCache A) Y) :
  respects b1 b2 m -> (∀ x, respects b1 b2 (k x)) -> respects b1 b2 (bind m k).
Proof.
  intros Hm Hk c y c' Heq. apply bind_inv in Heq as (x & c1 & Hm1 & Hk1).
  eapply frame_trans; [exact (Hm _ _ _ Hm1)|exact (Hk _ _ _ _ Hk1)].
Qed.

Lemma respects_readonly b1 b2 {X} (m : M (LRUCache A) X) :
  readonly m -> respects b1 b2 m.
Proof. intros Hm c x c' Heq. apply Hm in Heq. subst c'. apply frame_refl. Qed.

Lemma respects_ret b1 b2 {X} (x : X) : respects b1 b2 (ret x : M (LRUCache A) X).
Proof. apply respects_readonly, readonly_ret. Qed.

Lemma respects_on_links b1 b2 {X} (m : M (GoList.List (pair A)) X) :
  respects b1 b2 (on_links m).
Proof.
  intros c x c' Heq. unfold on_links, zoom in Heq.
  destruct (m (links c)) as [[y l']|]; [|discriminate]. injection Heq as _ <-.
  apply frame_weaken. split; [reflexivity|]. split; [reflexivity|].
  exists []. simpl. rewrite app_nil_r. auto.
Qed.

Lemma respects_set_cache (b1 b2 : bool) (f : gmap (any A) ptr -> gmap (any A) ptr) :
  respects b1 b2 (modify (set_cache f)).
Proof.
  intros c x c' Heq. injection Heq as _ <-.
  split; [reflexivity|]. split; [reflexivity|].
  exists []. simpl. rewrite app_nil_r. auto.
Qed.

Lemma respects_purgeLRUItem (b1 b2 : bool) p : respects b1 b2 (purgeLRUItem (A:=A) p).
Proof.
  apply respects_bind; [apply respects_on_links|]. intros _.
  apply respects_bind; [apply respects_on_links|]. intros kv.
  apply respects_set_cache.
Qed.

Lemma respects_tryEvict p : respects true false (tryEvict (A:=A) p).
Proof.
  intros c x c' Heq. unfold tryEvict in Heq.
  rewrite (bind_Some _ _ _ _ _ (gets_eq _ _)) in Heq.
  destruct (onItemEvicted c) eqn:Hcb.
  - apply bind_inv in Heq as (kv & c1 & Hv & Hmod).
    apply (readonly_on_links _ (readonly_get_Value p)) in Hv. subst c1.
    injection Hmod as _ <-. split; [reflexivity|]. split; [reflexivity|].
    exists [kv]. simpl. split; [reflexivity|]. split; [congruence|discriminate].
  - injection Heq as _ <-. apply frame_refl.
Qed.

Lemma respects_tryEvict_any (b1 : bool) p : respects b1 false (tryEvict (A:=A) p).
Proof.
  intros c x c' Heq. destruct (respects_tryEvict p _ _ _ Heq) as (Hcb & Hcap & Hm).
  split; [exact Hcb|]. split; [auto|exact Hm].
Qed.

Lemma respects_Get k : respects true true (Get k).
Proof.
  apply respects_bind; [apply respects_readonly, readonly_gets|]. intros [p|].
  - apply respects_bind; [apply respects_on_links|]. intros _.
    apply respects_bind; [apply respects_on_links|]. intros kv. apply respects_ret.
  - apply respects_ret.
Qed.

Lemma respects_Del k : respects true true (Del k).
Proof.
  apply respects_bind; [apply respects_readonly, readonly_gets|]. intros [p|].
  - apply respects_bind; [apply respects_purgeLRUItem|]. intros _. apply respects_ret.
  - apply respects_ret.
Qed.

Lemma respects_Put k v : respects true false (Put k v).
Proof.
  apply respects_bind; [apply respects_readonly, readonly_gets|]. intros [p|].
  - apply respects_bind; [apply respects_on_links|]. intros _.
    apply respects_bind; [apply respects_on_links|]. intros kv.
    apply respects_bind; [apply respects_on_links|]. intros _. apply respects_ret.
  - apply respects_bind; [apply respects_on_links|]. intros e.
    apply respects_bind; [apply respects_set_cache|]. intros _.
    apply respects_bind; [apply respects_on_links|]. intros n.
    apply respects_bind; [apply respects_readonly, readonly_gets|]. intros cap.
    destruct (decide (n > cap)); [|apply respects_ret].
    apply respects_bind; [apply respects_on_links|]. intros q.
    destruct (decide (q = Nil)); [apply respects_ret|].
    apply respects_bind; [apply respects_purgeLRUItem|]. intros _.
    apply respects_bind; [apply respects_tryEvict|]. intros _. apply respects_ret.
Qed.

Lemma respects_Drop_loop order : respects true false (Drop_loop (A:=A) order).
Proof.
  induction order as [|k order IH]; simpl; [apply respects_ret|].
  apply respects_bind; [apply respects_readonly, readonly_gets|]. intros o.
  apply respects_bind; [|intros _; exact IH].
  destruct o as [p|]; [|apply respects_ret].
  apply respects_bind; [apply respects_readonly, readonly_gets|]. intros cb.
  destruct cb; [|apply respects_ret].
  apply respects_bind; [apply respects_purgeLRUItem|]. intros _. apply respects_tryEvict.
Qed.

Lemma respects_Drop order : respects true false (Drop (A:=A) order).
Proof.
  apply respects_bind; [apply respects_Drop_loop|]. intros _. apply respects_on_links.
Qed.

Lemma respects_AdjustCapacity_loop n : respects true false (AdjustCapacity_loop (A:=A) n).
Proof.
  induction n as [|n IH]; simpl; [apply respects_ret|].
  apply respects_bind; [apply respects_on_links|]. intros p.
  apply respects_bind; [|intros _; exact IH].
  destruct (decide (p = Nil)); [apply respects_ret|].
  apply respects_bind; [apply respects_purgeLRUItem|]. intros _. apply respects_tryEvict.
Qed.

Lemma respects_AdjustCapacity bufCap : respects false false (AdjustCapacity (A:=A) bufCap).
Proof.
  apply respects_bind; [apply respects_on_links|]. intros n. cbv zeta.
  apply respects_bind.
  { intros c x c' Heq. destruct (respects_AdjustCapacity_loop _ _ _ _ Heq) as (Hcb & _ & Hm).
    split; [exact Hcb|]. split; [discriminate|exact Hm]. }
  intros _. apply respects_bind; [|intros _; apply respects_ret].
  intros c x c' Heq. injection Heq as _ <-.
  split; [reflexivity|]. split; [discriminate|].
  exists []. simpl. rewrite app_nil_r. auto.
Qed.

End frames.

(** ** [AdjustCapacity] for any capacity, and runs of distinct [Put]s *)

Lemma wrap_over z : max_int < z <= max_int - min_int -> wrap z = z - 2 ^ 64.
Proof.
  unfold wrap, max_int, min_int. intros Hz.
  replace (z + 2 ^ 63) with ((z + 2 ^ 63 - 2 ^ 64) + 1 * 2 ^ 64) by lia.
  rewrite Z_mod_plus_full, Z.mod_small; lia.
Qed.

Lemma take_app_take {X} (n : nat) (l1 l2 : list X) :
  take n (l1 ++ take n l2) = take n (l1 ++ l2).
Proof. rewrite !take_app, take_take. f_equal. f_equal. lia. Qed.

Lemma drop_app_take {X} (n : nat) (l1 l2 : list X) :
  drop n (l1 ++ l2) = drop n (l1 ++ take n l2) ++ drop n l2.
Proof.
  rewrite !drop_app, <- app_assoc. f_equal.
  rewrite drop_take_drop by lia. reflexivity.
Qed.

Section more_loops.
Context {A : Type} `{Countable A}.
Implicit Types (c : LRUCache A) (L : list (positive * pair A)) (E : list (pair A)).
Implicit Types (k v : any A) (kv : pair A).

(** [AdjustCapacity] for any new capacity: the loop runs [diff] times, the
    wrapped difference or 0, and evicts while there is an entry. *)
Lemma AdjustCapacity_any c L bufCap :
  wf c L -> Z.of_nat (length L) <= max_int ->
  let diff := Z.max (wrap (Z.of_nat (length L) - bufCap)) 0 in
  let n := Z.to_nat diff in
  ∃ c', AdjustCapacity bufCap c = Some (diff, c') ∧
        wf c' (take (length L - n) L) ∧
        capacity c' = bufCap ∧ onItemEvicted c' = onItemEvicted c ∧
        calls c' = calls c ++
          (if onItemEvicted c then reverse (drop (length L - n) L).*2 else []).
Proof.
  intros Hwf Hint diff n.
  destruct (AdjustCapacity_loop_spec n c L Hwf Hint) as (c' & Hrun & Hwf' & Hcap' & Hcb & Hcalls).
  exists (set_capacity bufCap c'). split; [|split; [exact Hwf'|repeat split; assumption]].
  unfold AdjustCapacity.
  assert (Hlen : on_links GoList.Len c = Some (Z.of_nat (length L), c)).
  { apply on_links_read. unfold GoList.Len. rewrite gets_eq.
    rewrite (is_list_len _ _ (proj1 Hwf) Hint). reflexivity. }
  mstep Hlen. cbv zeta.
  assert (Hd : (if decide (wrap (Z.of_nat (length L) - bufCap) < 0) then 0
                else wrap (Z.of_nat (length L) - bufCap)) = diff).
  { subst diff. destruct (decide _); lia. }
  rewrite Hd. fold n. mstep Hrun. mmodify. reflexivity.
Qed.

(** [Put] of a new key into a cache that is not over its capacity [N]: the
    entries become the first [N] of the new entry followed by the old ones. *)
Lemma Put_new_take c E k v (N : nat) :
  Repr c E -> k ∉ keys_of E ->
  capacity c = Z.of_nat N -> Z.of_nat N < max_int -> (length E <= N)%nat ->
  ∃ ev c', Put k v c = Some (ev, c') ∧
           Repr c' (take N (mkPair k v :: E)) ∧
           capacity c' = capacity c ∧ onItemEvicted c' = onItemEvicted c ∧
           calls c' = calls c ++
             (if onItemEvicted c then reverse (drop N (mkPair k v :: E)) else []).
Proof.
  intros HR Hk Hcap Hint Hle.
  destruct (decide (length E < N)%nat) as [Hfit|Hfull].
  - destruct (Put_new_fits c E k v HR Hk ltac:(lia) ltac:(lia)) as (c' & Hrun & HR' & Hc & Hcb & Hcalls).
    exists false, c'. split; [exact Hrun|].
    rewrite take_ge, drop_ge by (simpl; lia).
    split; [exact HR'|]. repeat split; try assumption.
    rewrite Hcalls. destruct (onItemEvicted c); now rewrite app_nil_r.
  - destruct (Put_new_evicts c E k v HR Hk ltac:(lia) ltac:(lia))
      as (c' & E' & x & Hsnoc & Hrun & HR' & Hc & Hcb & Hcalls).
    exists true, c'. split; [exact Hrun|].
    assert (Hlen : length E' = N).
    { apply (f_equal length) in Hsnoc. rewrite length_app in Hsnoc. simpl in Hsnoc. lia. }
    rewrite Hsnoc, take_app_length', drop_app_length' by (symmetry; exact Hlen).
    split; [exact HR'|]. repeat split; try assumption.
Qed.

Lemma puts_distinct c E (kvs : list (any A * any A)) (N : nat) :
  Repr c E -> capacity c = Z.of_nat N -> Z.of_nat N < max_int -> (length E <= N)%nat ->
  NoDup kvs.*1 -> (∀ k, k ∈ kvs.*1 -> k ∉ keys_of E) ->
  ∃ c', run_puts kvs c = Some (tt, c') ∧
        Repr c' (take N (reverse (entry_of <$> kvs) ++ E)) ∧
        capacity c' = capacity c ∧ onItemEvicted c' = onItemEvicted c ∧
        calls c' = calls c ++
          (if onItemEvicted c
           then reverse (drop N (reverse (entry_of <$> kvs) ++ E)) else []).
Proof.
  revert c E. induction kvs as [|[k v] kvs IH]; intros c E HR Hcap Hint Hle Hnd Hnew.
  - exists c. split; [reflexivity|]. simpl.
    rewrite take_ge, drop_ge by lia. split; [exact HR|]. repeat split.
    destruct (onItemEvicted c); now rewrite app_nil_r.
  - rewrite fmap_cons in Hnd. simpl in Hnd. apply NoDup_cons in Hnd as [Hk Hnd].
    destruct (Put_new_take c E k v N HR) as (ev & c1 & Hrun1 & HR1 & Hc1 & Hcb1 & Hcalls1);
      try assumption.
    { apply Hnew. rewrite fmap_cons. apply elem_of_cons. auto. }
    destruct (IH c1 (take N (mkPair k v :: E)) HR1) as (c' & Hrun & HR' & Hc & Hcb & Hcalls);
      try assumption.
    { congruence. }
    { rewrite length_take. lia. }
    { intros k' Hk' Hin. unfold keys_of in Hin.
      apply list_elem_of_fmap in Hin as (kv & -> & Hin).
      apply subseteq_take in Hin. apply elem_of_cons in Hin as [->|Hin].
      - simpl in Hk. contradiction.
      - apply (Hnew (key kv)); [rewrite fmap_cons; apply elem_of_cons; auto|].
        unfold keys_of. apply list_elem_of_fmap. eauto. }
    exists c'. split; [simpl; mstep Hrun1; exact Hrun|].
    rewrite fmap_cons, reverse_cons, <- app_assoc. simpl.
    change (entry_of (k, v)) with (mkPair k v).
    rewrite take_app_take in HR'. split; [exact HR'|].
    split; [congruence|]. split; [congruence|].
    rewrite Hcalls, Hcalls1, Hcb1.
    destruct (onItemEvicted c); [|now rewrite !app_nil_r].
    rewrite <- app_assoc. f_equal.
    rewrite (drop_app_take N (reverse (entry_of <$> kvs)) (mkPair k v :: E)).
    rewrite reverse_app. reflexivity.
Qed.

End more_loops.

(** ** Entries at the head and at the tail *)

Section entry_facts.
Context {A : Type} `{Countable A}.
Implicit Types (c : LRUCache A) (L : list (positive * pair A)) (E : list (pair A)).
Implicit Types (k v : any A) (kv : pair A).

Lemma Repr_snoc c E x :
  Repr c (E ++ [x]) -> ∃ L0 a, wf c (L0 ++ [(a, x)]) ∧ L0.*2 = E.
Proof.
  intros (L & Hwf & HE). apply fmap_app_inv in HE as (L0 & L1 & HE0 & HE1 & ->).
  destruct L1 as [|[a y] [|z L1]]; try discriminate.
  simpl in HE1. injection HE1 as ->. eauto.
Qed.

Lemma Repr_head_Get c kv E :
  Repr c (kv :: E) -> Get (key kv) c = Some ((value kv, true), c).
Proof.
  intros (L & Hwf & HE). destruct L as [|[a kv'] L]; [discriminate|].
  simpl in HE. injection HE as -> _. apply (Get_front c a kv L Hwf).
Qed.

Lemma Repr_head_Peek c kv E :
  Repr c (kv :: E) -> Peek (key kv) c = Some (value kv, c) ∧ Has (key kv) c = Some (true, c).
Proof.
  intros (L & Hwf & HE). destruct L as [|[a kv'] L]; [discriminate|].
  simpl in HE. injection HE as -> _.
  assert (Hin : (a, kv) ∈ (a, kv) :: L) by (apply elem_of_cons; auto).
  split; [apply (Peek_hit _ _ _ _ Hwf Hin)|].
  rewrite Has_spec, (wf_hit _ _ _ _ Hwf Hin). reflexivity.
Qed.

Lemma Del_present c E k :
  Repr c E -> k ∈ keys_of E ->
  ∃ c', Del k c = Some (true, c') ∧ Repr c' (without k E) ∧
        capacity c' = capacity c ∧ onItemEvicted c' = onItemEvicted c ∧
        calls c' = calls c.
Proof.
  intros HR Hin.
  destruct (Repr_find c E k HR Hin) as (L1 & a & v0 & L2 & Hwf & HE & Hwo).
  destruct (Del_hit c L1 a (mkPair k v0) L2 Hwf) as (c' & Hrun & Hwf' & Hcap & Hcb & Hcalls & _).
  simpl in *. exists c'. split; [exact Hrun|]. split; [|repeat split; assumption].
  exists (L1 ++ L2). split; [exact Hwf'|]. now rewrite Hwo.
Qed.

End entry_facts.

(** ** [Drop] in the order of the map iteration *)

Section drop_order.
Context {A : Type} `{Countable A}.
Implicit Types (c : LRUCache A) (L : list (positive * pair A)) (E : list (pair A)).
Implicit Types (k v : any A) (kv : pair A).

Lemma Drop_loop_in_order c L P :
  wf c L -> onItemEvicted c = true -> P ≡ₚ L.*2 ->
  ∃ c', Drop_loop (keys_of P) c = Some (tt, c') ∧
        wf c' [] ∧
        capacity c' = capacity c ∧ onItemEvicted c' = onItemEvicted c ∧
        calls c' = calls c ++ P.
Proof.
  revert c L. induction P as [|x P IH]; intros c L Hwf Hcb HP.
  - apply Permutation_nil in HP. apply fmap_nil_inv in HP. subst L.
    exists c. split; [reflexivity|]. split; [exact Hwf|]. repeat split.
    now rewrite app_nil_r.
  - assert (Hin : x ∈ L.*2) by (rewrite <- HP; apply elem_of_cons; auto).
    apply list_elem_of_fmap in Hin as ([a x'] & Hx & Hin). simpl in Hx. subst x'.
    pose proof (wf_hit _ _ _ _ Hwf Hin) as Hk.
    apply list_elem_of_split in Hin as (L1 & L2 & ->).
    destruct (purge_evict_spec _ _ _ _ _ Hwf)
      as (c1 & Hrun1 & Hwf1 & Hcap1 & Hcb1 & Hcalls1 & _).
    assert (HP' : P ≡ₚ (L1 ++ L2).*2).
    { rewrite fmap_app, fmap_cons in HP. simpl in HP.
      rewrite <- Permutation_middle in HP. apply Permutation_cons_inv in HP.
      rewrite fmap_app. exact HP. }
    destruct (IH c1 (L1 ++ L2) Hwf1 ltac:(congruence) HP')
      as (c' & Hrun & Hwf' & Hcap & Hcb' & Hcalls).
    exists c'. split.
    + unfold keys_of. rewrite fmap_cons. simpl. mgets. rewrite Hk.
      assert (Hstep : (cb <- gets onItemEvicted ;;
                       if cb then (purgeLRUItem (Elem a) ;; tryEvict (Elem a)) else ret tt)%go c
                      = Some (tt, c1)).
      { mgets. rewrite Hcb. exact Hrun1. }
      mstep Hstep. exact Hrun.
    + split; [exact Hwf'|]. split; [congruence|]. split; [congruence|].
      rewrite Hcalls, Hcalls1. unfold evicted. rewrite Hcb, <- app_assoc. reflexivity.
Qed.

Lemma Drop_in_order c E P :
  Repr c E -> onItemEvicted c = true -> P ≡ₚ E ->
  ∃ c', Drop (keys_of P) c = Some (tt, c') ∧
        Repr c' [] ∧
        capacity c' = capacity c ∧ onItemEvicted c' = onItemEvicted c ∧
        calls c' = calls c ++ P.
Proof.
  intros (L & Hwf & <-) Hcb HP.
  destruct (Drop_loop_in_order c L P Hwf Hcb HP)
    as (c1 & Hrun & Hwf1 & Hcap & Hcb1 & Hcalls).
  destruct (Init_spec (links c1)) as (l' & Hinit & Hl' & _); [apply Hwf1|].
  exists (set_links l' c1). split.
  - unfold Drop. mstep Hrun. apply (on_links_Some _ _ _ _ Hinit).
  - split; [|repeat split; assumption].
    exists []. split; [|reflexivity]. apply (wf_relink _ _ _ _ Hwf1 Hl'). tauto.
Qed.

Lemma reachable_bounded c : reachable c -> bounded c.
Proof.
  intros Hreach. induction Hreach as [bufCap cb c Hnew Hlt|c o c' _ IH Hok Hrun].
  - unfold New in Hnew. destruct (decide (bufCap <= 0)); [discriminate|].
    injection Hnew as <-. apply (bounded_intro _ [] (New_wf bufCap cb)); [|exact Hlt].
    simpl. unfold max_int. lia.
  - destruct (operation_preserves_bounded c o IH Hok) as (c'' & Hrun' & Hb').
    rewrite Hrun in Hrun'. injection Hrun' as <-. exact Hb'.
Qed.

End drop_order.

(** ** The properties *)

Section further_properties.
Context {A : Type} `{Countable A}.
Implicit Types (c : LRUCache A) (L : list (positive * pair A)) (E : list (pair A)).
Implicit Types (k v : any A) (kv : pair A).

(** X1. [Get] on a key that [Has] reports absent returns [(nil, false)] and
    changes nothing, in every state; on a present key it returns the stored
    value (the one [Peek] shows) with [true], moves the entry to the head and
    keeps the other entries in their order, the size, the capacity and the
    record of callback invocations. *)
Theorem Get_hit_and_miss c k :
  (Has k c = Some (false, c) -> Get k c = Some ((None, false), c)) ∧
  ∀ E, Repr c E -> k ∈ keys_of E ->
    ∃ v c', Get k c = Some ((v, true), c') ∧
            Peek k c = Some (v, c) ∧
            Repr c' (mkPair k v :: without k E) ∧
            result Size c' = result Size c ∧
            capacity c' = capacity c ∧ calls c' = calls c.
Proof.
  split.
  - intros Hhas. apply Get_miss, (Has_false_absent _ _ Hhas).
  - intros E HR Hin.
    destruct (Repr_find c E k HR Hin) as (L1 & a & v & L2 & Hwf & HE & Hwo).
    destruct (Get_hit c L1 a (mkPair k v) L2 Hwf) as (l' & Hrun & Hwf'). simpl in Hrun.
    exists v, (set_links l' c). split; [exact Hrun|]. split; [|split; [|repeat split]].
    + apply (Peek_hit c _ a (mkPair k v) Hwf). in_list.
    + exists ((a, mkPair k v) :: L1 ++ L2). split; [exact Hwf'|]. now rewrite Hwo.
    + unfold result. rewrite (Size_spec _ _ Hwf'), (Size_spec _ _ Hwf). simpl.
      rewrite !length_app. simpl. do 3 f_equal. lia.
Qed.

(** X2. [Keys] lists the keys from the least to the most recently used, each
    once; their number is [Size()], they are the keys for which [Has] is
    true, the first is the key that [LeastRecentlyUsed] returns, and the
    call changes nothing. *)
Theorem Keys_least_recent_first c E :
  Repr c E -> Z.of_nat (length E) <= max_int ->
  Keys c = Some (reverse (keys_of E), c) ∧
  NoDup (reverse (keys_of E)) ∧
  Size c = Some (Z.of_nat (length (reverse (keys_of E))), c) ∧
  (∀ k, k ∈ reverse (keys_of E) <-> Has k c = Some (true, c)) ∧
  match reverse (keys_of E) with
  | [] => LeastRecentlyUsed c = Some ((None, None), c)
  | k :: _ => ∃ v, LeastRecentlyUsed c = Some ((k, v), c)
  end.
Proof.
  intros HR Hint.
  destruct (Repr_observed c E HR Hint) as (Hsize & Hkeys & Hhas & _ & Hnd).
  split; [exact Hkeys|]. split; [rewrite (reverse_Permutation (keys_of E)); exact Hnd|].
  split; [|split].
  - rewrite length_reverse. unfold keys_of. rewrite length_fmap. exact Hsize.
  - intros k. rewrite elem_of_reverse, Hhas. split.
    + intros Hin. rewrite bool_decide_true by exact Hin. reflexivity.
    + intros Heq. injection Heq as Hb. apply bool_decide_eq_true in Hb. exact Hb.
  - destruct E as [|x E0 _] using rev_ind.
    + simpl. destruct HR as (L & Hwf & HE). apply fmap_nil_inv in HE. subst L.
      apply (LeastRecentlyUsed_empty _ Hwf).
    + unfold keys_of. rewrite fmap_app, reverse_app. simpl.
      destruct (Repr_snoc c E0 x HR) as (L0 & a & Hwf & HE0).
      exists (value x). apply (LeastRecentlyUsed_last c L0 a x Hwf).
      rewrite length_app in *. simpl in *. rewrite <- HE0, length_fmap in Hint. exact Hint.
Qed.

(** X3. [Put] of a new key: while the size is below the capacity the entry
    is added at the head and [false] is returned; otherwise the entry is
    added at the head, the last entry of the resulting list is removed, the
    callback (if any) is invoked on it once, and [true] is returned. *)
Theorem Put_new_key c E k v :
  Repr c E -> k ∉ keys_of E -> Z.of_nat (length E) < max_int ->
  (Z.of_nat (length E) < capacity c ->
   ∃ c', Put k v c = Some (false, c') ∧ Repr c' (mkPair k v :: E) ∧
         capacity c' = capacity c ∧ calls c' = calls c) ∧
  (capacity c <= Z.of_nat (length E) ->
   ∃ c' E' x, mkPair k v :: E = E' ++ [x] ∧
              Put k v c = Some (true, c') ∧ Repr c' E' ∧
              capacity c' = capacity c ∧ calls c' = calls c ++ evicted c x).
Proof.
  intros HR Hk Hint. split.
  - intros Hfit.
    destruct (Put_new_fits c E k v HR Hk Hint Hfit) as (c' & Hrun & HR' & Hcap & _ & Hcalls).
    eauto 6.
  - intros Hover.
    destruct (Put_new_evicts c E k v HR Hk Hint Hover)
      as (c' & E' & x & Hsnoc & Hrun & HR' & Hcap & _ & Hcalls).
    eauto 9.
Qed.

(** X4. With a positive capacity, what [Put] stores can be read back: after
    [Put(k, v)], [Has(k)] is true, [Peek(k)] is [v] and [Get(k)] returns
    [(v, true)]; the entry is at the head, so this [Get] changes nothing. *)
Theorem Put_then_read c E k v :
  Repr c E -> 0 < capacity c -> Z.of_nat (length E) < max_int ->
  ∃ ev c', Put k v c = Some (ev, c') ∧
           Has k c' = Some (true, c') ∧
           Peek k c' = Some (v, c') ∧
           Get k c' = Some ((v, true), c').
Proof.
  intros HR Hpos Hint.
  destruct (Put_at_head c E k v HR Hpos Hint) as (ev & c' & E' & Hrun & HR' & _).
  exists ev, c'. split; [exact Hrun|].
  destruct (Repr_head_Peek c' (mkPair k v) E' HR') as [Hpeek Hhas].
  split; [exact Hhas|]. split; [exact Hpeek|].
  apply (Repr_head_Get c' (mkPair k v) E' HR').
Qed.

(** X5. With a capacity that is not positive (set by [AdjustCapacity]), [Put]
    of a new key into the empty cache evicts the entry it has just added: it
    returns [true], the callback is invoked on the new pair, and the key is
    not stored. *)
Theorem Put_without_capacity_evicts_itself c k v :
  Repr c [] -> capacity c <= 0 ->
  ∃ c', Put k v c = Some (true, c') ∧ Repr c' [] ∧
        Has k c' = Some (false, c') ∧
        calls c' = calls c ++ evicted c (mkPair k v).
Proof.
  intros HR Hcap.
  destruct (Put_new_evicts c [] k v HR) as (c' & E' & x & Hsnoc & Hrun & HR' & _ & _ & Hcalls).
  { intros Hin. apply elem_of_nil in Hin. exact Hin. }
  { simpl. unfold max_int. lia. }
  { simpl. lia. }
  destruct E' as [|y E']; [|destruct E'; discriminate].
  simpl in Hsnoc. injection Hsnoc as <-.
  exists c'. split; [exact Hrun|]. split; [exact HR'|]. split; [|exact Hcalls].
  apply absent_Has_false, (Repr_absent _ _ _ HR'). intros Hin. apply elem_of_nil in Hin. exact Hin.
Qed.

(** X6. Distinct new keys put into a cache that is within its capacity [N]:
    afterwards the cache holds the [N] most recent entries, newest first (the
    new ones, then the old ones), and the callback (if any) has been invoked
    on each of the others, oldest first. *)
Theorem distinct_puts_keep_the_newest c E (kvs : list (any A * any A)) (N : nat) :
  Repr c E -> capacity c = Z.of_nat N -> Z.of_nat N < max_int -> (length E <= N)%nat ->
  NoDup kvs.*1 -> (∀ k, k ∈ kvs.*1 -> k ∉ keys_of E) ->
  ∃ c', run_puts kvs c = Some (tt, c') ∧
        Repr c' (take N (reverse (entry_of <$> kvs) ++ E)) ∧
        result Size c' = Some (Z.of_nat (min N (length kvs + length E))) ∧
        capacity c' = capacity c ∧
        calls c' = calls c ++
          (if onItemEvicted c
           then reverse (drop N (reverse (entry_of <$> kvs) ++ E)) else []).
Proof.
  intros HR Hcap Hint Hle Hnd Hnew.
  destruct (puts_distinct c E kvs N HR Hcap Hint Hle Hnd Hnew)
    as (c' & Hrun & HR' & Hc & _ & Hcalls).
  exists c'. split; [exact Hrun|]. split; [exact HR'|]. split; [|split; assumption].
  unfold result. rewrite (Repr_Size _ _ HR'). simpl. f_equal.
  rewrite length_take, length_app, length_reverse, length_fmap.
  apply wrap_small. unfold min_int, max_int in *. lia.
Qed.

(** X7. On a cache that is at (or over) its capacity, the pair that
    [LeastRecentlyUsed] returns is the one that the next [Put] of a new key
    evicts. *)
Theorem LeastRecentlyUsed_is_evicted_next c E x k v :
  Repr c (E ++ [x]) -> Z.of_nat (length (E ++ [x])) < max_int ->
  capacity c <= Z.of_nat (length (E ++ [x])) ->
  k ∉ keys_of (E ++ [x]) ->
  LeastRecentlyUsed c = Some ((key x, value x), c) ∧
  ∃ c', Put k v c = Some (true, c') ∧
        Repr c' (mkPair k v :: E) ∧
        Has (key x) c' = Some (false, c') ∧
        calls c' = calls c ++ evicted c x.
Proof.
  intros HR Hint Hcap Hk. split.
  - destruct (Repr_snoc c E x HR) as (L0 & a & Hwf & HE0).
    apply (LeastRecentlyUsed_last c L0 a x Hwf).
    rewrite !length_app in *. simpl in *. rewrite <- HE0, length_fmap in Hint. lia.
  - destruct (Put_new_evicts c (E ++ [x]) k v HR Hk Hint Hcap)
      as (c' & E' & y & Hsnoc & Hrun & HR' & _ & _ & Hcalls).
    change (mkPair k v :: E ++ [x]) with ((mkPair k v :: E) ++ [x]) in Hsnoc.
    apply app_inj_tail in Hsnoc as [<- <-].
    exists c'. split; [exact Hrun|]. split; [exact HR'|]. split; [|exact Hcalls].
    apply absent_Has_false, (Repr_absent _ _ _ HR').
    destruct (Repr_observed c _ HR ltac:(lia)) as (_ & _ & _ & _ & Hnd).
    unfold keys_of in *. rewrite fmap_app in Hnd, Hk. simpl in Hnd, Hk.
    apply NoDup_app in Hnd as (_ & Hdisj & _).
    rewrite fmap_cons. simpl. intros Hin. apply elem_of_cons in Hin as [Heq|Hin].
    + apply Hk. apply elem_of_app. right. apply elem_of_cons. auto.
    + apply (Hdisj _ Hin). apply elem_of_cons. auto.
Qed.

(** X8. [Get] is idempotent: a second [Get] of the same key returns the same
    result and leaves the state that the first one left. *)
Theorem Get_twice c E k :
  Repr c E -> k ∈ keys_of E ->
  ∃ r c', Get k c = Some (r, c') ∧ Get k c' = Some (r, c').
Proof.
  intros HR Hin.
  destruct (Get_present c E k HR Hin) as (v & c' & Hrun & _ & _ & _ & _ & _ & Hagain).
  eauto.
Qed.

(** X9. In every state, a call that returns keeps the registered callback;
    it changes the capacity only if it is [AdjustCapacity]; it invokes the
    callback only if it is [Put], [Drop] or [AdjustCapacity] (so never from
    [Get] or [Del]), and never when no callback is registered; the record of
    invocations only grows. *)
Theorem capacity_and_callback_frame c (o : op) c' :
  run_op o c = Some (tt, c') ->
  onItemEvicted c' = onItemEvicted c ∧
  (sets_capacity o = false -> capacity c' = capacity c) ∧
  ∃ more, calls c' = calls c ++ more ∧
          (onItemEvicted c = false -> more = []) ∧
          (may_evict o = false -> more = []).
Proof.
  intros Hrun.
  assert (Hf : frame (negb (sets_capacity o)) (negb (may_evict o)) c c').
  { revert Hrun. generalize tt at 1. intros u. revert c u c'.
    change (respects (negb (sets_capacity o)) (negb (may_evict o)) (run_op o)).
    destruct o; simpl;
      try (apply respects_bind; [|intros; apply respects_ret]).
    - apply respects_Get.
    - apply respects_Put.
    - apply respects_Del.
    - apply respects_readonly, readonly_Keys.
    - apply respects_readonly, readonly_Peek.
    - apply respects_readonly, readonly_Has.
    - apply respects_Drop.
    - apply respects_readonly, readonly_Size.
    - apply respects_readonly, readonly_Capacity.
    - apply respects_AdjustCapacity.
    - apply respects_readonly, readonly_LeastRecentlyUsed. }
  destruct Hf as (Hcb & Hcap & more & Hcalls & Hnone & Hkeep).
  split; [exact Hcb|]. split.
  - intros Ho. apply Hcap. rewrite Ho. reflexivity.
  - exists more. split; [exact Hcalls|]. split; [exact Hnone|].
    intros Ho. apply Hkeep. rewrite Ho. reflexivity.
Qed.

(** X10. [AdjustCapacity] with a negative capacity evicts every entry, tail
    first, and returns [S - bufCap], more than the [S] entries it evicted;
    the capacity is then negative, below the size 0. *)
Theorem AdjustCapacity_negative_empties c E (bufCap : Z) :
  Repr c E -> bufCap < 0 -> Z.of_nat (length E) - bufCap <= max_int ->
  ∃ c', AdjustCapacity bufCap c = Some (Z.of_nat (length E) - bufCap, c') ∧
        Repr c' [] ∧
        capacity c' = bufCap ∧
        calls c' = calls c ++ (if onItemEvicted c then reverse E else []) ∧
        ¬ within_capacity c'.
Proof.
  intros (L & Hwf & <-) Hneg Hint. rewrite length_fmap in *.
  destruct (AdjustCapacity_any c L bufCap Hwf ltac:(lia))
    as (c' & Hrun & Hwf' & Hcap & _ & Hcalls).
  rewrite wrap_small in * by (unfold min_int, max_int in *; lia).
  replace (Z.max (Z.of_nat (length L) - bufCap) 0) with (Z.of_nat (length L) - bufCap) in * by lia.
  replace (length L - Z.to_nat (Z.of_nat (length L) - bufCap))%nat with 0%nat in * by lia.
  rewrite take_0 in Hwf'. rewrite drop_0 in Hcalls.
  exists c'. split; [exact Hrun|]. split; [exists []; split; [exact Hwf'|reflexivity]|].
  split; [exact Hcap|]. split; [exact Hcalls|].
  intros (s & cap & Hs & Hc & Hle).
  rewrite (Size_spec _ _ Hwf') in Hs. injection Hs as <-.
  unfold Capacity in Hc. rewrite gets_eq in Hc. injection Hc as <-.
  rewrite Hcap in Hle. vm_compute in Hle. destruct bufCap; try lia. apply Hle. reflexivity.
Qed.

(** X11. [len - bufCap] wraps around for a capacity so negative that the
    difference exceeds the largest [int]: [AdjustCapacity] then evicts
    nothing and returns 0, yet sets the capacity, which is below the size. *)
Theorem AdjustCapacity_overflow_keeps_entries c E (bufCap : Z) :
  Repr c E -> Z.of_nat (length E) <= max_int -> min_int <= bufCap ->
  max_int < Z.of_nat (length E) - bufCap ->
  ∃ c', AdjustCapacity bufCap c = Some (0, c') ∧
        Repr c' E ∧
        capacity c' = bufCap ∧
        calls c' = calls c ∧
        ¬ within_capacity c'.
Proof.
  intros (L & Hwf & <-) Hint Hmin Hover. rewrite length_fmap in *.
  destruct (AdjustCapacity_any c L bufCap Hwf Hint)
    as (c' & Hrun & Hwf' & Hcap & _ & Hcalls).
  rewrite wrap_over in * by (unfold min_int, max_int in *; lia).
  assert (Hd : Z.max (Z.of_nat (length L) - bufCap - 2 ^ 64) 0 = 0)
    by (unfold min_int, max_int in *; lia).
  rewrite Hd in *. simpl in Hwf', Hcalls.
  rewrite Nat.sub_0_r, take_ge in Hwf' by lia.
  rewrite Nat.sub_0_r, drop_ge in Hcalls by lia.
  exists c'. split; [exact Hrun|]. split; [exists L; split; [exact Hwf'|reflexivity]|].
  split; [exact Hcap|]. split.
  - rewrite Hcalls. destruct (onItemEvicted c); now rewrite app_nil_r.
  - intros (s & cap & Hs & Hc & Hle).
    rewrite (Size_spec _ _ Hwf') in Hs. injection Hs as <-.
    unfold Capacity in Hc. rewrite gets_eq in Hc. injection Hc as <-.
    rewrite wrap_small in Hle by (unfold min_int, max_int in *; lia).
    unfold min_int, max_int in *. lia.
Qed.

(** X12. With a callback registered, [Drop] (and [Purge], the same body)
    removes the entries in the order in which the map iteration visits them,
    not in recency order: the callback is invoked on each entry once, in
    that order; afterwards the cache is empty ([Size] 0, [Has] false for
    every key) and the capacity is unchanged. *)
Theorem Drop_notifies_in_iteration_order c E P :
  Repr c E -> onItemEvicted c = true -> P ≡ₚ E ->
  ∃ c', Drop (keys_of P) c = Some (tt, c') ∧
        Purge (keys_of P) c = Some (tt, c') ∧
        Repr c' [] ∧
        Size c' = Some (0, c') ∧
        (∀ k, Has k c' = Some (false, c')) ∧
        capacity c' = capacity c ∧
        calls c' = calls c ++ P.
Proof.
  intros HR Hcb HP.
  destruct (Drop_in_order c E P HR Hcb HP) as (c' & Hrun & HR' & Hcap & _ & Hcalls).
  exists c'. split; [exact Hrun|]. split; [exact Hrun|]. split; [exact HR'|].
  split; [apply (Repr_Size _ _ HR')|]. split; [|split; assumption].
  intros k. apply absent_Has_false, (Repr_absent _ _ _ HR').
  intros Hin. apply elem_of_nil in Hin. exact Hin.
Qed.

(** X13. A cache built by [New] and any sequence of calls (a [Drop] only
    with a callback registered, capacities below the largest [int]) holds
    a list of entries with distinct keys that [Size], [Keys] and [Has]
    report, and every further such call returns without a panic. *)
Theorem reachable_caches_are_consistent c :
  reachable c ->
  (∃ E, Repr c E ∧ NoDup (keys_of E) ∧
        Size c = Some (Z.of_nat (length E), c) ∧
        Keys c = Some (reverse (keys_of E), c) ∧
        ∀ k, Has k c = Some (bool_decide (k ∈ keys_of E), c)) ∧
  ∀ o, admissible c o -> ∃ c', run_op o c = Some (tt, c') ∧ reachable c'.
Proof.
  intros Hreach. pose proof (reachable_bounded c Hreach) as Hb. split.
  - destruct Hb as (E & HR & Hint & _). exists E.
    destruct (Repr_observed c E HR ltac:(lia)) as (Hsize & Hkeys & Hhas & _ & Hnd).
    repeat split; assumption.
  - intros o Hok. destruct (operation_preserves_bounded c o Hb Hok) as (c' & Hrun & _).
    exists c'. split; [exact Hrun|]. exact (reachable_step c o c' Hreach Hok Hrun).
Qed.

(** X14. [Put] of a new key that fits, followed by [Del] of that key, gives
    back the entries as they were, without invoking the callback. *)
Theorem Put_then_Del_restores c E k v :
  Repr c E -> k ∉ keys_of E ->
  Z.of_nat (length E) < max_int -> Z.of_nat (length E) < capacity c ->
  ∃ c1 c2, Put k v c = Some (false, c1) ∧ Del k c1 = Some (true, c2) ∧
           Repr c2 E ∧ capacity c2 = capacity c ∧ calls c2 = calls c.
Proof.
  intros HR Hk Hint Hfit.
  destruct (Put_new_fits c E k v HR Hk Hint Hfit) as (c1 & Hrun1 & HR1 & Hcap1 & _ & Hcalls1).
  destruct (Del_present c1 _ k HR1) as (c2 & Hrun2 & HR2 & Hcap2 & _ & Hcalls2).
  { unfold keys_of. rewrite fmap_cons. apply elem_of_cons. auto. }
  exists c1, c2. split; [exact Hrun1|]. split; [exact Hrun2|].
  split; [|split; congruence].
  unfold without in HR2. rewrite filter_cons_False in HR2 by (simpl; auto).
  fold (without k E) in HR2. rewrite without_absent in HR2 by exact Hk. exact HR2.
Qed.

(** X15. [Keys], [Size], [Capacity] and [LeastRecentlyUsed] only read: in
    every state, when they return the cache is exactly as it was. *)
Theorem reads_change_nothing c (o : op) c' :
  only_reads o = true -> run_op o c = Some (tt, c') -> c' = c.
Proof.
  intros Ho Hrun. revert Hrun. generalize tt at 1. intros u. revert c u c'.
  change (readonly (run_op o)).
  destruct o; try discriminate; simpl;
    (apply readonly_bind; [|intros; apply readonly_ret]).
  - apply readonly_Keys.
  - apply readonly_Size.
  - apply readonly_Capacity.
  - apply readonly_LeastRecentlyUsed.
Qed.

End further_properties.

(** ** The properties at concrete caches *)

Lemma fresh_cache_Repr bufCap cb : Repr (fresh_cache bufCap cb) [].
Proof. exists []. split; [apply New_wf|reflexivity]. Qed.

Lemma full_one_Repr : Repr full_one [mkPair (int 1) (int 1)].
Proof.
  destruct (Put_new_fits (fresh_cache 1 true) [] (int 1) (int 1) (fresh_cache_Repr 1 true))
    as (c' & Hrun & HR & _).
  - intros Hin. apply elem_of_nil in Hin. exact Hin.
  - by vm_compute.
  - by vm_compute.
  - unfold full_one, state_after, after. rewrite Hrun. exact HR.
Qed.

Lemma zero_capacity_Repr : Repr zero_capacity [].
Proof.
  destruct (AdjustCapacity_spec (fresh_cache 3 true) [] 0 (New_wf 3 true)) as (c' & Hrun & Hwf & _).
  - by vm_compute.
  - by vm_compute.
  - unfold zero_capacity, state_after, after. simpl in Hrun. rewrite Hrun.
    exists []. split; [|reflexivity]. simpl in Hwf. exact Hwf.
Qed.

Lemma not_in_no_keys (k : any Z) : k ∉ keys_of ([] : list (pair Z)).
Proof. intros Hin. apply elem_of_nil in Hin. exact Hin. Qed.

Lemma int_2_not_1 : int 2 ∉ keys_of [mkPair (int 1) (int 1)].
Proof.
  intros Hin. apply elem_of_cons in Hin as [Hin|Hin]; [discriminate|].
  apply elem_of_nil in Hin. exact Hin.
Qed.

Lemma int_1_in_1 : int 1 ∈ keys_of [mkPair (int 1) (int 1)].
Proof. apply elem_of_cons. auto. Qed.

Lemma Get_hit_and_miss_witness :
  Repr one_entry [mkPair (int 1) (int 1)] ∧
  Get (int 2) one_entry = Some ((None, false), one_entry) ∧
  ∃ c', Get (int 1) one_entry = Some ((int 1, true), c') ∧
        Repr c' [mkPair (int 1) (int 1)].
Proof.
  split; [exact one_entry_Repr|]. split.
  - apply (proj1 (Get_hit_and_miss one_entry (int 2))).
    apply absent_Has_false, (Repr_absent _ _ _ one_entry_Repr), int_2_not_1.
  - destruct (proj2 (Get_hit_and_miss one_entry (int 1)) _ one_entry_Repr int_1_in_1)
      as (v & c' & Hrun & Hpeek & HR & _).
    assert (Hv : v = int 1).
    { destruct (Repr_head_Peek one_entry _ _ one_entry_Repr) as [Hp _]. simpl in Hp.
      rewrite Hp in Hpeek. injection Hpeek as <-. reflexivity. }
    subst v. exists c'. split; [exact Hrun|]. exact HR.
Defined.

Lemma Keys_least_recent_first_witness :
  Repr one_entry [mkPair (int 1) (int 1)] ∧
  Keys one_entry = Some ([int 1], one_entry) ∧
  Size one_entry = Some (1, one_entry).
Proof.
  split; [exact one_entry_Repr|].
  destruct (Keys_least_recent_first one_entry _ one_entry_Repr) as (Hkeys & _ & Hsize & _).
  - simpl. unfold max_int. lia.
  - split; [exact Hkeys|exact Hsize].
Defined.

Lemma Put_new_key_witness :
  Repr full_one [mkPair (int 1) (int 1)] ∧ capacity full_one = 1 ∧
  ∃ c', Put (int 2) (int 2) full_one = Some (true, c') ∧
        Repr c' [mkPair (int 2) (int 2)] ∧
        calls c' = calls full_one ++ [mkPair (int 1) (int 1)].
Proof.
  split; [exact full_one_Repr|]. split; [reflexivity|].
  destruct (Put_new_key full_one _ (int 2) (int 2) full_one_Repr int_2_not_1) as [_ Hev].
  - simpl. unfold max_int. lia.
  - destruct Hev as (c' & E' & x & Hsnoc & Hrun & HR & _ & Hcalls).
    + simpl. change (capacity full_one) with 1. lia.
    + change [mkPair (int 2) (int 2); mkPair (int 1) (int 1)]
        with ([mkPair (int 2) (int 2)] ++ [mkPair (int 1) (int 1)]) in Hsnoc.
      apply app_inj_tail in Hsnoc as [<- <-].
      exists c'. split; [exact Hrun|]. split; [exact HR|exact Hcalls].
Defined.

Lemma Put_then_read_witness :
  Repr one_entry [mkPair (int 1) (int 1)] ∧ 0 < capacity one_entry ∧
  ∃ ev c', Put (int 2) (int 5) one_entry = Some (ev, c') ∧
           Peek (int 2) c' = Some (int 5, c') ∧
           Get (int 2) c' = Some ((int 5, true), c').
Proof.
  assert (Hpos : 0 < capacity one_entry) by (change (capacity one_entry) with 3; lia).
  split; [exact one_entry_Repr|]. split; [exact Hpos|].
  destruct (Put_then_read one_entry _ (int 2) (int 5) one_entry_Repr Hpos)
    as (ev & c' & Hrun & _ & Hpeek & Hget).
  - simpl. unfold max_int. lia.
  - exists ev, c'. split; [exact Hrun|]. split; [exact Hpeek|exact Hget].
Defined.

Lemma Put_without_capacity_evicts_itself_witness :
  Repr zero_capacity [] ∧ capacity zero_capacity <= 0 ∧
  ∃ c', Put (int 1) (int 1) zero_capacity = Some (true, c') ∧
        Has (int 1) c' = Some (false, c') ∧
        calls c' = calls zero_capacity ++ [mkPair (int 1) (int 1)].
Proof.
  assert (Hcap : capacity zero_capacity <= 0) by (change (capacity zero_capacity) with 0; lia).
  split; [exact zero_capacity_Repr|]. split; [exact Hcap|].
  destruct (Put_without_capacity_evicts_itself zero_capacity (int 1) (int 1)
              zero_capacity_Repr Hcap) as (c' & Hrun & _ & Hhas & Hcalls).
  exists c'. split; [exact Hrun|]. split; [exact Hhas|exact Hcalls].
Defined.

Lemma four_keys_distinct :
  NoDup [(int 1, int 1); (int 2, int 2); (int 3, int 3); (int 4, int 4)].*1.
Proof. apply (bool_decide_unpack _). vm_compute. exact I. Qed.

Lemma distinct_puts_keep_the_newest_witness :
  Repr (fresh_cache 3 true) [] ∧
  ∃ c', run_puts [(int 1, int 1); (int 2, int 2); (int 3, int 3); (int 4, int 4)]
                 (fresh_cache 3 true) = Some (tt, c') ∧
        Repr c' [mkPair (int 4) (int 4); mkPair (int 3) (int 3); mkPair (int 2) (int 2)] ∧
        calls c' = [mkPair (int 1) (int 1)].
Proof.
  split; [exact (fresh_cache_Repr 3 true)|].
  destruct (distinct_puts_keep_the_newest (fresh_cache 3 true) []
              [(int 1, int 1); (int 2, int 2); (int 3, int 3); (int 4, int 4)] 3%nat
              (fresh_cache_Repr 3 true) eq_refl)
    as (c' & Hrun & HR & _ & _ & Hcalls).
  - unfold max_int. lia.
  - simpl. lia.
  - exact four_keys_distinct.
  - intros k _. apply not_in_no_keys.
  - exists c'. split; [exact Hrun|]. split; [exact HR|exact Hcalls].
Defined.

Lemma LeastRecentlyUsed_is_evicted_next_witness :
  Repr full_one ([] ++ [mkPair (int 1) (int 1)]) ∧
  LeastRecentlyUsed full_one = Some ((int 1, int 1), full_one) ∧
  ∃ c', Put (int 2) (int 2) full_one = Some (true, c') ∧
        calls c' = calls full_one ++ [mkPair (int 1) (int 1)].
Proof.
  split; [exact full_one_Repr|].
  destruct (LeastRecentlyUsed_is_evicted_next full_one [] (mkPair (int 1) (int 1))
              (int 2) (int 2) full_one_Repr) as (Hlru & c' & Hrun & _ & _ & Hcalls).
  - simpl. unfold max_int. lia.
  - simpl. change (capacity full_one) with 1. lia.
  - exact int_2_not_1.
  - split; [exact Hlru|]. exists c'. split; [exact Hrun|exact Hcalls].
Defined.

Lemma Get_twice_witness :
  Repr one_entry [mkPair (int 1) (int 1)] ∧
  ∃ r c', Get (int 1) one_entry = Some (r, c') ∧ Get (int 1) c' = Some (r, c').
Proof.
  split; [exact one_entry_Repr|].
  exact (Get_twice one_entry _ (int 1) one_entry_Repr int_1_in_1).
Defined.

Lemma capacity_and_callback_frame_witness :
  ∃ c', run_op (OpPut (int 2) (int 2)) full_one = Some (tt, c') ∧
        onItemEvicted c' = onItemEvicted full_one ∧
        capacity c' = capacity full_one.
Proof.
  destruct (Put_new_evicts full_one _ (int 2) (int 2) full_one_Repr int_2_not_1)
    as (c' & _ & _ & _ & Hput & _).
  - simpl. unfold max_int. lia.
  - simpl. change (capacity full_one) with 1. lia.
  - assert (Hrun : run_op (OpPut (int 2) (int 2)) full_one = Some (tt, c')).
    { simpl. unfold bind. rewrite Hput. reflexivity. }
    destruct (capacity_and_callback_frame full_one _ c' Hrun) as (Hcb & Hcap & _).
    exists c'. split; [exact Hrun|]. split; [exact Hcb|]. apply Hcap. reflexivity.
Defined.

Lemma AdjustCapacity_negative_empties_witness :
  Repr one_entry [mkPair (int 1) (int 1)] ∧ -1 < 0 ∧
  ∃ c', AdjustCapacity (-1) one_entry = Some (2, c') ∧ Repr c' [] ∧
        capacity c' = -1.
Proof.
  split; [exact one_entry_Repr|]. split; [lia|].
  destruct (AdjustCapacity_negative_empties one_entry _ (-1) one_entry_Repr)
    as (c' & Hrun & HR & Hcap & _).
  - lia.
  - simpl. unfold max_int. lia.
  - exists c'. split; [exact Hrun|]. split; [exact HR|exact Hcap].
Defined.

Lemma AdjustCapacity_overflow_keeps_entries_witness :
  Repr one_entry [mkPair (int 1) (int 1)] ∧
  max_int < Z.of_nat (length [mkPair (int 1) (int 1)]) - min_int ∧
  ∃ c', AdjustCapacity min_int one_entry = Some (0, c') ∧
        Repr c' [mkPair (int 1) (int 1)] ∧
        capacity c' = min_int.
Proof.
  assert (Hover : max_int < Z.of_nat (length [mkPair (int 1) (int 1)]) - min_int)
    by (simpl; unfold min_int, max_int; lia).
  split; [exact one_entry_Repr|]. split; [exact Hover|].
  destruct (AdjustCapacity_overflow_keeps_entries one_entry _ min_int one_entry_Repr)
    as (c' & Hrun & HR & Hcap & _).
  - simpl. unfold max_int. lia.
  - lia.
  - exact Hover.
  - exists c'. split; [exact Hrun|]. split; [exact HR|exact Hcap].
Defined.

Lemma Drop_notifies_in_iteration_order_witness :
  Repr one_entry [mkPair (int 1) (int 1)] ∧ onItemEvicted one_entry = true ∧
  ∃ c', Drop [int 1] one_entry = Some (tt, c') ∧ Repr c' [] ∧
        calls c' = calls one_entry ++ [mkPair (int 1) (int 1)].
Proof.
  split; [exact one_entry_Repr|]. split; [reflexivity|].
  destruct (Drop_notifies_in_iteration_order one_entry _ [mkPair (int 1) (int 1)]
              one_entry_Repr eq_refl) as (c' & Hrun & _ & HR & _ & _ & _ & Hcalls).
  - reflexivity.
  - exists c'. split; [exact Hrun|]. split; [exact HR|exact Hcalls].
Defined.

Lemma reachable_caches_are_consistent_witness :
  reachable (fresh_cache 3 true) ∧
  ∃ c', run_op (OpPut (int 1) (int 1)) (fresh_cache 3 true) = Some (tt, c') ∧
        reachable c'.
Proof.
  assert (Hreach : reachable (fresh_cache 3 true)).
  { apply (reachable_New 3 true); [reflexivity|]. unfold max_int. lia. }
  split; [exact Hreach|].
  exact (proj2 (reachable_caches_are_consistent _ Hreach) (OpPut (int 1) (int 1)) I).
Defined.

Lemma Put_then_Del_restores_witness :
  Repr (fresh_cache 3 true) [] ∧
  ∃ c1 c2, Put (int 1) (int 1) (fresh_cache 3 true) = Some (false, c1) ∧
           Del (int 1) c1 = Some (true, c2) ∧ Repr c2 [].
Proof.
  split; [exact (fresh_cache_Repr 3 true)|].
  destruct (Put_then_Del_restores (fresh_cache 3 true) [] (int 1) (int 1)
              (fresh_cache_Repr 3 true) (not_in_no_keys _))
    as (c1 & c2 & Hput & Hdel & HR & _).
  - simpl. unfold max_int. lia.
  - simpl. lia.
  - exists c1, c2. split; [exact Hput|]. split; [exact Hdel|exact HR].
Defined.

Lemma reads_change_nothing_witness :
  ∃ c', run_op OpKeys one_entry = Some (tt, c') ∧ c' = one_entry.
Proof.
  destruct (Repr_observed one_entry _ one_entry_Repr) as (_ & Hkeys & _).
  - simpl. unfold max_int. lia.
  - assert (Hrun : run_op OpKeys one_entry = Some (tt, one_entry)).
    { simpl. unfold bind. rewrite Hkeys. reflexivity. }
    exists one_entry. split; [exact Hrun|].
    exact (reads_change_nothing one_entry OpKeys one_entry eq_refl Hrun).
Defined.
